(** * The 2d tuning model of [sfp/model.py]: embedding and verification

    The file embeds the tuning-model fitting code of [sfp/model.py]: the
    [LogGaussianDonut] model, [weighted_normed_loss], the training loops
    [train_model] / [train_model_traintest], the [FirstLevelDataset], the
    train/test split of [main], the table filters and the reading of the
    command line ([construct_df_filter] and the option [--stimulus_class]).

    Numbers.  A float64 is modelled as an exact real or one of the IEEE
    special values (+inf, -inf, NaN).  In the module [Float] rounding,
    overflow, underflow and the sign of zero are not modelled: arithmetic on
    finite values is exact, and the special values arise, as in IEEE
    arithmetic, from division by zero, [log2] of a non-positive number,
    [inf - inf], [0 * inf] and so on.  What is proved of the functions built
    on [Float] alone is proved of the code in exact arithmetic.  The module
    [Rounded] gives the loss a second time with every operation rounding its
    result, the rounding being a parameter; what is proved there for every
    rounding holds of the code with overflow and underflow as well.

    Tensors.  A torch tensor is modelled up to rank two, which is what the code
    manipulates: a 0-d tensor (a cast Python number or a parameter), a 1-d
    vector (one voxel) or a 2-d matrix given by its rows (a batch of voxels, or
    the outer grid built by [_check_and_reshape_tensors]). *)

From Stdlib Require Import Reals Lra Lia String Bool ZArith List.
From Stdlib Require Import Ascii Permutation FunctionalExtensionality.
Import ListNotations.
Open Scope R_scope.

(* ================================================================= *)
(** * Float values *)

Module Float.

Inductive fp : Type :=
| Fin (r : R)
| PInf
| NInf
| NaN.

(** Three-way case distinction on the sign of a real. *)
Definition sign_case {A : Type} (r : R) (neg zero pos : A) : A :=
  match total_order_T r 0 with
  | inleft (left _) => neg
  | inleft (right _) => zero
  | inright _ => pos
  end.

Definition fneg (a : fp) : fp :=
  match a with
  | Fin x => Fin (- x)
  | PInf => NInf
  | NInf => PInf
  | NaN => NaN
  end.

Definition fadd (a b : fp) : fp :=
  match a, b with
  | NaN, _ | _, NaN => NaN
  | Fin x, Fin y => Fin (x + y)
  | PInf, NInf | NInf, PInf => NaN
  | PInf, _ | _, PInf => PInf
  | NInf, _ | _, NInf => NInf
  end.

Definition fsub (a b : fp) : fp := fadd a (fneg b).

Definition fmul (a b : fp) : fp :=
  match a, b with
  | NaN, _ | _, NaN => NaN
  | Fin x, Fin y => Fin (x * y)
  | Fin x, PInf | PInf, Fin x => sign_case x NInf NaN PInf
  | Fin x, NInf | NInf, Fin x => sign_case x PInf NaN NInf
  | PInf, PInf | NInf, NInf => PInf
  | PInf, NInf | NInf, PInf => NInf
  end.

(** Division: [x / 0] is [NaN] for [x = 0] and an infinity of the sign of [x]
    otherwise (zero is unsigned here, hence positive). *)
Definition fdiv (a b : fp) : fp :=
  match a, b with
  | NaN, _ | _, NaN => NaN
  | Fin x, Fin y =>
      if Req_dec_T y 0 then sign_case x NInf NaN PInf else Fin (x / y)
  | Fin _, PInf | Fin _, NInf => Fin 0
  | PInf, Fin y => if Rlt_dec y 0 then NInf else PInf
  | NInf, Fin y => if Rlt_dec y 0 then PInf else NInf
  | _, _ => NaN
  end.

(** [x ** 2]. *)
Definition fsquare (a : fp) : fp := fmul a a.

Definition fsqrt (a : fp) : fp :=
  match a with
  | Fin x => if Rlt_dec x 0 then NaN else Fin (sqrt x)
  | PInf => PInf
  | NInf | NaN => NaN
  end.

Definition fabs (a : fp) : fp :=
  match a with
  | Fin x => Fin (Rabs x)
  | PInf | NInf => PInf
  | NaN => NaN
  end.

Definition fexp (a : fp) : fp :=
  match a with
  | Fin x => Fin (exp x)
  | PInf => PInf
  | NInf => Fin 0
  | NaN => NaN
  end.

Definition log2 (x : R) : R := ln x / ln 2.

Definition flog2 (a : fp) : fp :=
  match a with
  | Fin x => sign_case x NaN NInf (Fin (log2 x))
  | PInf => PInf
  | NInf | NaN => NaN
  end.

Definition fcos (a : fp) : fp :=
  match a with
  | Fin x => Fin (cos x)
  | _ => NaN
  end.

(** [torch.clamp(a, min=lo)]: NaN is propagated. *)
Definition fclamp_min (lo : R) (a : fp) : fp :=
  match a with
  | Fin x => Fin (Rmax x lo)
  | PInf => PInf
  | NInf => Fin lo
  | NaN => NaN
  end.

(** [a < b]; false whenever a NaN is involved. *)
Definition fltb (a b : fp) : bool :=
  match a, b with
  | NaN, _ | _, NaN => false
  | Fin x, Fin y => if Rlt_dec x y then true else false
  | Fin _, PInf => true
  | Fin _, NInf => false
  | PInf, _ => false
  | NInf, NInf => false
  | NInf, _ => true
  end.

(** [a == 0] and [a != 0]. *)
Definition is_zero (a : fp) : bool :=
  match a with
  | Fin x => if Req_dec_T x 0 then true else false
  | _ => false
  end.

Definition nonzero (a : fp) : bool := negb (is_zero a).

Definition isnan (a : fp) : bool :=
  match a with NaN => true | _ => false end.

Definition isinf (a : fp) : bool :=
  match a with PInf | NInf => true | _ => false end.

Definition fsum (v : list fp) : fp := fold_right fadd (Fin 0) v.

(** The mean of the elements: their sum over their number (NaN when empty). *)
Definition fmean (v : list fp) : fp :=
  fdiv (fsum v) (Fin (INR (length v))).

(** The Euclidean norm of a vector. *)
Definition fnorm (v : list fp) : fp := fsqrt (fsum (map fsquare v)).

End Float.
Export Float.

(* ================================================================= *)
(** * Exceptions *)

Inductive error : Type :=
| UsageError (msg : string)      (* [raise Exception(msg)] *)
| ShapeError                     (* torch: operands cannot be broadcast *)
| AssertionError (msg : string)
| AttributeError                 (* method call on [None] *)
| NameError                      (* use of an unbound local *)
| TorchValueError (msg : string). (* torch: [raise ValueError(msg)] *)

Inductive result (A : Type) : Type :=
| Ok (a : A)
| Raise (e : error).
Arguments Ok {A} a.
Arguments Raise {A} e.

Definition bind {A B : Type} (r : result A) (k : A -> result B) : result B :=
  match r with
  | Ok a => k a
  | Raise e => Raise e
  end.

Notation "x <- e ;; k" := (bind e (fun x => k))
  (at level 61, e at next level, right associativity).
Notation "' p <- e ;; k" := (bind e (fun p => k))
  (at level 61, p pattern, e at next level, right associativity).

(* ================================================================= *)
(** * Tensors *)

Module Torch.

Inductive tensor : Type :=
| T0 (x : fp)
| T1 (v : list fp)
| T2 (m : list (list fp)).

Definition ndimension (t : tensor) : nat :=
  match t with T0 _ => 0 | T1 _ => 1 | T2 _ => 2 end.

Definition shape (t : tensor) : list nat :=
  match t with
  | T0 _ => []
  | T1 v => [length v]
  | T2 m => [length m; length (hd [] m)]
  end.

Definition shape_neb (s1 s2 : list nat) : bool :=
  if list_eq_dec Nat.eq_dec s1 s2 then false else true.

Section Broadcast.
Context {A B C : Type}.
Variable f : A -> B -> result C.

Fixpoint zip_with (xs : list A) (ys : list B) : result (list C) :=
  match xs, ys with
  | [], [] => Ok []
  | x :: xs', y :: ys' =>
      c <- f x y ;; cs <- zip_with xs' ys' ;; Ok (c :: cs)
  | _, _ => Raise ShapeError
  end.

Fixpoint map_left (x : A) (ys : list B) : result (list C) :=
  match ys with
  | [] => Ok []
  | y :: ys' => c <- f x y ;; cs <- map_left x ys' ;; Ok (c :: cs)
  end.

Fixpoint map_right (xs : list A) (y : B) : result (list C) :=
  match xs with
  | [] => Ok []
  | x :: xs' => c <- f x y ;; cs <- map_right xs' y ;; Ok (c :: cs)
  end.

(** One dimension of torch broadcasting: the sizes are equal, or one of them
    is 1 and that operand is expanded; anything else is an error. *)
Definition broadcast (xs : list A) (ys : list B) : result (list C) :=
  if Nat.eqb (length xs) (length ys) then zip_with xs ys
  else match xs, ys with
       | [x], _ => map_left x ys
       | _, [y] => map_right xs y
       | _, _ => Raise ShapeError
       end.
End Broadcast.

Definition lift2 (f : fp -> fp -> fp) (a b : fp) : result fp := Ok (f a b).

Definition broadcast1 (f : fp -> fp -> fp) := broadcast (lift2 f).
Definition broadcast2 (f : fp -> fp -> fp) := broadcast (broadcast1 f).

(** An elementwise binary operation with broadcasting.  Shapes are aligned
    from the trailing dimension, so a vector meets a matrix as a single row. *)
Definition tbin (f : fp -> fp -> fp) (a b : tensor) : result tensor :=
  match a, b with
  | T0 x, T0 y => Ok (T0 (f x y))
  | T0 x, T1 v => Ok (T1 (map (f x) v))
  | T1 v, T0 y => Ok (T1 (map (fun x => f x y) v))
  | T0 x, T2 m => Ok (T2 (map (map (f x)) m))
  | T2 m, T0 y => Ok (T2 (map (map (fun x => f x y)) m))
  | T1 u, T1 v => r <- broadcast1 f u v ;; Ok (T1 r)
  | T1 u, T2 m => r <- broadcast2 f [u] m ;; Ok (T2 r)
  | T2 m, T1 v => r <- broadcast2 f m [v] ;; Ok (T2 r)
  | T2 m, T2 n => r <- broadcast2 f m n ;; Ok (T2 r)
  end.

Definition tmap (f : fp -> fp) (a : tensor) : tensor :=
  match a with
  | T0 x => T0 (f x)
  | T1 v => T1 (map f v)
  | T2 m => T2 (map (map f) m)
  end.

(** Operators on possibly failed operands: evaluation is left to right and
    the first exception wins. *)
Definition rbin (f : fp -> fp -> fp) (a b : result tensor) : result tensor :=
  x <- a ;; y <- b ;; tbin f x y.

Definition rmap (f : fp -> fp) (a : result tensor) : result tensor :=
  x <- a ;; Ok (tmap f x).

(** A Python number as an operand. *)
Definition num (r : R) : result tensor := Ok (T0 (Fin r)).

Declare Scope torch_scope.
Delimit Scope torch_scope with torch.
Infix "+" := (rbin fadd) : torch_scope.
Infix "-" := (rbin fsub) : torch_scope.
Infix "*" := (rbin fmul) : torch_scope.
Infix "/" := (rbin fdiv) : torch_scope.

(** [t.norm(2, -1, True)]. *)
Definition norm_last (t : tensor) : tensor :=
  match t with
  | T0 x => T0 (fnorm [x])
  | T1 v => T1 [fnorm v]
  | T2 m => T2 (map (fun row => [fnorm row]) m)
  end.

(** [t.mean(-1, True)]. *)
Definition mean_last (t : tensor) : tensor :=
  match t with
  | T0 x => T0 (fmean [x])
  | T1 v => T1 [fmean v]
  | T2 m => T2 (map (fun row => [fmean row]) m)
  end.

Definition elements (t : tensor) : list fp :=
  match t with
  | T0 x => [x]
  | T1 v => v
  | T2 m => concat m
  end.

(** [t.mean()], a 0-d tensor; [item] reads it. *)
Definition mean_all (t : tensor) : fp := fmean (elements t).

(** [0 in t]. *)
Definition contains_zero (t : tensor) : bool := existsb is_zero (elements t).

(** [torch.cat([a, b], dim)] for [dim] 0 and 1.  Along dimension 1 both
    operands are matrices with the same number of rows; a vector has no
    dimension 1. *)
Definition cat (dim : nat) (a b : tensor) : result tensor :=
  match dim, a, b with
  | 0%nat, T1 u, T1 v => Ok (T1 (u ++ v))
  | 0%nat, T2 m, T2 n => Ok (T2 (m ++ n))
  | 1%nat, T2 m, T2 n =>
      r <- zip_with (fun u v => Ok (u ++ v)) m n ;; Ok (T2 r)
  | _, _, _ => Raise ShapeError
  end.

End Torch.
Export Torch.

(* ================================================================= *)
(** * The model: [LogGaussianDonut] *)

Module LogGaussianDonut.

(** The keys of the dictionaries [kwargs] and [train_kwargs] that [__init__]
    builds by string interpolation: ['%s_%s_%s' % (ori, param, angle)] and
    ['sf_ecc_%s' % var]. *)
Inductive ori : Type := abs | rel.
Inductive quantity : Type := mode | amplitude.
Inductive angles : Type := cardinals | obliques.
Inductive ecc_var : Type := slope | intercept.

Inductive key : Type :=
| OriKey (o : ori) (p : quantity) (a : angles)
| EccKey (v : ecc_var).

Definition key_eq_dec (k1 k2 : key) : {k1 = k2} + {k1 <> k2}.
Proof. repeat decide equality. Defined.

Definition dict (V : Type) : Type := key -> V.

Definition set {V : Type} (d : dict V) (k : key) (v : V) : dict V :=
  fun k' => if key_eq_dec k k' then v else d k'.

(** [itertools.product] of two lists. *)
Definition product {A B : Type} (xs : list A) (ys : list B) : list (A * B) :=
  flat_map (fun x => map (fun y => (x, y)) ys) xs.

(** [torch.nn.Parameter]: a 0-d tensor and its [requires_grad] flag. *)
Record parameter : Type := _cast_as_param {
  data : fp;
  requires_grad : bool
}.

Record t : Type := Build {
  orientation_type : string;
  eccentricity_type : string;
  vary_amplitude : bool;
  model_type : string;
  sigma : parameter;
  abs_amplitude_cardinals : parameter;
  abs_amplitude_obliques : parameter;
  rel_amplitude_cardinals : parameter;
  rel_amplitude_obliques : parameter;
  abs_mode_cardinals : parameter;
  abs_mode_obliques : parameter;
  rel_mode_cardinals : parameter;
  rel_mode_obliques : parameter;
  sf_ecc_slope : parameter;
  sf_ecc_intercept : parameter
}.

Definition in_strings (s : string) (l : list string) : bool :=
  existsb (String.eqb s) l.

(** The state of [__init__]: [kwargs], [train_kwargs] and the warnings issued
    so far. *)
Definition init_state : Type := (dict fp * dict bool * list string)%type.

(** The body shared by the correcting loops:
    [if kwargs[k] != 0: warnings.warn(msg); kwargs[k] = 0]
    followed by [train_kwargs[k] = False]. *)
Definition correct (msg : string) (st : init_state) (k : key) : init_state :=
  let '(kwargs, train_kwargs, warned) := st in
  let '(kwargs, warned) :=
    if nonzero (kwargs k) then (set kwargs k (Fin 0), warned ++ [msg])
    else (kwargs, warned) in
  (kwargs, set train_kwargs k false, warned).

Definition warn_absolute (orientation_type : string) : string :=
  "When orientation_type is " ++ orientation_type
  ++ ", all absolute variables must be 0, correcting this...".
Definition warn_relative (orientation_type : string) : string :=
  "When orientation_type is " ++ orientation_type
  ++ ", all relative variables must be 0, correcting this...".
Definition warn_amplitude : string :=
  "When vary_amplitude is False, all amplitude variables must be 0, correcting this...".
Definition warn_intercept : string :=
  "When eccentricity_type is scaling, sf_ecc_intercept must be 0! correcting...".
Definition warn_slope : string :=
  "When eccentricity_type is constant, sf_ecc_slope must be 0! correcting...".

(** The dictionary [kwargs] as first filled in: every key is bound to the
    argument of that name ([kwargs[name] = eval(name)]). *)
Definition initial_kwargs
    (sf_ecc_slope sf_ecc_intercept abs_mode_cardinals abs_mode_obliques
     rel_mode_cardinals rel_mode_obliques abs_amplitude_cardinals
     abs_amplitude_obliques rel_amplitude_cardinals rel_amplitude_obliques : fp)
  : dict fp :=
  fun k =>
    match k with
    | OriKey abs mode cardinals => abs_mode_cardinals
    | OriKey abs mode obliques => abs_mode_obliques
    | OriKey rel mode cardinals => rel_mode_cardinals
    | OriKey rel mode obliques => rel_mode_obliques
    | OriKey abs amplitude cardinals => abs_amplitude_cardinals
    | OriKey abs amplitude obliques => abs_amplitude_obliques
    | OriKey rel amplitude cardinals => rel_amplitude_cardinals
    | OriKey rel amplitude obliques => rel_amplitude_obliques
    | EccKey slope => sf_ecc_slope
    | EccKey intercept => sf_ecc_intercept
    end.

(** [train_kwargs] as first filled in: every key is bound to [True]. *)
Definition initial_train_kwargs : dict bool := fun _ => true.

(** [LogGaussianDonut.__init__]: the model and the warnings it issued, or the
    exception raised for an unknown variant. *)
Definition init (orientation_type eccentricity_type : string)
    (vary_amplitude : bool)
    (sigma sf_ecc_slope sf_ecc_intercept abs_mode_cardinals abs_mode_obliques
     rel_mode_cardinals rel_mode_obliques abs_amplitude_cardinals
     abs_amplitude_obliques rel_amplitude_cardinals rel_amplitude_obliques : fp)
  : result (t * list string) :=
  let kwargs : dict fp :=
    initial_kwargs sf_ecc_slope sf_ecc_intercept abs_mode_cardinals
      abs_mode_obliques rel_mode_cardinals rel_mode_obliques
      abs_amplitude_cardinals abs_amplitude_obliques rel_amplitude_cardinals
      rel_amplitude_obliques in
  let train_kwargs : dict bool := initial_train_kwargs in
  let st : init_state := (kwargs, train_kwargs, []) in
  let st :=
    if in_strings orientation_type ["relative"; "iso"]%string then
      fold_left (fun st '(param, angle) =>
                   correct (warn_absolute orientation_type) st (OriKey abs param angle))
                (product [mode; amplitude] [cardinals; obliques]) st
    else st in
  let st :=
    if in_strings orientation_type ["absolute"; "iso"]%string then
      fold_left (fun st '(param, angle) =>
                   correct (warn_relative orientation_type) st (OriKey rel param angle))
                (product [mode; amplitude] [cardinals; obliques]) st
    else st in
  if negb (in_strings orientation_type ["relative"; "absolute"; "iso"; "full"]%string)
  then Raise (UsageError ("Don't know how to handle orientation_type "
                          ++ orientation_type ++ "!"))
  else
  let '(st, amp_vary_label) :=
    if negb vary_amplitude then
      (fold_left (fun st '(o, angle) =>
                    correct warn_amplitude st (OriKey o amplitude angle))
                 (product [abs; rel] [cardinals; obliques]) st,
       "constant"%string)
    else (st, "vary"%string) in
  st <-
    (if String.eqb eccentricity_type "scaling" then
       Ok (correct warn_intercept st (EccKey intercept))
     else if String.eqb eccentricity_type "constant" then
       Ok (correct warn_slope st (EccKey slope))
     else if negb (String.eqb eccentricity_type "full") then
       Raise (UsageError ("Don't know how to handle eccentricity_type "
                          ++ eccentricity_type ++ "!"))
     else Ok st) ;;
  let '(kwargs, train_kwargs, warned) := st in
  let param k := _cast_as_param (kwargs k) (train_kwargs k) in
  Ok ({| orientation_type := orientation_type;
         eccentricity_type := eccentricity_type;
         vary_amplitude := vary_amplitude;
         model_type := eccentricity_type ++ "_donut_" ++ orientation_type
                       ++ "_amps-" ++ amp_vary_label;
         sigma := _cast_as_param sigma true;
         abs_amplitude_cardinals := param (OriKey abs amplitude cardinals);
         abs_amplitude_obliques := param (OriKey abs amplitude obliques);
         rel_amplitude_cardinals := param (OriKey rel amplitude cardinals);
         rel_amplitude_obliques := param (OriKey rel amplitude obliques);
         abs_mode_cardinals := param (OriKey abs mode cardinals);
         abs_mode_obliques := param (OriKey abs mode obliques);
         rel_mode_cardinals := param (OriKey rel mode cardinals);
         rel_mode_obliques := param (OriKey rel mode obliques);
         sf_ecc_slope := param (EccKey slope);
         sf_ecc_intercept := param (EccKey intercept) |},
      warned).

(** The parameter stored under a key. *)
Definition stored (self : t) (k : key) : parameter :=
  match k with
  | OriKey abs mode cardinals => abs_mode_cardinals self
  | OriKey abs mode obliques => abs_mode_obliques self
  | OriKey rel mode cardinals => rel_mode_cardinals self
  | OriKey rel mode obliques => rel_mode_obliques self
  | OriKey abs amplitude cardinals => abs_amplitude_cardinals self
  | OriKey abs amplitude obliques => abs_amplitude_obliques self
  | OriKey rel amplitude cardinals => rel_amplitude_cardinals self
  | OriKey rel amplitude obliques => rel_amplitude_obliques self
  | EccKey slope => sf_ecc_slope self
  | EccKey intercept => sf_ecc_intercept self
  end.

(** [x.repeat(len(y), 1)] and [y.repeat(x.shape[1], 1).transpose(0, 1)] for
    1-d [x] and [y]: [len(y)] copies of the row [x], and row [i] made of
    [len(x)] copies of [y[i]]. *)
Definition _check_and_reshape_tensors (x y : tensor) : tensor * tensor :=
  match x, y with
  | T1 u, T1 v =>
      if shape_neb (shape x) (shape y)
      then (T2 (repeat u (length v)), T2 (map (fun yi => repeat yi (length u)) v))
      else (x, y)
  | _, _ => (x, y)
  end.

(** A parameter as an operand. *)
Definition P (p : parameter) : result tensor := Ok (T0 (data p)).

Definition tcos (a : result tensor) : result tensor := rmap fcos a.
Definition tlog2 (a : result tensor) : result tensor := rmap flog2 a.
Definition texp (a : result tensor) : result tensor := rmap fexp a.
Definition tneg (a : result tensor) : result tensor := rmap fneg a.
Definition tsquare (a : result tensor) : result tensor := rmap fsquare a.
Definition clamp_min (lo : R) (a : result tensor) : result tensor :=
  rmap (fclamp_min lo) a.

Local Open Scope torch_scope.

Definition preferred_period (self : t) (sf_angle vox_ecc vox_angle : tensor)
  : result tensor :=
  '(sf_angle, vox_ecc, vox_angle) <-
    (if Nat.eqb (ndimension sf_angle) 1 && Nat.eqb (ndimension vox_ecc) 1
        && Nat.eqb (ndimension vox_angle) 1
     then
       (* the chained comparison [a != b != c] is [a != b and b != c] *)
       if shape_neb (shape sf_angle) (shape vox_ecc)
          && shape_neb (shape vox_ecc) (shape vox_angle)
       then Raise (UsageError "Only two of these variables can be non-singletons!")
       else Ok (sf_angle, vox_ecc, vox_angle)
     else
       let '(sf_angle, vox_ecc) := _check_and_reshape_tensors sf_angle vox_ecc in
       let '(vox_ecc, vox_angle) := _check_and_reshape_tensors vox_ecc vox_angle in
       let '(sf_angle, vox_angle) := _check_and_reshape_tensors sf_angle vox_angle in
       Ok (sf_angle, vox_ecc, vox_angle)) ;;
  let sf_angle := Ok sf_angle in
  let rel_sf_angle := sf_angle - Ok vox_angle in
  let eccentricity_effect :=
    P (sf_ecc_slope self) * Ok vox_ecc + P (sf_ecc_intercept self) in
  let orientation_effect :=
    num 1 + P (abs_mode_cardinals self) * tcos (num 2 * sf_angle)
          + P (abs_mode_obliques self) * tcos (num 4 * sf_angle)
          + P (rel_mode_cardinals self) * tcos (num 2 * rel_sf_angle)
          + P (rel_mode_obliques self) * tcos (num 4 * rel_sf_angle) in
  clamp_min 1e-6 (eccentricity_effect * orientation_effect).

Definition preferred_sf (self : t) (sf_angle vox_ecc vox_angle : tensor)
  : result tensor :=
  num 1 / preferred_period self sf_angle vox_ecc vox_angle.

Definition max_amplitude (self : t) (sf_angle vox_angle : tensor)
  : result tensor :=
  let '(sf_angle, vox_angle) := _check_and_reshape_tensors sf_angle vox_angle in
  let sf_angle := Ok sf_angle in
  let rel_sf_angle := sf_angle - Ok vox_angle in
  let amplitude :=
    num 1 + P (abs_amplitude_cardinals self) * tcos (num 2 * sf_angle)
          + P (abs_amplitude_obliques self) * tcos (num 4 * sf_angle)
          + P (rel_amplitude_cardinals self) * tcos (num 2 * rel_sf_angle)
          + P (rel_amplitude_obliques self) * tcos (num 4 * rel_sf_angle) in
  clamp_min 1e-6 amplitude.

Definition evaluate (self : t) (sf_mag sf_angle vox_ecc vox_angle : tensor)
  : result tensor :=
  preferred_period <- preferred_period self sf_angle vox_ecc vox_angle ;;
  pdf <- texp (tneg (tsquare (tlog2 (Ok sf_mag) + tlog2 (Ok preferred_period)))
               / (num 2 * tsquare (P (sigma self)))) ;;
  amplitude <- max_amplitude self sf_angle vox_angle ;;
  Ok amplitude * Ok pdf.

Definition forward := evaluate.

End LogGaussianDonut.

(* ================================================================= *)
(** * The loss: [weighted_normed_loss] *)

Module Loss.
Local Open Scope torch_scope.

(** [weighted_normed_loss(predictions, target, precision,
    predictions_for_norm=None, target_for_norm=None)]; the result is the value
    of the 0-d tensor [squared_error.mean()]. *)
Definition weighted_normed_loss (predictions target precision : tensor)
    (predictions_for_norm target_for_norm : option tensor) : result fp :=
  predictions <-
    (if contains_zero (norm_last predictions)
     then Ok predictions * num 1e100
     else Ok predictions) ;;
  '(predictions_for_norm, target_for_norm) <-
    match predictions_for_norm with
    | None =>
        match target_for_norm with
        | None => Ok (predictions, Some target)
        | Some _ =>
            Raise (AssertionError
                     "Both target_for_norm and predictions_for_norm must be unset")
        end
    | Some p => Ok (p, target_for_norm)
    end ;;
  normed_predictions <- Ok predictions / Ok (norm_last predictions_for_norm) ;;
  normed_target <-
    match target_for_norm with
    | None => Raise AttributeError      (* [None.norm(2, -1, True)] *)
    | Some t => Ok target / Ok (norm_last t)
    end ;;
  let precision := mean_last precision in
  squared_error <-
    Ok precision * rmap fsquare (Ok normed_predictions - Ok normed_target) ;;
  Ok (mean_all squared_error).

End Loss.

(* ================================================================= *)
(** * The loss with the rounding of float64 *)

(** [weighted_normed_loss] once more, every arithmetic operation now rounding
    its result.  The rounding is a parameter: [rnd x] is the float64 that an
    operation returns when its exact result is the real number [x] (the
    nearest representable number; an infinity when [x] is too large, zero
    when it is too small).  What is proved for every [rnd], or for every [rnd]
    with a property that the rounding of float64 has, holds of the code as it
    runs; the loss of the module [Loss] is the case in which nothing is
    rounded.  A reduction adds its terms one after the other; the theorems
    about this module use of a sum only that a sum of zeros is zero, that a
    sum of terms that are not negative is not negative, and that equal terms
    give equal sums. *)
Module Rounded.

Section Rounding.
Variable rnd : R -> fp.

Definition round (a : fp) : fp :=
  match a with
  | Fin x => rnd x
  | _ => a
  end.

Definition radd (a b : fp) : fp := round (fadd a b).
Definition rsub (a b : fp) : fp := round (fsub a b).
Definition rmul (a b : fp) : fp := round (fmul a b).
Definition rdiv (a b : fp) : fp := round (fdiv a b).
Definition rsquare (a : fp) : fp := rmul a a.
Definition rsqrt (a : fp) : fp := round (fsqrt a).

Definition rsum (v : list fp) : fp := fold_right radd (Fin 0) v.

Definition rmean (v : list fp) : fp :=
  rdiv (rsum v) (Fin (INR (length v))).

Definition rnorm (v : list fp) : fp := rsqrt (rsum (map rsquare v)).

(** [t.norm(2, -1, True)]. *)
Definition norm_last (t : tensor) : tensor :=
  match t with
  | T0 x => T0 (rnorm [x])
  | T1 v => T1 [rnorm v]
  | T2 m => T2 (map (fun row => [rnorm row]) m)
  end.

(** [t.mean(-1, True)]. *)
Definition mean_last (t : tensor) : tensor :=
  match t with
  | T0 x => T0 (rmean [x])
  | T1 v => T1 [rmean v]
  | T2 m => T2 (map (fun row => [rmean row]) m)
  end.

(** [t.mean()]. *)
Definition mean_all (t : tensor) : fp := rmean (elements t).

Definition weighted_normed_loss (predictions target precision : tensor)
    (predictions_for_norm target_for_norm : option tensor) : result fp :=
  predictions <-
    (if contains_zero (norm_last predictions)
     then rbin rmul (Ok predictions) (Ok (T0 (rnd 1e100)))
     else Ok predictions) ;;
  '(predictions_for_norm, target_for_norm) <-
    match predictions_for_norm with
    | None =>
        match target_for_norm with
        | None => Ok (predictions, Some target)
        | Some _ =>
            Raise (AssertionError
                     "Both target_for_norm and predictions_for_norm must be unset")
        end
    | Some p => Ok (p, target_for_norm)
    end ;;
  normed_predictions <-
    rbin rdiv (Ok predictions) (Ok (norm_last predictions_for_norm)) ;;
  normed_target <-
    match target_for_norm with
    | None => Raise AttributeError      (* [None.norm(2, -1, True)] *)
    | Some t => rbin rdiv (Ok target) (Ok (norm_last t))
    end ;;
  let precision := mean_last precision in
  squared_error <-
    rbin rmul (Ok precision)
         (rmap rsquare (rbin rsub (Ok normed_predictions) (Ok normed_target))) ;;
  Ok (mean_all squared_error).

End Rounding.

End Rounded.

(* ================================================================= *)
(** * The data: [FirstLevelDataset] and the [DataLoader] *)

Module Dataset.

(** A row of the first-level results table. *)
Record row : Type := {
  voxel : Z;
  stimulus_class : Z;
  local_sf_magnitude : fp;
  local_sf_xy_direction : fp;
  eccen : fp;
  angle : fp;
  amplitude_estimate : fp;
  precision : fp
}.

Definition DataFrame : Type := list row.

Definition isin (x : Z) (l : list Z) : bool := existsb (Z.eqb x) l.

(** [Series.unique()]: the distinct values in order of first appearance. *)
Fixpoint unique (l : list Z) : list Z :=
  match l with
  | [] => []
  | x :: l' => x :: filter (fun y => negb (Z.eqb x y)) (unique l')
  end.

Fixpoint index_of (x : Z) (l : list Z) : nat :=
  match l with
  | [] => 0
  | y :: l' => if Z.eqb x y then 0 else S (index_of x l')
  end.

(** The dataset keeps the table with the added column [voxel_reindexed]. *)
Record FirstLevelDataset : Type := {
  df : list (row * nat);
  classes : list Z             (* [self.stimulus_class] *)
}.

(** [FirstLevelDataset.__init__], the table read from [df_path] being given. *)
Definition init (table : DataFrame) (df_filter : option (DataFrame -> DataFrame))
    (stimulus_class_subset : option (list Z)) : result FirstLevelDataset :=
  let table := match df_filter with Some f => f table | None => table end in
  let new_idx := unique (map voxel table) in
  let table := map (fun r => (r, index_of (voxel r) new_idx)) table in
  let table :=
    match stimulus_class_subset with
    | Some cs => filter (fun r => isin (stimulus_class (fst r)) cs) table
    | None => table
    end in
  match table with
  | [] => Raise (UsageError "Dataframe is empty!")
  | _ => Ok {| df := table;
               classes := unique (map (fun r => stimulus_class (fst r)) table) |}
  end.

(** What [get_single_item] returns for the rows of one voxel, the feature
    matrix being kept by columns. *)
Record item : Type := {
  sf_mag : list fp;
  sf_angle : list fp;
  vox_ecc : list fp;
  vox_angle : list fp;
  target : list fp;
  item_precision : list fp
}.

Definition get_single_item (rows : list (row * nat)) : item :=
  let col (f : row -> fp) := map (fun r => f (fst r)) rows in
  {| sf_mag := col local_sf_magnitude;
     sf_angle := col local_sf_xy_direction;
     vox_ecc := col eccen;
     vox_angle := col angle;
     target := col amplitude_estimate;
     item_precision := col precision |}.

(** [dataset[idx]]. *)
Definition getitem (self : FirstLevelDataset) (idx : nat) : item :=
  get_single_item (filter (fun r => Nat.eqb (snd r) idx) (df self)).

Definition get_voxel (self : FirstLevelDataset) (idx : Z) : item :=
  get_single_item (filter (fun r => Z.eqb (voxel (fst r)) idx) (df self)).

Definition len (self : FirstLevelDataset) : nat :=
  length (unique (map (fun r => voxel (fst r)) (df self))).

(** A collated batch: every field is a matrix with one row per voxel. *)
Record batch : Type := {
  b_sf_mag : tensor;
  b_sf_angle : tensor;
  b_vox_ecc : tensor;
  b_vox_angle : tensor;
  b_target : tensor;
  b_precision : tensor
}.

(** [torch.stack] of the vectors of the voxels of a batch; they must have
    the same length. *)
Definition stack (vs : list (list fp)) : result tensor :=
  match vs with
  | [] => Ok (T2 [])
  | v :: _ =>
      if forallb (fun u => Nat.eqb (length u) (length v)) vs
      then Ok (T2 vs) else Raise ShapeError
  end.

Definition collate (items : list item) : result batch :=
  m <- stack (map sf_mag items) ;;
  a <- stack (map sf_angle items) ;;
  e <- stack (map vox_ecc items) ;;
  v <- stack (map vox_angle items) ;;
  t <- stack (map target items) ;;
  p <- stack (map item_precision items) ;;
  Ok {| b_sf_mag := m; b_sf_angle := a; b_vox_ecc := e; b_vox_angle := v;
        b_target := t; b_precision := p |}.

Fixpoint chunks {A : Type} (fuel size : nat) (l : list A) : list (list A) :=
  match fuel, l with
  | S fuel', _ :: _ => firstn size l :: chunks fuel' size (skipn size l)
  | _, _ => []
  end.

Fixpoint sequence {A : Type} (l : list (result A)) : result (list A) :=
  match l with
  | [] => Ok []
  | r :: l' => a <- r ;; l'' <- sequence l' ;; Ok (a :: l'')
  end.

(** One pass over [DataLoader(dataset, batch_size)]: the voxels in the order
    of their dense index, [batch_size] at a time. *)
Definition DataLoader (dataset : FirstLevelDataset) (batch_size : nat)
  : result (list batch) :=
  match batch_size with
  | O => Raise (TorchValueError
                  "batch_size should be a positive integer value, but got batch_size=0")
  | _ =>
      let indices := seq 0 (len dataset) in
      sequence (map (fun idxs => collate (map (getitem dataset) idxs))
                    (chunks (length indices) batch_size indices))
  end.

End Dataset.

(* ================================================================= *)
(** * Training: [train_model] and [train_model_traintest] *)

Module Training.
Import Loss Dataset.

Section Loops.
(** The loops work with any model that can be called on the four feature
    tensors, and with the optimizer through [zero_grad], [backward] and
    [step] only.  [adam_step] stands for these three calls: it receives the
    loss as a function of the model, of which it takes the gradient. *)
Variable model_t : Type.
Variable forward : model_t -> tensor -> tensor -> tensor -> tensor -> result tensor.
Variable optimizer : Type.
Variable adam_step :
  optimizer -> model_t -> (model_t -> result fp) -> optimizer * model_t.

Definition call (model : model_t) (b : batch) : result tensor :=
  forward model (b_sf_mag b) (b_sf_angle b) (b_vox_ecc b) (b_vox_angle b).

Definition call_item (model : model_t) (it : item) : result tensor :=
  forward model (T1 (sf_mag it)) (T1 (sf_angle it)) (T1 (vox_ecc it))
          (T1 (vox_angle it)).

(** The state of the batch loop: optimizer, model and [loss_history[t]]. *)
Definition loop_state : Type := (optimizer * model_t * list fp)%type.

(** The loss of [train_model] on one batch, as a function of the model. *)
Definition train_loss (b : batch) (model : model_t) : result fp :=
  predictions <- call model b ;;
  weighted_normed_loss predictions (b_target b) (b_precision b) None None.

(** The body of a batch loop, for a given loss. *)
Definition batch_body (loss_of : model_t -> result fp) (st : loop_state)
  : result loop_state :=
  let '(opt, model, losses) := st in
  loss <- loss_of model ;;
  let losses := losses ++ [loss] in
  if isnan loss || isinf loss then Ok (opt, model, losses)
  else let '(opt, model) := adam_step opt model loss_of in
       Ok (opt, model, losses).

Fixpoint for_each {A S : Type} (body : S -> A -> result S) (l : list A) (st : S)
  : result S :=
  match l with
  | [] => Ok st
  | a :: l' => st' <- body st a ;; for_each body l' st'
  end.

(** [loss_history[-k]] for [k >= 1]. *)
Definition from_end (loss_history : list (list fp)) (k : nat) : list fp :=
  nth (length loss_history - k) loss_history [].

(** The test that ends training: the mean losses of the last four epochs
    differ, from one epoch to the next, by less than [train_thresh]. *)
Definition stagnated (loss_history : list (list fp)) (train_thresh : fp) : bool :=
  if Nat.ltb 3 (length loss_history) then
    let mean k := fmean (from_end loss_history k) in
    fltb (fabs (fsub (mean 1%nat) (mean 2%nat))) train_thresh
    && fltb (fabs (fsub (mean 2%nat) (mean 3%nat))) train_thresh
    && fltb (fabs (fsub (mean 3%nat) (mean 4%nat))) train_thresh
  else false.

(** The loop over the batches of one epoch of [train_model]. *)
Definition batch_loop (batches : list batch) (st : loop_state)
  : result loop_state :=
  for_each (fun st b => batch_body (train_loss b) st) batches st.

(** The epochs [t], [t + 1], ... of [train_model], [remaining] of them at
    most.  [last] is the value of the loop variable before the epoch (none
    before the first) and is returned as left by the loop. *)
Fixpoint train_epochs (batches : list batch) (train_thresh : fp)
    (remaining t : nat) (last : option nat) (opt : optimizer) (model : model_t)
    (loss_history : list (list fp))
  : result (optimizer * model_t * list (list fp) * option nat) :=
  match remaining with
  | O => Ok (opt, model, loss_history, last)
  | S remaining' =>
      '(opt, model, losses) <- batch_loop batches (opt, model, []) ;;
      let loss_history := loss_history ++ [losses] in
      if stagnated loss_history train_thresh
      then Ok (opt, model, loss_history, Some t)
      else train_epochs batches train_thresh remaining' (S t) (Some t)
             opt model loss_history
  end.

(** [train_model].  The data loader yields the same batches in every epoch
    and is read once.  The saved tables are not modelled; the result is the
    trained model, the loss history and the epoch [t] passed to
    [construct_dfs], which is unbound when no epoch was run. *)
Definition train_model (model : model_t) (opt : optimizer)
    (dataset : FirstLevelDataset) (max_epochs batch_size : nat)
    (train_thresh : fp)
  : result (model_t * list (list fp) * nat) :=
  batches <- DataLoader dataset batch_size ;;
  '(_, model, loss_history, t) <-
    train_epochs batches train_thresh max_epochs 0 None opt model [] ;;
  match t with
  | None => Raise NameError
  | Some t => Ok (model, loss_history, t)
  end.

(** The loss of a gradient step of [train_model_traintest]. *)
Definition traintest_loss (train_stuff test_stuff : batch) (model : model_t)
  : result fp :=
  predictions <- call model train_stuff ;;
  test_predictions <- call model test_stuff ;;
  predictions_for_norm <- cat 1 test_predictions predictions ;;
  target_for_norm <- cat 1 (b_target test_stuff) (b_target train_stuff) ;;
  weighted_normed_loss predictions (b_target train_stuff)
    (b_precision train_stuff) (Some predictions_for_norm) (Some target_for_norm).

(** The held-out loss of one voxel, computed once per epoch and never
    handed to the optimizer. *)
Definition heldout_loss (train_dataset test_dataset : FirstLevelDataset)
    (model : model_t) (v : Z) : result fp :=
  let test_item := get_voxel test_dataset v in
  let train_item := get_voxel train_dataset v in
  test_predictions <- call_item model test_item ;;
  train_predictions <- call_item model train_item ;;
  predictions_for_norm <- cat 0 test_predictions train_predictions ;;
  target_for_norm <- cat 0 (T1 (target test_item)) (T1 (target train_item)) ;;
  weighted_normed_loss test_predictions (T1 (target test_item))
    (T1 (item_precision test_item))
    (Some predictions_for_norm) (Some target_for_norm).

Fixpoint traintest_epochs (train_dataset test_dataset : FirstLevelDataset)
    (train_batches test_batches : list batch) (train_thresh : fp)
    (remaining t : nat) (last : option nat) (opt : optimizer) (model : model_t)
    (train_loss_history test_loss_history : list (list fp))
  : result (optimizer * model_t * list (list fp) * list (list fp) * option nat) :=
  match remaining with
  | O => Ok (opt, model, train_loss_history, test_loss_history, last)
  | S remaining' =>
      '(opt, model, losses) <-
        for_each (fun st '(train_stuff, test_stuff) =>
                    batch_body (traintest_loss train_stuff test_stuff) st)
                 (combine train_batches test_batches) (opt, model, []) ;;
      let train_loss_history := train_loss_history ++ [losses] in
      test_losses <-
        sequence (map (heldout_loss train_dataset test_dataset model)
                      (unique (map (fun r => voxel (fst r)) (df test_dataset)))) ;;
      let test_loss_history := test_loss_history ++ [test_losses] in
      if stagnated train_loss_history train_thresh
      then Ok (opt, model, train_loss_history, test_loss_history, Some t)
      else traintest_epochs train_dataset test_dataset train_batches
             test_batches train_thresh remaining' (S t) (Some t) opt model
             train_loss_history test_loss_history
  end.

Definition train_model_traintest (model : model_t) (opt : optimizer)
    (train_dataset test_dataset : FirstLevelDataset) (max_epochs batch_size : nat)
    (train_thresh : fp)
  : result (model_t * list (list fp) * list (list fp) * nat) :=
  train_batches <- DataLoader train_dataset batch_size ;;
  test_batches <- DataLoader test_dataset batch_size ;;
  '(_, model, train_loss_history, test_loss_history, t) <-
    traintest_epochs train_dataset test_dataset train_batches test_batches
      train_thresh max_epochs 0 None opt model [] [] ;;
  match t with
  | None => Raise NameError
  | Some t => Ok (model, train_loss_history, test_loss_history, t)
  end.
End Loops.

Arguments call {model_t} forward model b.
Arguments call_item {model_t} forward model it.
Arguments train_loss {model_t} forward b model.
Arguments batch_body {model_t optimizer} adam_step loss_of st.
Arguments batch_loop {model_t} forward {optimizer} adam_step batches st.
Arguments train_epochs {model_t} forward {optimizer} adam_step batches
  train_thresh remaining t last opt model loss_history.
Arguments train_model {model_t} forward {optimizer} adam_step model opt dataset
  max_epochs batch_size train_thresh.
Arguments traintest_loss {model_t} forward train_stuff test_stuff model.
Arguments heldout_loss {model_t} forward train_dataset test_dataset model v.
Arguments traintest_epochs {model_t} forward {optimizer} adam_step train_dataset
  test_dataset train_batches test_batches train_thresh remaining t last opt
  model train_loss_history test_loss_history.
Arguments train_model_traintest {model_t} forward {optimizer} adam_step model opt
  train_dataset test_dataset max_epochs batch_size train_thresh.

(** The datasets that [main] builds when [stimulus_class] is given: the full
    dataset, the train and test datasets, and [test_subset]. *)
Definition main_datasets (table : DataFrame) (df_filter : option (DataFrame -> DataFrame))
    (stimulus_class_arg : list Z)
  : result (FirstLevelDataset * FirstLevelDataset * FirstLevelDataset * list Z) :=
  dataset <- Dataset.init table df_filter None ;;
  let all_stimulus_class := unique (map stimulus_class table) in
  let other_stimulus_class :=
    filter (fun i => negb (isin i stimulus_class_arg)) all_stimulus_class in
  if Nat.ltb (length stimulus_class_arg) (length other_stimulus_class) then
    (* we assume that test set should be smaller than train *)
    train_dataset <- Dataset.init table df_filter (Some other_stimulus_class) ;;
    test_dataset <- Dataset.init table df_filter (Some stimulus_class_arg) ;;
    Ok (dataset, train_dataset, test_dataset, stimulus_class_arg)
  else
    train_dataset <- Dataset.init table df_filter (Some stimulus_class_arg) ;;
    test_dataset <- Dataset.init table df_filter (Some other_stimulus_class) ;;
    Ok (dataset, train_dataset, test_dataset, other_stimulus_class).


End Training.

(* ================================================================= *)
(** * The table filters and [construct_df_filter] *)

Module Filters.

(** [a <= b]; false whenever a NaN is involved. *)
Definition fleb (a b : fp) : bool :=
  match a, b with
  | NaN, _ | _, NaN => false
  | Fin x, Fin y => if Rle_dec x y then true else false
  | NInf, _ => true
  | _, PInf => true
  | _, _ => false
  end.

(** What the command-line code raises. *)
Inductive raised : Type :=
| Exception (msg : string)
| ValueError                     (* [int] of a string that is no integer *)
| TypeError                      (* iteration over [None] *)
| IndexError.                    (* [l[0]] of an empty list *)

Definition outcome (A : Type) : Type := (A + raised)%type.

(** [s.split(sep)] for a separator of one character: the pieces between the
    occurrences of [sep], empty pieces included; there is always one piece. *)
Fixpoint split (sep : ascii) (s : string) : list string :=
  match s with
  | EmptyString => [EmptyString]
  | String c s' =>
      if Ascii.eqb c sep then EmptyString :: split sep s'
      else match split sep s' with
           | piece :: pieces => String c piece :: pieces
           | [] => [String c EmptyString]
           end
  end.

Section Table.
(** The filters read four columns of the table, whatever its other columns
    are.  [amplitude_estimate_normed] stands for the column of that name or,
    in its absence, for [amplitude_estimate_median_normed]. *)
Variable Row : Type.
Variable voxel : Row -> Z.
Variable amplitude_estimate_normed : Row -> fp.
Variable eccen : Row -> fp.
Variable sigma : Row -> fp.

Definition reduce_num_voxels (df : list Row) (n_voxels : Z) : list Row :=
  filter (fun r => Z.ltb (voxel r) n_voxels) df.

(** [df.groupby('voxel').filter(func)]: the rows, in the order of the table,
    of the voxels on whose rows [func] holds. *)
Definition groupby_voxel_filter (func : list Row -> bool) (df : list Row)
  : list Row :=
  filter (fun r => func (filter (fun r' => Z.eqb (voxel r') (voxel r)) df)) df.

Definition drop_voxels_with_negative_amplitudes (df : list Row) : list Row :=
  groupby_voxel_filter
    (fun x => forallb (fun r => fleb (Fin 0) (amplitude_estimate_normed r)) x) df.

Definition drop_voxels_near_border (df : list Row) (inner_border outer_border : fp)
  : list Row :=
  let df :=
    groupby_voxel_filter
      (fun x => forallb (fun r => fleb (fadd (eccen r) (sigma r)) outer_border) x)
      df in
  let df :=
    groupby_voxel_filter
      (fun x => forallb (fun r => fleb inner_border (fsub (eccen r) (sigma r))) x)
      df in
  df.

(** Python's [int] on a string, [None] standing for its [ValueError]. *)
Variable int : string -> option Z.

(** The functions that [construct_df_filter] collects.  The third is
    [lambda x: reduce_num_voxels(x, n_voxels)], which reads the variable
    [n_voxels] of [construct_df_filter] when it is called. *)
Inductive df_filter_t : Type :=
| negative_amplitudes_filter
| near_border_filter
| reduce_lambda.

(** A call of a collected function, [n_voxels] being the value of that
    variable at the time of the call (it is bound before the first
    [reduce_lambda] is created). *)
Definition call_filter (n_voxels : option Z) (func : df_filter_t) (x : list Row)
  : list Row :=
  match func with
  | negative_amplitudes_filter => drop_voxels_with_negative_amplitudes x
  | near_border_filter => drop_voxels_near_border x (Fin 0.96) (Fin 12)
  | reduce_lambda =>
      match n_voxels with
      | Some n => reduce_num_voxels x n
      | None => x
      end
  end.

(** The loop of [construct_df_filter] over the pieces of the string: the list
    [df_filters] and the variable [n_voxels] at its end; [None] when the list
    was replaced by [[None]] and the loop left. *)
Fixpoint collect (pieces : list string) (df_filters : list df_filter_t)
    (n_voxels : option Z) : outcome (option (list df_filter_t * option Z)) :=
  match pieces with
  | [] => inl (Some (df_filters, n_voxels))
  | f :: pieces' =>
      if String.eqb f "drop_voxels_with_negative_amplitudes" then
        collect pieces' (df_filters ++ [negative_amplitudes_filter]) n_voxels
      else if String.eqb f "drop_voxels_near_border" then
        collect pieces' (df_filters ++ [near_border_filter]) n_voxels
      else if String.eqb f "None" || String.eqb f "none" then
        inl None
      else if String.prefix "reduce_num_voxels:" f then
        match int (last (split ":" f) EmptyString) with
        | Some n => collect pieces' (df_filters ++ [reduce_lambda]) (Some n)
        | None => inr ValueError
        end
      else inr (Exception ("Don't know what to do with df_filter " ++ f))
  end.

(** [construct_df_filter]: the filter, or [None] for no filter. *)
Definition construct_df_filter (df_filter_string : string)
  : outcome (option (list Row -> list Row)) :=
  match collect (split "," df_filter_string) [] None with
  | inr e => inr e
  | inl None => inl None
  | inl (Some (df_filters, n_voxels)) =>
      if Nat.ltb 1 (length df_filters) then
        inl (Some (fun x =>
                     fold_left (fun o func => call_filter n_voxels func o)
                               df_filters x))
      else
        match df_filters with
        | func :: _ => inl (Some (call_filter n_voxels func))
        | [] => inr IndexError
        end
  end.

(** The script's reading of the option [--stimulus_class]:
    [[int(i) for i in stimulus_class]], and [None] on a [ValueError]. *)
Fixpoint ints (l : list string) : option (list Z) :=
  match l with
  | [] => Some []
  | i :: l' =>
      match int i with
      | Some n =>
          match ints l' with
          | Some ns => Some (n :: ns)
          | None => None
          end
      | None => None
      end
  end.

Definition parse_stimulus_class (stimulus_class : option (list string))
  : outcome (option (list Z)) :=
  match stimulus_class with
  | None => inr TypeError
  | Some l => inl (ints l)
  end.
End Table.

Arguments reduce_num_voxels {Row} voxel df n_voxels.
Arguments groupby_voxel_filter {Row} voxel func df.
Arguments drop_voxels_with_negative_amplitudes {Row} voxel
  amplitude_estimate_normed df.
Arguments drop_voxels_near_border {Row} voxel eccen sigma df inner_border
  outer_border.
Arguments call_filter {Row} voxel amplitude_estimate_normed eccen sigma n_voxels
  func x.
Arguments construct_df_filter {Row} voxel amplitude_estimate_normed eccen sigma
  int df_filter_string.

End Filters.

(* ================================================================= *)
(** * Terms in which the properties are stated *)

Module ModelTerms.
Import LogGaussianDonut.

(** The parameters that a model variant fixes: the absolute ones unless the
    orientation type is absolute or full, the relative ones unless it is
    relative or full, the amplitude ones when the amplitude does not vary,
    the intercept under scaling and the slope under constant eccentricity. *)
Definition structurally_disabled (orientation_type eccentricity_type : string)
    (vary_amplitude : bool) (k : key) : bool :=
  match k with
  | OriKey abs p _ =>
      in_strings orientation_type ["relative"; "iso"]%string
      || (match p with amplitude => negb vary_amplitude | mode => false end)
  | OriKey rel p _ =>
      in_strings orientation_type ["absolute"; "iso"]%string
      || (match p with amplitude => negb vary_amplitude | mode => false end)
  | EccKey intercept => String.eqb eccentricity_type "scaling"
  | EccKey slope => String.eqb eccentricity_type "constant"
  end.

(** The state of [__init__] with respect to one key [k] of initial value
    [v0]: either the key has not been written yet, or it has been corrected:
    it is 0, not trainable, and a warning was issued if [v0] was not 0. *)
Definition untouched (k : key) (v0 : fp) (st : init_state) : Prop :=
  fst (fst st) k = v0.

Definition corrected (k : key) (v0 : fp) (st : init_state) : Prop :=
  fst (fst st) k = Fin 0 /\ snd (fst st) k = false
  /\ (nonzero v0 = true -> snd st <> []).

Definition live (k : key) (v0 : fp) (st : init_state) : Prop :=
  untouched k v0 st \/ corrected k v0 st.

(** The four passes of [__init__] over its dictionaries, in order. *)
Definition stage_abs (orientation_type : string) (st : init_state) : init_state :=
  if in_strings orientation_type ["relative"; "iso"]%string then
    fold_left (fun st '(param, angle) =>
                 correct (warn_absolute orientation_type) st (OriKey abs param angle))
              (product [mode; amplitude] [cardinals; obliques]) st
  else st.

Definition stage_rel (orientation_type : string) (st : init_state) : init_state :=
  if in_strings orientation_type ["absolute"; "iso"]%string then
    fold_left (fun st '(param, angle) =>
                 correct (warn_relative orientation_type) st (OriKey rel param angle))
              (product [mode; amplitude] [cardinals; obliques]) st
  else st.

Definition stage_amp (vary_amplitude : bool) (st : init_state) : init_state :=
  if negb vary_amplitude then
    fold_left (fun st '(o, angle) =>
                 correct warn_amplitude st (OriKey o amplitude angle))
              (product [abs; rel] [cardinals; obliques]) st
  else st.

Definition stage_ecc (eccentricity_type : string) (st : init_state) : init_state :=
  if String.eqb eccentricity_type "scaling"
  then correct warn_intercept st (EccKey intercept)
  else if String.eqb eccentricity_type "constant"
  then correct warn_slope st (EccKey slope)
  else st.

Definition final_state (orientation_type eccentricity_type : string)
    (vary_amplitude : bool) (st0 : init_state) : init_state :=
  stage_ecc eccentricity_type
    (stage_amp vary_amplitude
       (stage_rel orientation_type (stage_abs orientation_type st0))).

(** The formula of the specification on single values, in float arithmetic. *)
Section Formula.
Variable self : t.
Variables sf_magnitude sf_angle eccentricity retinotopic_angle : fp.

Let two := Fin 2.
Let four := Fin 4.
Let relative_sf_angle := fsub sf_angle retinotopic_angle.

Definition eccentricity_effect : fp :=
  fadd (fmul (data (sf_ecc_slope self)) eccentricity)
       (data (sf_ecc_intercept self)).

Definition orientation_effect : fp :=
  fadd (fadd (fadd (fadd (Fin 1)
    (fmul (data (abs_mode_cardinals self)) (fcos (fmul two sf_angle))))
    (fmul (data (abs_mode_obliques self)) (fcos (fmul four sf_angle))))
    (fmul (data (rel_mode_cardinals self)) (fcos (fmul two relative_sf_angle))))
    (fmul (data (rel_mode_obliques self)) (fcos (fmul four relative_sf_angle))).

Definition preferred_period_at : fp :=
  fclamp_min 1e-6 (fmul eccentricity_effect orientation_effect).

Definition amplitude_at : fp :=
  fclamp_min 1e-6
    (fadd (fadd (fadd (fadd (Fin 1)
      (fmul (data (abs_amplitude_cardinals self)) (fcos (fmul two sf_angle))))
      (fmul (data (abs_amplitude_obliques self)) (fcos (fmul four sf_angle))))
      (fmul (data (rel_amplitude_cardinals self))
            (fcos (fmul two relative_sf_angle))))
      (fmul (data (rel_amplitude_obliques self))
            (fcos (fmul four relative_sf_angle)))).

Definition pdf_at : fp :=
  fexp (fdiv (fneg (fsquare (fadd (flog2 sf_magnitude)
                                  (flog2 preferred_period_at))))
             (fmul two (fsquare (data (sigma self))))).

Definition response_at : fp := fmul amplitude_at pdf_at.
End Formula.

(** The same formula on real numbers. *)
Record real_parameters : Type := {
  r_sigma : R; r_sf_ecc_slope : R; r_sf_ecc_intercept : R;
  r_abs_mode_cardinals : R; r_abs_mode_obliques : R;
  r_rel_mode_cardinals : R; r_rel_mode_obliques : R;
  r_abs_amplitude_cardinals : R; r_abs_amplitude_obliques : R;
  r_rel_amplitude_cardinals : R; r_rel_amplitude_obliques : R
}.

(** The model holds the finite parameter values [rp]. *)
Definition holds (self : t) (rp : real_parameters) : Prop :=
  data (sigma self) = Fin (r_sigma rp)
  /\ data (sf_ecc_slope self) = Fin (r_sf_ecc_slope rp)
  /\ data (sf_ecc_intercept self) = Fin (r_sf_ecc_intercept rp)
  /\ data (abs_mode_cardinals self) = Fin (r_abs_mode_cardinals rp)
  /\ data (abs_mode_obliques self) = Fin (r_abs_mode_obliques rp)
  /\ data (rel_mode_cardinals self) = Fin (r_rel_mode_cardinals rp)
  /\ data (rel_mode_obliques self) = Fin (r_rel_mode_obliques rp)
  /\ data (abs_amplitude_cardinals self) = Fin (r_abs_amplitude_cardinals rp)
  /\ data (abs_amplitude_obliques self) = Fin (r_abs_amplitude_obliques rp)
  /\ data (rel_amplitude_cardinals self) = Fin (r_rel_amplitude_cardinals rp)
  /\ data (rel_amplitude_obliques self) = Fin (r_rel_amplitude_obliques rp).

Section RealFormula.
Variable rp : real_parameters.
Variables sf_magnitude sf_angle eccentricity retinotopic_angle : R.

Definition preferred_period_real : R :=
  Rmax ((r_sf_ecc_slope rp * eccentricity + r_sf_ecc_intercept rp)
        * (1 + r_abs_mode_cardinals rp * cos (2 * sf_angle)
             + r_abs_mode_obliques rp * cos (4 * sf_angle)
             + r_rel_mode_cardinals rp * cos (2 * (sf_angle - retinotopic_angle))
             + r_rel_mode_obliques rp * cos (4 * (sf_angle - retinotopic_angle))))
       1e-6.

Definition amplitude_real : R :=
  Rmax (1 + r_abs_amplitude_cardinals rp * cos (2 * sf_angle)
          + r_abs_amplitude_obliques rp * cos (4 * sf_angle)
          + r_rel_amplitude_cardinals rp
            * cos (2 * (sf_angle - retinotopic_angle))
          + r_rel_amplitude_obliques rp
            * cos (4 * (sf_angle - retinotopic_angle)))
       1e-6.

Definition pdf_real : R :=
  exp (- ((log2 sf_magnitude + log2 preferred_period_real)
          * (log2 sf_magnitude + log2 preferred_period_real))
       / (2 * (r_sigma rp * r_sigma rp))).

Definition response_real : R := amplitude_real * pdf_real.
End RealFormula.

(** Inputs of one common shape. *)
Inductive common_shape : Type :=
| Vector (n : nat)
| Matrix (r c : nat).

(** A tensor fits a common shape when it is a scalar or has exactly that
    shape. *)
Definition fits (s : common_shape) (a : tensor) : Prop :=
  match a, s with
  | T0 _, _ => True
  | T1 v, Vector n => length v = n
  | T2 m, Matrix r c => length m = r /\ Forall (fun row => length row = c) m
  | _, _ => False
  end.

Definition in_range (s : common_shape) (i j : nat) : Prop :=
  match s with
  | Vector n => (j < n)%nat
  | Matrix r c => (i < r)%nat /\ (j < c)%nat
  end.

(** The entry of a tensor at a position of the common shape, scalars being
    broadcast. *)
Definition entry (a : tensor) (i j : nat) : fp :=
  match a with
  | T0 x => x
  | T1 v => nth j v NaN
  | T2 m => nth j (nth i m []) NaN
  end.

Definition is_scalar (a : tensor) : bool :=
  match a with T0 _ => true | _ => false end.

(** [pointwise s d g r]: the computation [r] returns a tensor that fits [s],
    is a scalar exactly when [d], and holds [g i j] at every position. *)
Definition pointwise (s : common_shape) (d : bool) (g : nat -> nat -> fp)
    (r : result tensor) : Prop :=
  exists a, r = Ok a /\ fits s a /\ is_scalar a = d
            /\ forall i j, in_range s i j -> entry a i j = g i j.

Definition zip_rows (f : fp -> fp -> fp) (m n : list (list fp)) : list (list fp) :=
  map (fun p => map (fun q => f (fst q) (snd q)) (combine (fst p) (snd p)))
      (combine m n).

(** A full model, all of whose parameters are trainable, for the examples. *)
Definition example_parameters : real_parameters :=
  {| r_sigma := 1; r_sf_ecc_slope := 1; r_sf_ecc_intercept := 0;
     r_abs_mode_cardinals := 0; r_abs_mode_obliques := 0;
     r_rel_mode_cardinals := 0.6; r_rel_mode_obliques := 0;
     r_abs_amplitude_cardinals := 0; r_abs_amplitude_obliques := 0;
     r_rel_amplitude_cardinals := 0.5; r_rel_amplitude_obliques := 0 |}.

Definition trainable (x : R) : parameter := _cast_as_param (Fin x) true.

Definition example_model : t :=
  {| orientation_type := "full"; eccentricity_type := "full";
     vary_amplitude := true; model_type := "full_donut_full_amps-vary";
     sigma := trainable 1;
     abs_amplitude_cardinals := trainable 0; abs_amplitude_obliques := trainable 0;
     rel_amplitude_cardinals := trainable 0.5; rel_amplitude_obliques := trainable 0;
     abs_mode_cardinals := trainable 0; abs_mode_obliques := trainable 0;
     rel_mode_cardinals := trainable 0.6; rel_mode_obliques := trainable 0;
     sf_ecc_slope := trainable 1; sf_ecc_intercept := trainable 0 |}.

End ModelTerms.

Module LossTerms.
Import Loss.

Definition Rsum (l : list R) : R := fold_right Rplus 0 l.
Definition sumsq (l : list R) : R := Rsum (map (fun x => x * x) l).
Definition Rnorm (l : list R) : R := sqrt (sumsq l).
Definition Rmean (l : list R) : R := Rsum l / INR (length l).
Definition lift (l : list R) : list fp := map Fin l.

(** One voxel of a batch: its predictions, targets and precisions over the
    stimulus classes, and the vectors whose norms normalize the first two. *)
Record responses : Type := {
  preds : list R;
  targ : list R;
  prec : list R;
  preds_for_norm : list R;
  targ_for_norm : list R
}.

Definition normed (x for_norm : list R) : list R :=
  map (fun a => a / Rnorm for_norm) x.

(** Steps 3 and 4 of the specification for one voxel: the precision-weighted
    squared differences of the normalized predictions and targets. *)
Definition squared_error (v : responses) : list R :=
  map (fun p => Rmean (prec v) * ((fst p - snd p) * (fst p - snd p)))
      (combine (normed (preds v) (preds_for_norm v))
               (normed (targ v) (targ_for_norm v))).

Definition batch_loss (b : list responses) : R :=
  Rmean (concat (map squared_error b)).

Definition rows (f : responses -> list R) (b : list responses) : tensor :=
  T2 (map (fun v => lift (f v)) b).

(** What the closed form assumes of a voxel with [c] stimulus classes. *)
Definition regular (c : nat) (v : responses) : Prop :=
  length (preds v) = c /\ length (targ v) = c /\ prec v <> []
  /\ sumsq (preds v) <> 0
  /\ sumsq (preds_for_norm v) <> 0 /\ sumsq (targ_for_norm v) <> 0.

(** A voxel normalized by its own predictions and targets, as when the
    [for_norm] arguments are left unset. *)
Definition own (p t w : list R) : responses :=
  {| preds := p; targ := t; prec := w; preds_for_norm := p; targ_for_norm := t |}.

(** One voxel of a cross-validation batch: the train classes, and the
    predictions and targets of the held-out classes. *)
Record cv_voxel : Type := {
  train_preds : list R;
  train_targ : list R;
  train_prec : list R;
  test_preds : list R;
  test_targ : list R
}.

Definition cv_rows (f : cv_voxel -> list R) (b : list cv_voxel) : tensor :=
  T2 (map (fun v => lift (f v)) b).

(** The squared error over the train classes, each side divided by the norm
    of the held-out and train values taken together. *)
Definition cv_squared_error (v : cv_voxel) : list R :=
  map (fun xy =>
         Rmean (train_prec v)
         * ((fst xy / sqrt (sumsq (test_preds v) + sumsq (train_preds v))
             - snd xy / sqrt (sumsq (test_targ v) + sumsq (train_targ v)))
            * (fst xy / sqrt (sumsq (test_preds v) + sumsq (train_preds v))
               - snd xy / sqrt (sumsq (test_targ v) + sumsq (train_targ v)))))
      (combine (train_preds v) (train_targ v)).

Definition cv_loss (b : list cv_voxel) : R :=
  Rmean (concat (map cv_squared_error b)).

Definition cv_regular (c : nat) (v : cv_voxel) : Prop :=
  length (train_preds v) = c /\ length (train_targ v) = c /\ train_prec v <> []
  /\ sumsq (train_preds v) <> 0
  /\ sumsq (test_targ v) + sumsq (train_targ v) <> 0.

Definition pooled (v : cv_voxel) : responses :=
  {| preds := train_preds v; targ := train_targ v; prec := train_prec v;
     preds_for_norm := test_preds v ++ train_preds v;
     targ_for_norm := test_targ v ++ train_targ v |}.

Definition example_cv_voxel : cv_voxel :=
  {| train_preds := [3; 4]; train_targ := [1; 2]; train_prec := [1; 1];
     test_preds := [1]; test_targ := [2] |}.

End LossTerms.

Module TrainingTerms.
Import Loss LossTerms Dataset Training.


(** The mean loss of an epoch is a finite number in [[0, 1e10)]. *)
Definition tame (losses : list fp) : Prop :=
  exists m, fmean losses = Fin m /\ 0 <= m < 1e10.

(** The table after the optional filter. *)
Definition apply_filter (table : DataFrame)
    (df_filter : option (DataFrame -> DataFrame)) : DataFrame :=
  match df_filter with Some f => f table | None => table end.

Definition class_in (cs : list Z) (r : row) : bool := isin (stimulus_class r) cs.

(** [other_stimulus_class] of [main]. *)
Definition other_classes (table : DataFrame) (S : list Z) : list Z :=
  filter (fun i => negb (isin i S)) (unique (map stimulus_class table)).

(** Examples: one voxel seen under three stimulus classes. *)
Definition example_row (v c : Z) : row :=
  {| voxel := v; stimulus_class := c; local_sf_magnitude := Fin 1;
     local_sf_xy_direction := Fin 0; eccen := Fin 1; angle := Fin 0;
     amplitude_estimate := Fin 1; precision := Fin 1 |}.

Definition example_table : DataFrame :=
  [example_row 0 0; example_row 0 1; example_row 0 2].

Definition example_dataset : FirstLevelDataset :=
  {| df := [(example_row 0 0, 0%nat)]; classes := [0%Z] |}.

Definition example_batch : batch :=
  {| b_sf_mag := T2 [[Fin 1]]; b_sf_angle := T2 [[Fin 0]];
     b_vox_ecc := T2 [[Fin 1]]; b_vox_angle := T2 [[Fin 0]];
     b_target := T2 [[Fin 1]]; b_precision := T2 [[Fin 1]] |}.

(** A stand-in model for the examples: its prediction is the first feature. *)
Definition echo (model : unit) (sf_mag sf_angle vox_ecc vox_angle : tensor)
  : result tensor := Ok sf_mag.

(** A stand-in optimizer that leaves the model as it is. *)
Definition no_step (opt : unit) (model : unit) (loss_of : unit -> result fp)
  : unit * unit := (opt, model).

Definition one_row_batch (prediction target precision : list R) : batch :=
  {| b_sf_mag := T2 [lift prediction]; b_sf_angle := T2 [lift prediction];
     b_vox_ecc := T2 [lift prediction]; b_vox_angle := T2 [lift prediction];
     b_target := T2 [lift target]; b_precision := T2 [lift precision] |}.

End TrainingTerms.

Module TuningTerms.
Import LogGaussianDonut ModelTerms.

(** Every element of the tensor is a finite number. *)
Definition all_finite (a : tensor) : Prop :=
  Forall (fun x => exists r, x = Fin r) (elements a).

(** Every element of the tensor is a finite number of magnitude at most
    [bound]. *)
Definition within (bound : R) (a : tensor) : Prop :=
  Forall (fun x => exists r, x = Fin r /\ - bound <= r <= bound) (elements a).

(** The model that the constructor builds for a variant, from the initial
    values of [example_parameters]. *)
Definition example_variant (orientation_type eccentricity_type : string)
    (vary_amplitude : bool) : result (t * list string) :=
  init orientation_type eccentricity_type vary_amplitude
       (Fin 1) (Fin 1) (Fin 0) (Fin 0) (Fin 0) (Fin 0.6) (Fin 0)
       (Fin 0) (Fin 0) (Fin 0.5) (Fin 0).

(** The computation returns, or raises the shape error of broadcasting. *)
Definition shape_error_only {A : Type} (r : result A) : Prop :=
  forall e, r = Raise e -> e = ShapeError.

(** The condition under which [preferred_period] refuses its arguments. *)
Definition three_vectors_differ (sf_angle vox_ecc vox_angle : tensor) : Prop :=
  ndimension sf_angle = 1%nat /\ ndimension vox_ecc = 1%nat
  /\ ndimension vox_angle = 1%nat
  /\ shape sf_angle <> shape vox_ecc /\ shape vox_ecc <> shape vox_angle.

Definition usage_error : error :=
  UsageError "Only two of these variables can be non-singletons!".

End TuningTerms.

Module BatchTerms.
Import LossTerms.

(** A voxel given by its predictions, targets and precisions, normalized by
    its own predictions and targets. *)
Definition voxel_of (x : list R * list R * list R) : responses :=
  own (fst (fst x)) (snd (fst x)) (snd x).

Definition predictions_of (l : list (list R * list R * list R)) : tensor :=
  T2 (map (fun x => lift (fst (fst x))) l).
Definition targets_of (l : list (list R * list R * list R)) : tensor :=
  T2 (map (fun x => lift (snd (fst x))) l).
Definition precisions_of (l : list (list R * list R * list R)) : tensor :=
  T2 (map (fun x => lift (snd x)) l).

(** A voxel of [c] classes with non-zero predictions and targets. *)
Definition proper (c : nat) (x : list R * list R * list R) : Prop :=
  length (fst (fst x)) = c /\ length (snd (fst x)) = c /\ snd x <> []
  /\ sumsq (fst (fst x)) <> 0 /\ sumsq (snd (fst x)) <> 0.

Definition exchange (x : list R * list R * list R) : list R * list R * list R :=
  (snd (fst x), fst (fst x), snd x).

Definition reweigh (k : R) (x : list R * list R * list R) : list R * list R * list R :=
  (fst x, map (Rmult k) (snd x)).

End BatchTerms.

Module DatasetTerms.
Import Dataset TrainingTerms.

(** The rows that a dataset keeps: those of the filtered table whose class is
    in the subset, when one is given. *)
Definition restrict (stimulus_class_subset : option (list Z)) (rows : DataFrame)
  : DataFrame :=
  match stimulus_class_subset with
  | Some cs => filter (class_in cs) rows
  | None => rows
  end.

(** The voxels of the filtered table in order of first appearance: the
    position of a voxel in this list is its [voxel_reindexed]. *)
Definition voxels_of (table : DataFrame)
    (df_filter : option (DataFrame -> DataFrame)) : list Z :=
  unique (map voxel (apply_filter table df_filter)).

(** A table of two voxels, 5 and 7, seen under classes 0 and 1. *)
Definition two_voxel_table : DataFrame :=
  [example_row 5 0; example_row 5 1; example_row 7 0; example_row 7 1].

End DatasetTerms.

Module LoopTerms.
Import Dataset ModelTerms.

(** A 2-d tensor of [r] rows of [c] entries. *)
Definition matrix (r c : nat) (a : tensor) : Prop :=
  exists m, a = T2 m /\ length m = r /\ Forall (fun row => length row = c) m.

(** A batch of [r] voxels with [c] rows of the table each. *)
Definition well_shaped (b : batch) : Prop :=
  exists r c,
    matrix r c (b_sf_mag b) /\ matrix r c (b_sf_angle b)
    /\ matrix r c (b_vox_ecc b) /\ matrix r c (b_vox_angle b)
    /\ matrix r c (b_target b) /\ matrix r c (b_precision b).

(** An optimizer, for the examples, whose step returns the example model. *)
Definition nudge (opt : unit) (model : LogGaussianDonut.t)
    (loss_of : LogGaussianDonut.t -> result fp) : unit * LogGaussianDonut.t :=
  (opt, example_model).

(** Datasets, for the examples, whose values are all NaN: two voxels to
    train on, one of them held out under another class. *)
Definition nan_row (v c : Z) : row :=
  {| voxel := v; stimulus_class := c; local_sf_magnitude := NaN;
     local_sf_xy_direction := NaN; eccen := NaN; angle := NaN;
     amplitude_estimate := NaN; precision := NaN |}.

Definition nan_train : FirstLevelDataset :=
  {| df := [(nan_row 0 0, 0%nat); (nan_row 1 0, 1%nat)]; classes := [0%Z] |}.

Definition nan_test : FirstLevelDataset :=
  {| df := [(nan_row 0 1, 0%nat)]; classes := [1%Z] |}.

End LoopTerms.

Module FilterTerms.
Import Filters.

(** An entry of the filter string that names a filter: one of the two
    function names, or [reduce_num_voxels:] followed by what [int] reads. *)
Definition names_filter (int : string -> option Z) (f : string) : Prop :=
  f = "drop_voxels_with_negative_amplitudes"%string
  \/ f = "drop_voxels_near_border"%string
  \/ (String.prefix "reduce_num_voxels:" f = true
      /\ exists n, int (last (split ":" f) EmptyString) = Some n).

(** An entry that bounds the number of voxels. *)
Definition bounds_voxels (int : string -> option Z) (f : string) : Prop :=
  String.prefix "reduce_num_voxels:" f = true
  /\ exists n, int (last (split ":" f) EmptyString) = Some n.

(** An entry that [construct_df_filter] does not know. *)
Definition unknown_entry (f : string) : Prop :=
  f <> "drop_voxels_with_negative_amplitudes"%string
  /\ f <> "drop_voxels_near_border"%string
  /\ f <> "None"%string /\ f <> "none"%string
  /\ String.prefix "reduce_num_voxels:" f = false.

(** The rows of the voxel of [r]. *)
Definition group {Row : Type} (voxel : Row -> Z) (r : Row) (df : list Row)
  : list Row :=
  filter (fun r' => Z.eqb (voxel r') (voxel r)) df.

(** The test that a collected function makes of the rows of a voxel. *)
Definition test_of {Row : Type} (voxel : Row -> Z)
    (amplitude_estimate_normed eccen sigma : Row -> fp)
    (n_voxels : option Z) (func : df_filter_t) (x : list Row) : bool :=
  match func with
  | negative_amplitudes_filter =>
      forallb (fun r => fleb (Fin 0) (amplitude_estimate_normed r)) x
  | near_border_filter =>
      forallb (fun r => fleb (fadd (eccen r) (sigma r)) (Fin 12)) x
      && forallb (fun r => fleb (Fin 0.96) (fsub (eccen r) (sigma r))) x
  | reduce_lambda =>
      match n_voxels with
      | Some n => forallb (fun r => Z.ltb (voxel r) n) x
      | None => true
      end
  end.

(** Rows for the examples: voxel, normed amplitude, eccentricity and pRF
    size. *)
Definition prf_row : Type := (Z * fp * fp * fp)%type.
Definition prf_voxel (r : prf_row) : Z := fst (fst (fst r)).
Definition prf_amplitude (r : prf_row) : fp := snd (fst (fst r)).
Definition prf_eccen (r : prf_row) : fp := snd (fst r).
Definition prf_sigma (r : prf_row) : fp := snd r.

(** A reader of unsigned decimal numbers, for the examples. *)
Definition digit (c : ascii) : option Z :=
  let n := Z.of_nat (nat_of_ascii c) in
  if Z.leb 48 n && Z.leb n 57 then Some (n - 48)%Z else None.

Fixpoint digits (acc : Z) (s : string) : option Z :=
  match s with
  | EmptyString => Some acc
  | String c s' =>
      match digit c with
      | Some d => digits (10 * acc + d)%Z s'
      | None => None
      end
  end.

Definition decimal (s : string) : option Z :=
  match s with
  | EmptyString => None
  | _ => digits 0 s
  end.

End FilterTerms.

Module RoundedTerms.
Import Rounded LoopTerms.

(** No rounding: every operation returns its exact result. *)
Definition exact : R -> fp := Fin.

(** A value that is not negative: a non-negative number, [+inf] or NaN. *)
Definition not_negative (a : fp) : Prop :=
  match a with
  | Fin x => 0 <= x
  | NInf => False
  | PInf | NaN => True
  end.

Definition finite (a : fp) : Prop := exists x, a = Fin x.

(** Three properties of rounding to the nearest float64: zero is a float64,
    the rounded value of a non-negative number is not negative, and opposite
    numbers have opposite rounded values. *)
Definition rounds_zero (rnd : R -> fp) : Prop := rnd 0 = Fin 0.

Definition keeps_sign (rnd : R -> fp) : Prop :=
  forall x, 0 <= x -> not_negative (rnd x).

Definition symmetric (rnd : R -> fp) : Prop :=
  forall x, rnd (- x) = fneg (rnd x).

(** One voxel of a batch: its predictions, targets and precisions over the
    stimulus classes, and the vectors whose norms divide the first two. *)
Record voxel : Type := {
  v_predictions : list fp;
  v_target : list fp;
  v_precision : list fp;
  v_predictions_for_norm : list fp;
  v_target_for_norm : list fp
}.

(** A voxel normalized by its own predictions and targets. *)
Definition by_itself (x : list fp * list fp * list fp) : voxel :=
  {| v_predictions := fst (fst x); v_target := snd (fst x); v_precision := snd x;
     v_predictions_for_norm := fst (fst x); v_target_for_norm := snd (fst x) |}.

Definition tensor_of (f : voxel -> list fp) (b : list voxel) : tensor :=
  T2 (map f b).

Section Terms.
Variable rnd : R -> fp.

(** The precision-weighted squared differences of one voxel. *)
Definition squared_errors (v : voxel) : list fp :=
  map (fun xy =>
         rmul rnd (rmean rnd (v_precision v))
              (rsquare rnd
                 (rsub rnd (rdiv rnd (fst xy) (rnorm rnd (v_predictions_for_norm v)))
                           (rdiv rnd (snd xy) (rnorm rnd (v_target_for_norm v))))))
      (combine (v_predictions v) (v_target v)).

Definition loss_of_voxels (b : list voxel) : fp :=
  rmean rnd (concat (map squared_errors b)).

(** The test of the guard: the norm of the predictions of some voxel is
    computed as 0. *)
Definition some_norm_is_zero (rows : list (list fp)) : bool :=
  contains_zero (norm_last rnd (T2 rows)).

(** The predictions of a voxel divided by their own norm are finite
    numbers. *)
Definition normalizes (p : list fp) : Prop :=
  Forall (fun x => finite (rdiv rnd x (rnorm rnd p))) p.
End Terms.

(** The three tensors are matrices of one shape, with one row of precisions
    per voxel, or the predictions and the target are vectors of one
    length. *)
Definition one_shape (predictions target precision : tensor) : Prop :=
  (exists r c c', matrix r c predictions /\ matrix r c target
                  /\ matrix r c' precision)
  \/ (exists p t w, predictions = T1 p /\ target = T1 t /\ precision = T1 w
                     /\ length p = length t).

(** The prediction vector [(3, 4)] and the precisions [(1, 1)]. *)
Definition three_four : list fp := [Fin 3; Fin 4].
Definition ones : list fp := [Fin 1; Fin 1].

End RoundedTerms.

Module StoppingTerms.
Import Dataset.




End StoppingTerms.

Module GuardTerms.
Import LogGaussianDonut ModelTerms LossTerms Dataset.

(** The model [LogGaussianDonut('full', 'full', True, sigma=1, sf_ecc_slope=0,
    sf_ecc_intercept=1)], the other parameters being left at 0: its preferred
    period and its maximal amplitude are 1 everywhere. *)
Definition flat_parameters : real_parameters :=
  {| r_sigma := 1; r_sf_ecc_slope := 0; r_sf_ecc_intercept := 1;
     r_abs_mode_cardinals := 0; r_abs_mode_obliques := 0;
     r_rel_mode_cardinals := 0; r_rel_mode_obliques := 0;
     r_abs_amplitude_cardinals := 0; r_abs_amplitude_obliques := 0;
     r_rel_amplitude_cardinals := 0; r_rel_amplitude_obliques := 0 |}.

Definition flat_model : t :=
  {| orientation_type := "full"; eccentricity_type := "full";
     vary_amplitude := true; model_type := "full_donut_full_amps-vary";
     sigma := trainable 1;
     abs_amplitude_cardinals := trainable 0; abs_amplitude_obliques := trainable 0;
     rel_amplitude_cardinals := trainable 0; rel_amplitude_obliques := trainable 0;
     abs_mode_cardinals := trainable 0; abs_mode_obliques := trainable 0;
     rel_mode_cardinals := trainable 0; rel_mode_obliques := trainable 0;
     sf_ecc_slope := trainable 0; sf_ecc_intercept := trainable 1 |}.

(** One value per voxel for two voxels [A] and [B]: a batch of two voxels
    with one stimulus class. *)
Definition column (a b : R) : tensor := T2 [[Fin a]; [Fin b]].

(** A batch of the train loader and the batch of the test loader that goes
    with it.  In its train class voxel [A] is shown the spatial frequency 0,
    to which the model responds with 0, and voxel [B] the spatial frequency
    1, which the model prefers; in the held-out class it is the other way
    round.  The measured amplitudes are 1 in the train class and 0 in the
    held-out class. *)
Definition guarded_train_stuff : batch :=
  {| b_sf_mag := column 0 1; b_sf_angle := column 0 0;
     b_vox_ecc := column 1 1; b_vox_angle := column 0 0;
     b_target := column 1 1; b_precision := column 1 1 |}.

Definition guarded_test_stuff : batch :=
  {| b_sf_mag := column 1 0; b_sf_angle := column 0 0;
     b_vox_ecc := column 1 1; b_vox_angle := column 0 0;
     b_target := column 0 0; b_precision := column 1 1 |}.

(** The same two voxels as the claim sees them. *)
Definition guarded_voxels : list cv_voxel :=
  [ {| train_preds := [0]; train_targ := [1]; train_prec := [1];
       test_preds := [1]; test_targ := [0] |};
    {| train_preds := [1]; train_targ := [1]; train_prec := [1];
       test_preds := [0]; test_targ := [0] |} ].

(** What the guard of [weighted_normed_loss] does to a voxel when it fires:
    the predictions are multiplied by [1e100], the vectors whose norms divide
    them are not. *)
Definition inflated (v : responses) : responses :=
  {| preds := map (fun x => x * 1e100) (preds v); targ := targ v; prec := prec v;
     preds_for_norm := preds_for_norm v; targ_for_norm := targ_for_norm v |}.

(** A voxel with [c] stimulus classes whose norms are not 0. *)
Definition normable (c : nat) (v : responses) : Prop :=
  length (preds v) = c /\ length (targ v) = c /\ prec v <> []
  /\ sumsq (preds_for_norm v) <> 0 /\ sumsq (targ_for_norm v) <> 0.

End GuardTerms.

(* ================================================================= *)
(** * The model: construction and evaluation *)

Module ModelFacts.
Import LogGaussianDonut ModelTerms.

(** ** [__init__] corrects the parameters that the variant fixes *)

Section Invariant.
Variable k : key.
Variable v0 : fp.

Lemma set_same {V} (d : dict V) (v : V) : set d k v k = v.
Proof. unfold set. destruct (key_eq_dec k k); congruence. Qed.

Lemma set_other {V} (d : dict V) (k' : key) (v : V) :
  k' <> k -> set d k' v k = d k.
Proof. unfold set. intros. destruct (key_eq_dec k' k); congruence. Qed.

Lemma correct_here msg st : untouched k v0 st -> corrected k v0 (correct msg st k).
Proof.
  destruct st as [[kw tr] w]. unfold untouched, corrected, correct. simpl.
  intros <-. destruct (nonzero (kw k)) eqn:E; simpl.
  - rewrite !set_same. repeat split; auto. intros _. destruct w; discriminate.
  - rewrite set_same. repeat split; auto; try discriminate.
    unfold nonzero in E. destruct (kw k); simpl in E; try discriminate.
    destruct (Req_dec_T r 0); try discriminate. congruence.
Qed.

Lemma correct_elsewhere msg st k' :
  k' <> k -> untouched k v0 st -> untouched k v0 (correct msg st k').
Proof.
  destruct st as [[kw tr] w]. unfold untouched, correct. simpl. intros Hk <-.
  destruct (nonzero (kw k')); simpl; auto using set_other.
Qed.

Lemma correct_stable msg st k' : corrected k v0 st -> corrected k v0 (correct msg st k').
Proof.
  destruct st as [[kw tr] w]. unfold corrected, correct. simpl.
  intros (Hz & Hf & Hw).
  destruct (key_eq_dec k' k) as [->|Hne].
  - rewrite Hz. unfold nonzero, is_zero. destruct (Req_dec_T 0 0); [|lra].
    simpl. rewrite set_same. auto.
  - destruct (nonzero (kw k')); simpl; rewrite ?set_other by assumption;
      repeat split; auto.
    intros H. specialize (Hw H). destruct w; [congruence | discriminate].
Qed.

Section Loop.
Context {X : Type}.
Variable msg : string.
Variable g : X -> key.
Variable body : init_state -> X -> init_state.
Hypothesis body_correct : forall st x, body st x = correct msg st (g x).

Lemma loop_stable xs st : corrected k v0 st -> corrected k v0 (fold_left body xs st).
Proof.
  revert st. induction xs; simpl; auto. intros. apply IHxs.
  rewrite body_correct. apply correct_stable; auto.
Qed.

Lemma loop_reaches xs st :
  In k (map g xs) -> untouched k v0 st \/ corrected k v0 st ->
  corrected k v0 (fold_left body xs st).
Proof.
  revert st. induction xs as [|x xs IH]; simpl; [tauto|].
  intros st Hin [Hu | Hc].
  - destruct (key_eq_dec (g x) k) as [E | E].
    + apply loop_stable. rewrite body_correct, E. now apply correct_here.
    + apply IH; [tauto|]. left. rewrite body_correct. now apply correct_elsewhere.
  - apply loop_stable. rewrite body_correct. now apply correct_stable.
Qed.

Lemma loop_keeps xs st :
  untouched k v0 st \/ corrected k v0 st ->
  untouched k v0 (fold_left body xs st) \/ corrected k v0 (fold_left body xs st).
Proof.
  revert st. induction xs as [|x xs IH]; simpl; auto.
  intros st [Hu | Hc]; apply IH.
  - destruct (key_eq_dec (g x) k) as [E | E].
    + right. rewrite body_correct, E. now apply correct_here.
    + left. rewrite body_correct. now apply correct_elsewhere.
  - right. rewrite body_correct. now apply correct_stable.
Qed.
End Loop.
End Invariant.

Lemma init_stages
    (orientation_type eccentricity_type : string) (vary_amplitude : bool)
    (sigma0 sf_ecc_slope0 sf_ecc_intercept0 abs_mode_cardinals0 abs_mode_obliques0
     rel_mode_cardinals0 rel_mode_obliques0 abs_amplitude_cardinals0
     abs_amplitude_obliques0 rel_amplitude_cardinals0 rel_amplitude_obliques0 : fp) :
  in_strings orientation_type ["relative"; "absolute"; "iso"; "full"]%string = true ->
  in_strings eccentricity_type ["scaling"; "constant"; "full"]%string = true ->
  exists model,
    let st := final_state orientation_type eccentricity_type vary_amplitude
                (initial_kwargs sf_ecc_slope0 sf_ecc_intercept0
           abs_mode_cardinals0 abs_mode_obliques0 rel_mode_cardinals0
           rel_mode_obliques0 abs_amplitude_cardinals0 abs_amplitude_obliques0
           rel_amplitude_cardinals0 rel_amplitude_obliques0,
                 initial_train_kwargs, []) in
    init orientation_type eccentricity_type vary_amplitude
         sigma0 sf_ecc_slope0 sf_ecc_intercept0
           abs_mode_cardinals0 abs_mode_obliques0 rel_mode_cardinals0
           rel_mode_obliques0 abs_amplitude_cardinals0 abs_amplitude_obliques0
           rel_amplitude_cardinals0 rel_amplitude_obliques0 = Ok (model, snd st)
    /\ forall k, stored model k = _cast_as_param (fst (fst st) k) (snd (fst st) k).
Proof.
  intros Hori Hecc.
  assert (Hfull : String.eqb eccentricity_type "scaling" = false ->
                  String.eqb eccentricity_type "constant" = false ->
                  String.eqb eccentricity_type "full" = true).
  { unfold in_strings in Hecc. cbn [existsb] in Hecc. intros E1 E2.
    rewrite E1, E2 in Hecc. now rewrite !orb_false_l, orb_false_r in Hecc. }
  unfold init, final_state, stage_ecc, stage_amp, stage_rel, stage_abs.
  rewrite Hori. cbn [negb].
  destruct (in_strings orientation_type ["relative"; "iso"]%string);
    destruct (in_strings orientation_type ["absolute"; "iso"]%string);
    destruct vary_amplitude; cbn [negb];
    (destruct (String.eqb eccentricity_type "scaling") eqn:E1;
     [ | destruct (String.eqb eccentricity_type "constant") eqn:E2;
         [ | rewrite (Hfull eq_refl eq_refl); cbn [negb] ] ]);
    cbn [bind];
    try match goal with
    | |- context [ match ?s with (_, _) => _ end ] => destruct s as [[kw tr] w] eqn:Es
    end; rewrite ?Es; cbn [bind fst snd];
    eexists; (split; [reflexivity | intros k; destruct k as [[] [] [] | []]; reflexivity]).
Qed.


Lemma correct_keeps k v0 msg st k' : live k v0 st -> live k v0 (correct msg st k').
Proof.
  intros [Hu | Hc].
  - destruct (key_eq_dec k' k) as [-> | E].
    + right. now apply correct_here.
    + left. now apply correct_elsewhere.
  - right. now apply correct_stable.
Qed.

Lemma correct_reaches k v0 msg st : live k v0 st -> corrected k v0 (correct msg st k).
Proof. intros [Hu | Hc]; [now apply correct_here | now apply correct_stable]. Qed.

Lemma stage_abs_keeps k v0 o st : live k v0 st -> live k v0 (stage_abs o st).
Proof.
  unfold stage_abs. destruct (in_strings o _); auto.
  apply loop_keeps with (msg := warn_absolute o)
                        (g := fun x => OriKey abs (fst x) (snd x)).
  now intros ? [].
Qed.

Lemma stage_rel_keeps k v0 o st : live k v0 st -> live k v0 (stage_rel o st).
Proof.
  unfold stage_rel. destruct (in_strings o _); auto.
  apply loop_keeps with (msg := warn_relative o)
                        (g := fun x => OriKey rel (fst x) (snd x)).
  now intros ? [].
Qed.

Lemma stage_amp_keeps k v0 v st : live k v0 st -> live k v0 (stage_amp v st).
Proof.
  unfold stage_amp. destruct (negb v); auto.
  apply loop_keeps with (msg := warn_amplitude)
                        (g := fun x => OriKey (fst x) amplitude (snd x)).
  now intros ? [].
Qed.

Lemma stage_rel_stable k v0 o st :
  corrected k v0 st -> corrected k v0 (stage_rel o st).
Proof.
  unfold stage_rel. destruct (in_strings o _); auto.
  apply loop_stable with (msg := warn_relative o)
                         (g := fun x => OriKey rel (fst x) (snd x)).
  now intros ? [].
Qed.

Lemma stage_amp_stable k v0 v st :
  corrected k v0 st -> corrected k v0 (stage_amp v st).
Proof.
  unfold stage_amp. destruct (negb v); auto.
  apply loop_stable with (msg := warn_amplitude)
                         (g := fun x => OriKey (fst x) amplitude (snd x)).
  now intros ? [].
Qed.

Lemma stage_ecc_stable k v0 e st :
  corrected k v0 st -> corrected k v0 (stage_ecc e st).
Proof.
  unfold stage_ecc. intros H.
  destruct (String.eqb e "scaling"); [now apply correct_stable|].
  destruct (String.eqb e "constant"); [now apply correct_stable | assumption].
Qed.

Lemma stage_abs_reaches v0 o p a st :
  in_strings o ["relative"; "iso"]%string = true ->
  live (OriKey abs p a) v0 st -> corrected (OriKey abs p a) v0 (stage_abs o st).
Proof.
  intros Ho H. unfold stage_abs. rewrite Ho.
  apply loop_reaches with (msg := warn_absolute o)
                          (g := fun x => OriKey abs (fst x) (snd x)); auto.
  - now intros ? [].
  - destruct p, a; simpl; tauto.
Qed.

Lemma stage_rel_reaches v0 o p a st :
  in_strings o ["absolute"; "iso"]%string = true ->
  live (OriKey rel p a) v0 st -> corrected (OriKey rel p a) v0 (stage_rel o st).
Proof.
  intros Ho H. unfold stage_rel. rewrite Ho.
  apply loop_reaches with (msg := warn_relative o)
                          (g := fun x => OriKey rel (fst x) (snd x)); auto.
  - now intros ? [].
  - destruct p, a; simpl; tauto.
Qed.

Lemma stage_amp_reaches v0 o a st :
  live (OriKey o amplitude a) v0 st ->
  corrected (OriKey o amplitude a) v0 (stage_amp false st).
Proof.
  intros H. unfold stage_amp. cbn [negb].
  apply loop_reaches with (msg := warn_amplitude)
                          (g := fun x => OriKey (fst x) amplitude (snd x)); auto.
  - now intros ? [].
  - destruct o, a; simpl; tauto.
Qed.

Lemma stage_ecc_reaches_intercept v0 e st :
  String.eqb e "scaling" = true ->
  live (EccKey intercept) v0 st -> corrected (EccKey intercept) v0 (stage_ecc e st).
Proof. unfold stage_ecc. intros -> H. now apply correct_reaches. Qed.

Lemma stage_ecc_reaches_slope v0 e st :
  String.eqb e "constant" = true ->
  live (EccKey slope) v0 st -> corrected (EccKey slope) v0 (stage_ecc e st).
Proof.
  unfold stage_ecc. intros He H. apply String.eqb_eq in He. subst e. cbn.
  now apply correct_reaches.
Qed.

Lemma final_corrected k v0 o e v st :
  structurally_disabled o e v k = true ->
  untouched k v0 st ->
  corrected k v0 (final_state o e v st).
Proof.
  intros Hd Hu. unfold final_state.
  assert (H0 : live k v0 st) by now left.
  pose proof (stage_abs_keeps k v0 o _ H0) as H1.
  pose proof (stage_rel_keeps k v0 o _ H1) as H2.
  pose proof (stage_amp_keeps k v0 v _ H2) as H3.
  destruct k as [[] p a | []]; cbn [structurally_disabled] in Hd.
  - apply orb_true_iff in Hd. destruct Hd as [Hd | Hd].
    + apply stage_ecc_stable, stage_amp_stable, stage_rel_stable.
      now apply stage_abs_reaches.
    + destruct p; [discriminate|]. destruct v; [discriminate|].
      apply stage_ecc_stable. now apply stage_amp_reaches.
  - apply orb_true_iff in Hd. destruct Hd as [Hd | Hd].
    + apply stage_ecc_stable, stage_amp_stable. now apply stage_rel_reaches.
    + destruct p; [discriminate|]. destruct v; [discriminate|].
      apply stage_ecc_stable. now apply stage_amp_reaches.
  - now apply stage_ecc_reaches_slope.
  - now apply stage_ecc_reaches_intercept.
Qed.

(** C5.  For a valid model variant, constructing a [LogGaussianDonut] with any
    initial values succeeds, and every parameter that the variant structurally
    disables is stored as exactly 0 with its trainable flag false; when its
    initial value was not 0 a warning is issued.  In particular, for
    [orientation_type = "iso"] the keys [abs_mode_cardinals] and
    [rel_mode_cardinals] are disabled. *)
Theorem init_corrects_disabled
    (orientation_type eccentricity_type : string) (vary_amplitude : bool)
    (sigma0 sf_ecc_slope0 sf_ecc_intercept0 abs_mode_cardinals0 abs_mode_obliques0
     rel_mode_cardinals0 rel_mode_obliques0 abs_amplitude_cardinals0
     abs_amplitude_obliques0 rel_amplitude_cardinals0 rel_amplitude_obliques0 : fp) (k : key) :
  in_strings orientation_type ["relative"; "absolute"; "iso"; "full"]%string = true ->
  in_strings eccentricity_type ["scaling"; "constant"; "full"]%string = true ->
  structurally_disabled orientation_type eccentricity_type vary_amplitude k = true ->
  exists model warned,
    init orientation_type eccentricity_type vary_amplitude
         sigma0 sf_ecc_slope0 sf_ecc_intercept0
           abs_mode_cardinals0 abs_mode_obliques0 rel_mode_cardinals0
           rel_mode_obliques0 abs_amplitude_cardinals0 abs_amplitude_obliques0
           rel_amplitude_cardinals0 rel_amplitude_obliques0 = Ok (model, warned)
    /\ data (stored model k) = Fin 0
    /\ requires_grad (stored model k) = false
    /\ (nonzero (initial_kwargs sf_ecc_slope0 sf_ecc_intercept0
           abs_mode_cardinals0 abs_mode_obliques0 rel_mode_cardinals0
           rel_mode_obliques0 abs_amplitude_cardinals0 abs_amplitude_obliques0
           rel_amplitude_cardinals0 rel_amplitude_obliques0 k) = true ->
        warned <> []).
Proof.
  intros Hori Hecc Hdis.
  destruct (init_stages orientation_type eccentricity_type vary_amplitude
              sigma0 sf_ecc_slope0 sf_ecc_intercept0
           abs_mode_cardinals0 abs_mode_obliques0 rel_mode_cardinals0
           rel_mode_obliques0 abs_amplitude_cardinals0 abs_amplitude_obliques0
           rel_amplitude_cardinals0 rel_amplitude_obliques0 Hori Hecc)
    as (model & Hinit & Hstored).
  cbv zeta in Hinit, Hstored.
  pose proof (final_corrected k
                (initial_kwargs sf_ecc_slope0 sf_ecc_intercept0
           abs_mode_cardinals0 abs_mode_obliques0 rel_mode_cardinals0
           rel_mode_obliques0 abs_amplitude_cardinals0 abs_amplitude_obliques0
           rel_amplitude_cardinals0 rel_amplitude_obliques0 k)
                orientation_type eccentricity_type vary_amplitude
                (initial_kwargs sf_ecc_slope0 sf_ecc_intercept0
           abs_mode_cardinals0 abs_mode_obliques0 rel_mode_cardinals0
           rel_mode_obliques0 abs_amplitude_cardinals0 abs_amplitude_obliques0
           rel_amplitude_cardinals0 rel_amplitude_obliques0,
                 initial_train_kwargs, []) Hdis eq_refl) as (Hz & Hf & Hw).
  eexists model, _. split; [exact Hinit|].
  rewrite Hstored. cbn [data requires_grad]. auto.
Qed.

Lemma init_iso_witness :
  exists model warned,
    init "iso" "full" true (Fin 0.4) (Fin 1) (Fin 0) (Fin 0.5) (Fin 0) (Fin 0) (Fin 0)
         (Fin 0) (Fin 0) (Fin 0) (Fin 0) = Ok (model, warned)
    /\ data (abs_mode_cardinals model) = Fin 0
    /\ requires_grad (abs_mode_cardinals model) = false
    /\ warned <> [].
Proof.
  destruct (init_corrects_disabled "iso" "full" true (Fin 0.4) (Fin 1) (Fin 0) (Fin 0.5)
              (Fin 0) (Fin 0) (Fin 0) (Fin 0) (Fin 0) (Fin 0) (Fin 0)
              (OriKey abs mode cardinals) eq_refl eq_refl eq_refl)
    as (model & warned & H1 & H2 & H3 & H4).
  exists model, warned. repeat split; auto. apply H4.
  cbn. unfold nonzero, is_zero. destruct (Req_dec_T 0.5 0); [lra | reflexivity].
Defined.

(** ** [evaluate] on inputs of one common shape *)

Lemma zip_with_lift2 f u v :
  length u = length v ->
  zip_with (lift2 f) u v = Ok (map (fun p => f (fst p) (snd p)) (combine u v)).
Proof.
  revert v. induction u as [|x u IH]; intros [|y v] H; try discriminate; auto.
  simpl in *. unfold lift2 at 1. cbn [bind]. rewrite IH by lia. reflexivity.
Qed.

Lemma broadcast1_same f u v :
  length u = length v ->
  broadcast1 f u v = Ok (map (fun p => f (fst p) (snd p)) (combine u v)).
Proof.
  intros H. unfold broadcast1, broadcast. rewrite H, Nat.eqb_refl.
  now apply zip_with_lift2.
Qed.

Lemma nth_zip f (u v : list fp) j :
  length u = length v -> (j < length u)%nat ->
  nth j (map (fun p => f (fst p) (snd p)) (combine u v)) NaN
  = f (nth j u NaN) (nth j v NaN).
Proof.
  intros H Hj.
  rewrite nth_indep with (d' := f NaN NaN) by (rewrite length_map, length_combine; lia).
  rewrite (map_nth (fun p => f (fst p) (snd p)) (combine u v) (NaN, NaN)).
  rewrite combine_nth by assumption. reflexivity.
Qed.

Lemma zip_with_rows f c m n :
  length m = length n ->
  Forall (fun row => length row = c) m -> Forall (fun row => length row = c) n ->
  zip_with (broadcast1 f) m n = Ok (zip_rows f m n).
Proof.
  revert n. induction m as [|u m IH]; intros [|v n] H Hm Hn; try discriminate; auto.
  inversion Hm; inversion Hn; subst. simpl in H. cbn [zip_with].
  rewrite broadcast1_same by congruence. cbn [bind].
  rewrite IH by (auto; lia). reflexivity.
Qed.

Lemma broadcast2_same f c m n :
  length m = length n ->
  Forall (fun row => length row = c) m -> Forall (fun row => length row = c) n ->
  broadcast2 f m n = Ok (zip_rows f m n).
Proof.
  intros H Hm Hn. unfold broadcast2, broadcast. rewrite H, Nat.eqb_refl.
  now apply zip_with_rows with (c := c).
Qed.

Lemma zip_rows_fits f c m n :
  length m = length n ->
  Forall (fun row => length row = c) m -> Forall (fun row => length row = c) n ->
  length (zip_rows f m n) = length m
  /\ Forall (fun row => length row = c) (zip_rows f m n).
Proof.
  intros H Hm Hn. unfold zip_rows. split.
  - rewrite length_map, length_combine. lia.
  - apply Forall_forall. intros row Hin. apply in_map_iff in Hin.
    destruct Hin as ([u v] & <- & Hin). simpl.
    rewrite length_map, length_combine.
    rewrite Forall_forall in Hm, Hn.
    rewrite (Hm u), (Hn v); eauto using in_combine_l, in_combine_r. lia.
Qed.

Lemma nth_zip_rows f c m n i j :
  length m = length n ->
  Forall (fun row => length row = c) m -> Forall (fun row => length row = c) n ->
  (i < length m)%nat -> (j < c)%nat ->
  nth j (nth i (zip_rows f m n) []) NaN
  = f (nth j (nth i m []) NaN) (nth j (nth i n []) NaN).
Proof.
  intros H Hm Hn Hi Hj. unfold zip_rows.
  set (h := fun p : list fp * list fp =>
              map (fun q => f (fst q) (snd q)) (combine (fst p) (snd p))).
  rewrite nth_indep with (d' := h ([], [])) by (rewrite length_map, length_combine; lia).
  rewrite (map_nth h (combine m n) ([], [])). rewrite combine_nth by assumption.
  unfold h. cbn [fst snd].
  rewrite Forall_forall in Hm, Hn.
  assert (length (nth i m []) = c) by (apply Hm, nth_In; lia).
  assert (length (nth i n []) = c) by (apply Hn, nth_In; lia).
  apply nth_zip; congruence.
Qed.

Lemma nth_map_in (f : fp -> fp) v j :
  (j < length v)%nat -> nth j (map f v) NaN = f (nth j v NaN).
Proof.
  intros Hj. rewrite nth_indep with (d' := f NaN) by (rewrite length_map; lia).
  apply map_nth.
Qed.

Lemma nth_map_map_in (f : fp -> fp) c m i j :
  Forall (fun row => length row = c) m -> (i < length m)%nat -> (j < c)%nat ->
  nth j (nth i (map (map f) m) []) NaN = f (nth j (nth i m []) NaN).
Proof.
  intros Hm Hi Hj.
  rewrite nth_indep with (d' := map f []) by (rewrite length_map; lia).
  rewrite (map_nth (map f) m []). apply nth_map_in.
  rewrite Forall_forall in Hm. rewrite (Hm (nth i m [])); auto using nth_In.
Qed.

Lemma Forall_map_length (f : fp -> fp) c m :
  Forall (fun row => length row = c) m ->
  Forall (fun row => length row = c) (map (map f) m).
Proof.
  intros H. apply Forall_forall. intros row Hin. apply in_map_iff in Hin.
  destruct Hin as (u & <- & Hin). rewrite length_map.
  rewrite Forall_forall in H. auto.
Qed.

Section Pointwise.
Variable s : common_shape.

Lemma pointwise_ok a : fits s a -> pointwise s (is_scalar a) (entry a) (Ok a).
Proof. intros H. exists a. auto. Qed.

Lemma pointwise_num r : pointwise s true (fun _ _ => Fin r) (num r).
Proof. exists (T0 (Fin r)). simpl. auto. Qed.

Lemma pointwise_P p : pointwise s true (fun _ _ => data p) (P p).
Proof. exists (T0 (data p)). simpl. auto. Qed.

Lemma pointwise_rmap f d g r :
  pointwise s d g r -> pointwise s d (fun i j => f (g i j)) (rmap f r).
Proof.
  intros (a & -> & Hfit & Hd & Hg). exists (tmap f a).
  split; [reflexivity|]. destruct a as [x | v | m]; destruct s as [n | r c];
    simpl in Hfit; try contradiction; (split; [|split; [exact Hd|]]);
    try (intros i j H; rewrite <- (Hg i j H)); simpl; auto.
  - now rewrite length_map.
  - apply nth_map_in. simpl in H. lia.
  - destruct Hfit. split; [now rewrite length_map | now apply Forall_map_length].
  - destruct Hfit, H. apply nth_map_map_in with (c := c); auto; lia.
Qed.

Lemma pointwise_rbin f da db ga gb ra rb :
  pointwise s da ga ra -> pointwise s db gb rb ->
  pointwise s (da && db) (fun i j => f (ga i j) (gb i j)) (rbin f ra rb).
Proof.
  intros (a & -> & Ha & Hda & Hga) (b & -> & Hb & Hdb & Hgb).
  unfold rbin. cbn [bind]. subst da db.
  destruct a as [x | u | m]; destruct b as [y | v | n]; destruct s as [k | r c];
    simpl in Ha, Hb; try contradiction; cbn [tbin is_scalar andb].
  - eexists; repeat split; auto. intros i j H. simpl. f_equal; [apply (Hga i j H) | apply (Hgb i j H)].
  - eexists; repeat split; auto. intros i j H. simpl. f_equal; [apply (Hga i j H) | apply (Hgb i j H)].
  - eexists; repeat split; simpl; auto. now rewrite length_map.
    intros i j H. rewrite nth_map_in by lia.
    f_equal; [apply (Hga i j H) | apply (Hgb i j H)].
  - destruct Hb. eexists; repeat split; simpl; auto. now rewrite length_map.
    now apply Forall_map_length.
    intros i j [Hi Hj]. rewrite nth_map_map_in with (c := c) by (auto; lia).
    f_equal; [apply (Hga i j) | apply (Hgb i j)]; simpl; auto.
  - eexists; repeat split; simpl; auto. now rewrite length_map.
    intros i j H. rewrite (nth_map_in (fun x => f x y)) by lia.
    f_equal; [apply (Hga i j H) | apply (Hgb i j H)].
  - rewrite broadcast1_same by congruence. cbn [bind].
    eexists; repeat split; simpl; auto.
    rewrite length_map, length_combine; lia.
    intros i j H. rewrite nth_zip by lia.
    f_equal; [apply (Hga i j H) | apply (Hgb i j H)].
  - destruct Ha. eexists; repeat split; simpl; auto. now rewrite length_map.
    now apply Forall_map_length.
    intros i j [Hi Hj].
    rewrite (nth_map_map_in (fun x => f x y)) with (c := c) by (auto; lia).
    f_equal; [apply (Hga i j) | apply (Hgb i j)]; simpl; auto.
  - destruct Ha as [Ha1 Ha2], Hb as [Hb1 Hb2].
    rewrite broadcast2_same with (c := c) by (auto; congruence). cbn [bind].
    destruct (zip_rows_fits f c m n) as [L1 L2]; auto; try congruence.
    eexists; repeat split; simpl; auto. congruence.
    intros i j [Hi Hj]. rewrite nth_zip_rows with (c := c) by (auto; lia).
    f_equal; [apply (Hga i j) | apply (Hgb i j)]; simpl; auto.
Qed.

Lemma pointwise_weaken d d' g g' r :
  d = d' -> (forall i j, g i j = g' i j) ->
  pointwise s d g r -> pointwise s d' g' r.
Proof.
  intros <- Hg (a & -> & Hfit & Hd & Ha). exists a. repeat split; auto.
  intros i j H. rewrite <- Hg. auto.
Qed.

Lemma reshape_fits x y :
  fits s x -> fits s y -> _check_and_reshape_tensors x y = (x, y).
Proof.
  destruct x as [a | u | m], y as [b | v | n]; try reflexivity.
  destruct s; simpl; try contradiction. intros -> ->.
  unfold shape_neb. destruct (list_eq_dec Nat.eq_dec [n] [n]); congruence.
Qed.

Ltac pointwise_step :=
  first [ eapply pointwise_rbin | eapply pointwise_rmap | apply pointwise_num
        | apply pointwise_P | apply pointwise_ok; assumption | eassumption ].

Lemma preferred_period_pointwise self sf_angle vox_ecc vox_angle :
  fits s sf_angle -> fits s vox_ecc -> fits s vox_angle ->
  pointwise s (is_scalar sf_angle && is_scalar vox_ecc && is_scalar vox_angle)
    (fun i j => preferred_period_at self (entry sf_angle i j) (entry vox_ecc i j)
                  (entry vox_angle i j))
    (preferred_period self sf_angle vox_ecc vox_angle).
Proof.
  intros Ha He Hv. unfold preferred_period.
  assert (Hargs :
    (if Nat.eqb (ndimension sf_angle) 1 && Nat.eqb (ndimension vox_ecc) 1
        && Nat.eqb (ndimension vox_angle) 1
     then
       if shape_neb (shape sf_angle) (shape vox_ecc)
          && shape_neb (shape vox_ecc) (shape vox_angle)
       then Raise (UsageError "Only two of these variables can be non-singletons!")
       else Ok (sf_angle, vox_ecc, vox_angle)
     else
       let '(sf_angle, vox_ecc) := _check_and_reshape_tensors sf_angle vox_ecc in
       let '(vox_ecc, vox_angle) := _check_and_reshape_tensors vox_ecc vox_angle in
       let '(sf_angle, vox_angle) := _check_and_reshape_tensors sf_angle vox_angle in
       Ok (sf_angle, vox_ecc, vox_angle)) = Ok (sf_angle, vox_ecc, vox_angle)).
  { destruct (Nat.eqb (ndimension sf_angle) 1 && Nat.eqb (ndimension vox_ecc) 1
              && Nat.eqb (ndimension vox_angle) 1) eqn:E.
    - destruct sf_angle, vox_ecc, vox_angle; try discriminate.
      destruct s; simpl in Ha, He, Hv; try contradiction. subst.
      unfold shape. rewrite He. unfold shape_neb.
      destruct (list_eq_dec Nat.eq_dec [length v] [length v]); [reflexivity | congruence].
    - rewrite (reshape_fits sf_angle vox_ecc), (reshape_fits vox_ecc vox_angle),
        (reshape_fits sf_angle vox_angle); auto. }
  rewrite Hargs. cbn [bind]. cbv zeta.
  eapply pointwise_weaken; [| | unfold clamp_min, tcos; repeat pointwise_step].
  - destruct (is_scalar sf_angle), (is_scalar vox_ecc), (is_scalar vox_angle); reflexivity.
  - reflexivity.
Qed.

Lemma max_amplitude_pointwise self sf_angle vox_angle :
  fits s sf_angle -> fits s vox_angle ->
  pointwise s (is_scalar sf_angle && is_scalar vox_angle)
    (fun i j => amplitude_at self (entry sf_angle i j) (entry vox_angle i j))
    (max_amplitude self sf_angle vox_angle).
Proof.
  intros Ha Hv. unfold max_amplitude. rewrite reshape_fits by assumption.
  cbv zeta.
  eapply pointwise_weaken; [| | unfold clamp_min, tcos; repeat pointwise_step].
  - destruct (is_scalar sf_angle), (is_scalar vox_angle); reflexivity.
  - reflexivity.
Qed.

(** On inputs that are each a scalar or of the one common shape [s],
    [evaluate] returns a tensor of that shape (a scalar when all inputs are)
    holding the formula of the specification at every position. *)
Lemma evaluate_pointwise self sf_mag sf_angle vox_ecc vox_angle :
  fits s sf_mag -> fits s sf_angle -> fits s vox_ecc -> fits s vox_angle ->
  pointwise s
    (is_scalar sf_mag && is_scalar sf_angle && is_scalar vox_ecc && is_scalar vox_angle)
    (fun i j => response_at self (entry sf_mag i j) (entry sf_angle i j)
                  (entry vox_ecc i j) (entry vox_angle i j))
    (evaluate self sf_mag sf_angle vox_ecc vox_angle).
Proof.
  intros Hm Ha He Hv. unfold evaluate.
  pose proof (preferred_period_pointwise self _ _ _ Ha He Hv) as Hpp.
  pose proof (max_amplitude_pointwise self _ _ Ha Hv) as Hamp.
  destruct Hpp as (pp & -> & Hpp). cbn [bind].
  assert (Hpp' : pointwise s _ _ (Ok pp)) by (exists pp; split; [reflexivity | exact Hpp]).
  eassert (Hpdf : pointwise s _ _
             (texp (tneg (tsquare (tlog2 (Ok sf_mag) + tlog2 (Ok pp)))
                    / (num 2 * tsquare (P (sigma self)))))%torch).
  { unfold texp, tneg, tsquare, tlog2. repeat pointwise_step. }
  destruct Hpdf as (pdf & -> & Hpdf). cbn [bind].
  assert (Hpdf' : pointwise s _ _ (Ok pdf)) by (exists pdf; split; [reflexivity | exact Hpdf]).
  destruct Hamp as (amp & -> & Hamp). cbn [bind].
  assert (Hamp' : pointwise s _ _ (Ok amp)) by (exists amp; split; [reflexivity | exact Hamp]).
  eapply pointwise_weaken; [| | eapply pointwise_rbin; [exact Hamp' | exact Hpdf']].
  - destruct (is_scalar sf_mag), (is_scalar sf_angle), (is_scalar vox_ecc),
      (is_scalar vox_angle); reflexivity.
  - reflexivity.
Qed.
End Pointwise.

(** ** The formula on finite values *)

Lemma flog2_pos x : 0 < x -> flog2 (Fin x) = Fin (log2 x).
Proof.
  intros H. unfold flog2, sign_case.
  destruct (total_order_T x 0) as [[H'|H']|H']; try lra. reflexivity.
Qed.

Lemma fdiv_finite x y : y <> 0 -> fdiv (Fin x) (Fin y) = Fin (x / y).
Proof. intros H. unfold fdiv. destruct (Req_dec_T y 0); [contradiction | reflexivity]. Qed.

Lemma preferred_period_at_finite self rp a e v :
  holds self rp ->
  preferred_period_at self (Fin a) (Fin e) (Fin v)
  = Fin (preferred_period_real rp a e v).
Proof.
  intros (Hs & H1 & H2 & H3 & H4 & H5 & H6 & _).
  unfold preferred_period_at, eccentricity_effect, orientation_effect.
  rewrite H1, H2, H3, H4, H5, H6. reflexivity.
Qed.

Lemma amplitude_at_finite self rp a v :
  holds self rp ->
  amplitude_at self (Fin a) (Fin v) = Fin (amplitude_real rp a v).
Proof.
  intros (_ & _ & _ & _ & _ & _ & _ & H7 & H8 & H9 & H10).
  unfold amplitude_at. rewrite H7, H8, H9, H10. reflexivity.
Qed.

Lemma preferred_period_real_pos rp a e v : 0 < preferred_period_real rp a e v.
Proof.
  unfold preferred_period_real.
  match goal with |- 0 < Rmax ?x ?y => pose proof (Rmax_r x y) end. lra.
Qed.

Lemma example_model_holds : holds example_model example_parameters.
Proof. unfold holds. repeat split; reflexivity. Qed.

(** The example model is the one that the constructor builds, without any
    warning, from the example parameters. *)
Lemma example_model_constructed :
  init "full" "full" true (Fin 1) (Fin 1) (Fin 0) (Fin 0) (Fin 0) (Fin 0.6) (Fin 0)
       (Fin 0) (Fin 0) (Fin 0.5) (Fin 0) = Ok (example_model, []).
Proof. reflexivity. Qed.

Lemma pdf_at_finite self rp m a e v :
  holds self rp -> 0 < m -> r_sigma rp <> 0 ->
  pdf_at self (Fin m) (Fin a) (Fin e) (Fin v) = Fin (pdf_real rp m a e v).
Proof.
  intros H Hm Hsig. unfold pdf_at.
  rewrite (preferred_period_at_finite self rp) by assumption.
  destruct H as (Hs & _). rewrite Hs.
  rewrite !flog2_pos by (auto using preferred_period_real_pos).
  cbn [fadd fsquare fmul fneg]. rewrite fdiv_finite; [reflexivity|].
  intros E. apply Hsig. apply Rmult_integral in E. destruct E as [E|E]; [lra|].
  apply Rmult_integral in E. tauto.
Qed.

(** For finite parameters with [sigma <> 0] and finite inputs with
    [sf_magnitude > 0], the float formula is the real formula of the
    specification. *)
Lemma response_at_finite self rp m a e v :
  holds self rp -> 0 < m -> r_sigma rp <> 0 ->
  response_at self (Fin m) (Fin a) (Fin e) (Fin v) = Fin (response_real rp m a e v).
Proof.
  intros H Hm Hsig. unfold response_at.
  rewrite (pdf_at_finite self rp), (amplitude_at_finite self rp) by assumption.
  reflexivity.
Qed.

(** ** Vectors of different lengths *)

(** The grid that [evaluate] returns for a scalar orientation, one
    eccentricity given as a vector and two retinotopic angles: the entry in
    row [i], column [j] pairs the amplitude at angle [j] with the tuning curve
    at angle [i]. *)
Lemma evaluate_mixes_angles self m a e v1 v2 :
  evaluate self (T0 m) (T0 a) (T1 [e]) (T1 [v1; v2])
  = Ok (T2 [[fmul (amplitude_at self a v1) (pdf_at self m a e v1);
             fmul (amplitude_at self a v2) (pdf_at self m a e v1)];
            [fmul (amplitude_at self a v1) (pdf_at self m a e v2);
             fmul (amplitude_at self a v2) (pdf_at self m a e v2)]]).
Proof. reflexivity. Qed.

Lemma log2_1 : log2 1 = 0.
Proof. unfold log2. rewrite ln_1. unfold Rdiv. ring. Qed.

Lemma ln_2_pos : 0 < ln 2.
Proof. rewrite <- ln_1. apply ln_increasing; lra. Qed.

Lemma log2_4 : log2 4 = 2.
Proof.
  unfold log2. replace 4 with (2 * 2) by lra. rewrite ln_mult by lra.
  pose proof ln_2_pos. field. lra.
Qed.

Lemma cos_minus_PI : cos (2 * (0 - PI / 2)) = -1.
Proof. replace (2 * (0 - PI / 2)) with (- PI) by field. now rewrite cos_neg, cos_PI. Qed.

Lemma cos_zero_angle : cos (2 * (0 - 0)) = 1.
Proof. replace (2 * (0 - 0)) with 0 by ring. apply cos_0. Qed.

Lemma Rmax_left x y : y <= x -> Rmax x y = x.
Proof. intros H. unfold Rmax. destruct (Rle_dec x y); lra. Qed.

Lemma example_amplitudes :
  amplitude_real example_parameters 0 0 = 1.5
  /\ amplitude_real example_parameters 0 (PI / 2) = 0.5.
Proof.
  unfold amplitude_real. cbn [example_parameters r_abs_amplitude_cardinals
    r_abs_amplitude_obliques r_rel_amplitude_cardinals r_rel_amplitude_obliques].
  rewrite cos_minus_PI, cos_zero_angle. split.
  - rewrite Rmax_left; lra.
  - rewrite Rmax_left; lra.
Qed.

Lemma example_periods :
  preferred_period_real example_parameters 0 2.5 0 = 4
  /\ preferred_period_real example_parameters 0 2.5 (PI / 2) = 1.
Proof.
  unfold preferred_period_real. cbn [example_parameters r_sf_ecc_slope
    r_sf_ecc_intercept r_abs_mode_cardinals r_abs_mode_obliques
    r_rel_mode_cardinals r_rel_mode_obliques].
  rewrite cos_minus_PI, cos_zero_angle. split.
  - rewrite Rmax_left; lra.
  - rewrite Rmax_left; lra.
Qed.

Lemma example_pdfs :
  pdf_real example_parameters 1 0 2.5 0 = exp (-2)
  /\ pdf_real example_parameters 1 0 2.5 (PI / 2) = 1.
Proof.
  unfold pdf_real. destruct example_periods as [-> ->].
  rewrite log2_1, log2_4. cbn [example_parameters r_sigma]. split.
  - f_equal. lra.
  - rewrite <- exp_0. f_equal. lra.
Qed.

(** C1, at an input where the code departs from it.  For the example model,
    [sf_mag = 1], [sf_angle = 0], [vox_ecc = [2.5]] and
    [vox_angle = [0, pi/2]], the formula of the specification gives [1.5 * exp (-2)]
    at angle 0 and [0.5] at angle [pi/2].  [evaluate] returns a 2 x 2 grid
    instead, whose entries off the diagonal, [0.5 * exp (-2)] and [1.5], are
    neither of these two values. *)
Theorem evaluate_pairs_wrong_angles :
  evaluate example_model (T0 (Fin 1)) (T0 (Fin 0)) (T1 [Fin 2.5])
           (T1 [Fin 0; Fin (PI / 2)])
  = Ok (T2 [[Fin (1.5 * exp (-2)); Fin (0.5 * exp (-2))];
            [Fin (1.5 * 1); Fin (0.5 * 1)]])
  /\ response_at example_model (Fin 1) (Fin 0) (Fin 2.5) (Fin 0)
     = Fin (1.5 * exp (-2))
  /\ response_at example_model (Fin 1) (Fin 0) (Fin 2.5) (Fin (PI / 2))
     = Fin (0.5 * 1)
  /\ 0.5 * exp (-2) <> 1.5 * exp (-2)
  /\ 0.5 * exp (-2) <> 0.5 * 1.
Proof.
  pose proof example_model_holds as H.
  destruct example_amplitudes as [A1 A2]. destruct example_pdfs as [P1 P2].
  assert (S1 : r_sigma example_parameters <> 0) by (cbn; lra).
  split; [|split; [|split; [|split]]].
  - rewrite evaluate_mixes_angles.
    rewrite !(amplitude_at_finite _ _ _ _ H).
    rewrite !(pdf_at_finite _ _ _ _ _ _ H) by (auto; lra).
    cbn [fmul]. now rewrite A1, A2, P1, P2.
  - rewrite (response_at_finite _ _ _ _ _ _ H) by (auto; lra).
    unfold response_real. fold (pdf_real example_parameters 1 0 2.5 0).
    now rewrite A1, P1.
  - rewrite (response_at_finite _ _ _ _ _ _ H) by (auto; lra).
    unfold response_real. fold (pdf_real example_parameters 1 0 2.5 (PI / 2)).
    now rewrite A2, P2.
  - pose proof (exp_pos (-2)). lra.
  - assert (exp (-2) < 1); [|lra]. rewrite <- exp_0. apply exp_increasing. lra.
Qed.

(** A scalar orientation with eccentricities and retinotopic angles of
    different lengths: [preferred_period] builds the grid, [evaluate] raises. *)
Lemma evaluate_raises_on_two_vectors self m a e1 e2 e3 v1 v2 :
  evaluate self (T0 m) (T0 a) (T1 [e1; e2; e3]) (T1 [v1; v2]) = Raise ShapeError
  /\ preferred_period self (T0 a) (T1 [e1; e2; e3]) (T1 [v1; v2])
     = Ok (T2 [[preferred_period_at self a e1 v1; preferred_period_at self a e2 v1;
                preferred_period_at self a e3 v1];
               [preferred_period_at self a e1 v2; preferred_period_at self a e2 v2;
                preferred_period_at self a e3 v2]]).
Proof. split; reflexivity. Qed.

(** C7, at inputs where the code departs from it.  With [sf_angle] and
    [vox_ecc] of length 3 and [vox_angle] of length 1, three vectors that do
    not all share a shape, [preferred_period] and [evaluate] return a value;
    with [vox_angle] of length 2 the exception raised is the shape error of the
    subtraction, not the usage error. *)
Theorem three_vectors_accepted self m a1 a2 a3 e1 e2 e3 v w1 w2 :
  preferred_period self (T1 [a1; a2; a3]) (T1 [e1; e2; e3]) (T1 [v])
  = Ok (T1 [preferred_period_at self a1 e1 v; preferred_period_at self a2 e2 v;
            preferred_period_at self a3 e3 v])
  /\ (exists out,
        evaluate self (T0 m) (T1 [a1; a2; a3]) (T1 [e1; e2; e3]) (T1 [v]) = Ok out)
  /\ preferred_period self (T1 [a1; a2; a3]) (T1 [e1; e2; e3]) (T1 [w1; w2])
     = Raise ShapeError.
Proof. split; [reflexivity | split; [eexists; reflexivity | reflexivity]]. Qed.

End ModelFacts.

(* ================================================================= *)
(** * The loss *)

Module LossFacts.
Import Loss LossTerms.

(** ** Finite values *)

Lemma fsum_lift l : fsum (lift l) = Fin (Rsum l).
Proof. induction l; simpl; auto. unfold fsum, lift in *. simpl. now rewrite IHl. Qed.

Lemma map_fsquare_lift l : map fsquare (lift l) = lift (map (fun x => x * x) l).
Proof. unfold lift. rewrite !map_map. reflexivity. Qed.

Lemma sumsq_nonneg l : 0 <= sumsq l.
Proof.
  unfold sumsq. induction l; simpl; [lra|]. pose proof (Rle_0_sqr a) as H.
  unfold Rsqr in H. unfold Rsum in *. lra.
Qed.

Lemma fnorm_lift l : fnorm (lift l) = Fin (Rnorm l).
Proof.
  unfold fnorm. rewrite map_fsquare_lift, fsum_lift. unfold fsqrt.
  fold (sumsq l). destruct (Rlt_dec (sumsq l) 0) as [H|H]; [|reflexivity].
  pose proof (sumsq_nonneg l). lra.
Qed.

Lemma Rnorm_nonzero l : sumsq l <> 0 -> Rnorm l <> 0.
Proof.
  intros H E. unfold Rnorm in E. apply sqrt_eq_0 in E; auto using sumsq_nonneg.
Qed.

Lemma fmean_lift l : l <> [] -> fmean (lift l) = Fin (Rmean l).
Proof.
  intros H. unfold fmean. rewrite fsum_lift. unfold lift. rewrite length_map.
  unfold fdiv. destruct (Req_dec_T (INR (length l)) 0) as [E|E]; [|reflexivity].
  apply INR_eq with (m := 0%nat) in E. destruct l; [congruence | discriminate].
Qed.

Lemma fdiv_fin x y : y <> 0 -> fdiv (Fin x) (Fin y) = Fin (x / y).
Proof. intros H. unfold fdiv. destruct (Req_dec_T y 0); [contradiction | reflexivity]. Qed.

(** Broadcasting a row against a single value. *)
Lemma broadcast1_right f (xs : list fp) (y : fp) :
  broadcast1 f xs [y] = Ok (map (fun x => f x y) xs).
Proof.
  unfold broadcast1, broadcast.
  assert (M : forall l, map_right (lift2 f) l y = Ok (map (fun x => f x y) l)).
  { induction l; cbn [map_right map]; auto. unfold lift2 at 1. cbn [bind].
    now rewrite IHl. }
  destruct xs as [|x [|x' xs]]; cbn [length Nat.eqb zip_with map]; auto.
Qed.

Lemma broadcast1_left f (x : fp) (ys : list fp) :
  broadcast1 f [x] ys = Ok (map (f x) ys).
Proof.
  unfold broadcast1, broadcast.
  assert (M : forall l, map_left (lift2 f) x l = Ok (map (f x) l)).
  { induction l; cbn [map_left map]; auto. unfold lift2 at 1. cbn [bind].
    now rewrite IHl. }
  destruct ys as [|y [|y' ys]]; cbn [length Nat.eqb zip_with map]; auto.
Qed.

Lemma zip_with_map {X A B C : Type} (h : A -> B -> result C)
    (f : X -> A) (g : X -> B) (k : X -> C) (l : list X) :
  (forall x, In x l -> h (f x) (g x) = Ok (k x)) ->
  zip_with h (map f l) (map g l) = Ok (map k l).
Proof.
  induction l as [|x l IH]; intros H; simpl; auto.
  rewrite (H x) by (now left). cbn [bind].
  rewrite IH by (intros; apply H; now right). reflexivity.
Qed.

Lemma broadcast_map {X A B C : Type} (h : A -> B -> result C)
    (f : X -> A) (g : X -> B) (k : X -> C) (l : list X) :
  (forall x, In x l -> h (f x) (g x) = Ok (k x)) ->
  broadcast h (map f l) (map g l) = Ok (map k l).
Proof.
  intros H. unfold broadcast. rewrite !length_map, Nat.eqb_refl.
  now apply zip_with_map.
Qed.

Lemma broadcast1_lift (f : fp -> fp -> fp) (F : R -> R -> R) x y :
  (forall a b, f (Fin a) (Fin b) = Fin (F a b)) ->
  length x = length y ->
  broadcast1 f (lift x) (lift y)
  = Ok (lift (map (fun p => F (fst p) (snd p)) (combine x y))).
Proof.
  intros Hf Hlen. unfold broadcast1, broadcast, lift.
  rewrite !length_map, Hlen, Nat.eqb_refl.
  revert y Hlen. induction x as [|a x IH]; intros [|b y] Hlen; try discriminate;
    cbn [zip_with map combine]; auto.
  unfold lift2 at 1. cbn [bind]. rewrite IH by (simpl in Hlen; lia).
  cbn [bind fst snd]. now rewrite Hf.
Qed.

Lemma guard_quiet b :
  Forall (fun v => sumsq (preds v) <> 0) b ->
  contains_zero (norm_last (rows preds b)) = false.
Proof.
  unfold contains_zero, rows, norm_last, elements. rewrite map_map.
  induction 1 as [|v b Hv _ IH]; cbn [map concat app existsb]; auto.
  rewrite IH, orb_false_r, fnorm_lift. unfold is_zero.
  destruct (Req_dec_T (Rnorm (preds v)) 0) as [E|E]; auto.
  now apply Rnorm_nonzero in E.
Qed.

Lemma divide_by_norm x n :
  sumsq n <> 0 ->
  broadcast1 fdiv (lift x) [fnorm (lift n)] = Ok (lift (normed x n)).
Proof.
  intros H. rewrite broadcast1_right, fnorm_lift. f_equal.
  unfold lift, normed. rewrite !map_map. apply map_ext. intros a.
  apply fdiv_fin. now apply Rnorm_nonzero.
Qed.

Lemma concat_lift {X : Type} (k : X -> list R) (l : list X) :
  concat (map (fun v => lift (k v)) l) = lift (concat (map k l)).
Proof.
  unfold lift. induction l; simpl; auto. now rewrite map_app, IHl.
Qed.

Lemma regular_nonempty c v : regular c v -> (0 < c)%nat.
Proof.
  intros (Hp & _ & _ & Hs & _). destruct (preds v) eqn:E.
  - exfalso. apply Hs. reflexivity.
  - simpl in Hp. lia.
Qed.

Lemma length_squared_error c v : regular c v -> length (squared_error v) = c.
Proof.
  intros (Hp & Ht & _). unfold squared_error, normed.
  rewrite length_map, length_combine, !length_map. lia.
Qed.

Lemma loss_batch (c : nat) (b : list responses) :
  b <> [] -> Forall (regular c) b ->
  weighted_normed_loss (rows preds b) (rows targ b) (rows prec b)
    (Some (rows preds_for_norm b)) (Some (rows targ_for_norm b))
  = Ok (Fin (batch_loss b)).
Proof.
  intros Hne Hreg. unfold weighted_normed_loss.
  rewrite guard_quiet
    by (eapply Forall_impl; [|exact Hreg]; intros v H; apply H).
  cbn [bind]. rewrite Forall_forall in Hreg.
  (* the normalized predictions and targets *)
  unfold rbin, rows, norm_last. cbn [bind tbin]. rewrite !map_map.
  unfold broadcast2.
  rewrite (broadcast_map (broadcast1 fdiv) _ _
             (fun v => lift (normed (preds v) (preds_for_norm v))))
    by (intros v Hv; apply divide_by_norm, (Hreg v Hv)).
  cbn [bind].
  rewrite (broadcast_map (broadcast1 fdiv) _ _
             (fun v => lift (normed (targ v) (targ_for_norm v))))
    by (intros v Hv; apply divide_by_norm, (Hreg v Hv)).
  cbn [bind].
  (* their squared difference *)
  unfold rmap. cbn [bind tbin]. unfold broadcast2.
  rewrite (broadcast_map (broadcast1 fsub) _ _
             (fun v => lift (map (fun p => fst p - snd p)
                               (combine (normed (preds v) (preds_for_norm v))
                                        (normed (targ v) (targ_for_norm v))))))
    by (intros v Hv; apply broadcast1_lift; [reflexivity|];
        unfold normed; rewrite !length_map;
        destruct (Hreg v Hv) as (-> & -> & _); reflexivity).
  cbn [bind tmap]. rewrite map_map.
  (* weighted by the mean precision *)
  unfold mean_last. rewrite map_map. cbn [tbin]. unfold broadcast2.
  rewrite (broadcast_map (broadcast1 fmul) _ _
             (fun v => lift (squared_error v))).
  2:{ intros v Hv. destruct (Hreg v Hv) as (_ & _ & Hw & _).
      rewrite fmean_lift by assumption. rewrite broadcast1_left. f_equal.
      unfold squared_error, lift. rewrite !map_map. apply map_ext.
      intros [x y]. reflexivity. }
  cbn [bind]. unfold mean_all, elements. rewrite concat_lift.
  rewrite fmean_lift; [reflexivity|].
  destruct b as [|v b]; [congruence|]. cbn [map concat].
  pose proof (length_squared_error c v (Hreg v (or_introl eq_refl))) as L.
  pose proof (regular_nonempty c v (Hreg v (or_introl eq_refl))).
  destruct (squared_error v); [simpl in L; lia | discriminate].
Qed.

Lemma broadcast2_single f (u v : list fp) :
  broadcast2 f [u] [v] = (r <- broadcast1 f u v ;; Ok [r]).
Proof.
  unfold broadcast2, broadcast. cbn [length Nat.eqb zip_with].
  destruct (broadcast1 f u v); reflexivity.
Qed.

(** A single voxel's vectors give the loss of the batch made of that voxel. *)
Lemma loss_vector_as_batch (p t w : list fp) :
  weighted_normed_loss (T1 p) (T1 t) (T1 w) None None
  = weighted_normed_loss (T2 [p]) (T2 [t]) (T2 [w]) None None.
Proof.
  unfold weighted_normed_loss.
  change (contains_zero (norm_last (T2 [p]))) with (contains_zero (norm_last (T1 p))).
  destruct (contains_zero (norm_last (T1 p))); unfold rbin, rmap, num;
    repeat first
      [ progress cbn [bind norm_last mean_last tmap map tbin]
      | rewrite broadcast2_single
      | match goal with
        | |- context [broadcast1 ?f ?x ?y] => destruct (broadcast1 f x y) eqn:?
        end ];
    try reflexivity;
    unfold mean_all, elements; cbn [concat]; now rewrite ?app_nil_r.
Qed.

Lemma loss_default (P T W : tensor) :
  contains_zero (norm_last P) = false ->
  weighted_normed_loss P T W None None
  = weighted_normed_loss P T W (Some P) (Some T).
Proof. intros H. unfold weighted_normed_loss. rewrite H. reflexivity. Qed.

Lemma loss_vector c (p t w : list R) :
  regular c (own p t w) ->
  weighted_normed_loss (T1 (lift p)) (T1 (lift t)) (T1 (lift w)) None None
  = Ok (Fin (batch_loss [own p t w])).
Proof.
  intros H. rewrite loss_vector_as_batch.
  rewrite loss_default.
  - apply (loss_batch c [own p t w]); [discriminate | now constructor].
  - apply (guard_quiet [own p t w]). constructor; [apply H | constructor].
Qed.

Lemma Rsum_nonneg l : Forall (fun x => 0 <= x) l -> 0 <= Rsum l.
Proof. induction 1; simpl; unfold Rsum in *; simpl; lra. Qed.

Lemma Rmean_nonneg l : Forall (fun x => 0 <= x) l -> 0 <= Rmean l.
Proof.
  intros H. unfold Rmean, Rdiv. apply Rmult_le_pos; [now apply Rsum_nonneg|].
  destruct l; simpl length.
  - simpl. rewrite Rinv_0. lra.
  - left. apply Rinv_0_lt_compat, lt_0_INR. lia.
Qed.

Lemma batch_loss_nonneg b :
  Forall (fun v => 0 <= Rmean (prec v)) b -> 0 <= batch_loss b.
Proof.
  intros H. unfold batch_loss. apply Rmean_nonneg.
  apply Forall_concat, Forall_map. eapply Forall_impl; [|exact H].
  intros v Hv. unfold squared_error. apply Forall_map, Forall_forall.
  intros [x y] _. cbn [fst snd]. apply Rmult_le_pos; [assumption|].
  apply Rle_0_sqr.
Qed.

Lemma sumsq_scale k l : sumsq (map (Rmult k) l) = k * k * sumsq l.
Proof.
  unfold sumsq, Rsum. induction l; simpl; [lra|]. rewrite IHl. lra.
Qed.

Lemma Rnorm_scale k l : 0 <= k -> Rnorm (map (Rmult k) l) = k * Rnorm l.
Proof.
  intros Hk. unfold Rnorm. rewrite sumsq_scale.
  rewrite sqrt_mult by (auto using sumsq_nonneg; nra).
  now rewrite sqrt_square.
Qed.

Lemma normed_scale k l :
  0 < k -> sumsq l <> 0 ->
  normed (map (Rmult k) l) (map (Rmult k) l) = normed l l.
Proof.
  intros Hk Hl. unfold normed. rewrite map_map, Rnorm_scale by lra.
  apply map_ext. intros a. pose proof (Rnorm_nonzero l Hl). field. split; lra.
Qed.

Lemma batch_loss_scale k p t w :
  0 < k -> sumsq p <> 0 ->
  batch_loss [own (map (Rmult k) p) t w] = batch_loss [own p t w].
Proof.
  intros Hk Hp. unfold batch_loss, squared_error. cbn [map preds targ prec
    preds_for_norm targ_for_norm own]. now rewrite normed_scale.
Qed.

Lemma Rsum_zero l : Forall (fun x => x = 0) l -> Rsum l = 0.
Proof. induction 1; unfold Rsum in *; simpl; lra. Qed.

Lemma squared_error_same p w : Forall (fun x => x = 0) (squared_error (own p p w)).
Proof.
  unfold squared_error. cbn [preds targ prec preds_for_norm targ_for_norm own].
  apply Forall_map, Forall_forall. intros [x y] Hin. cbn [fst snd].
  assert (x = y); [|subst; ring].
  revert Hin. generalize (normed p p). intros l. induction l; simpl; [tauto|].
  intros [E|H]; [congruence | auto].
Qed.

Lemma batch_loss_same (l : list (list R * list R)) :
  batch_loss (map (fun pw => own (fst pw) (fst pw) (snd pw)) l) = 0.
Proof.
  unfold batch_loss, Rmean. rewrite Rsum_zero; [unfold Rdiv; ring|].
  apply Forall_concat, Forall_map, Forall_map, Forall_forall.
  intros pw _. apply squared_error_same.
Qed.

Lemma is_zero_true r : r = 0 -> is_zero (Fin r) = true.
Proof. intros ->. unfold is_zero. destruct (Req_dec_T 0 0); congruence. Qed.

Lemma is_zero_false r : r <> 0 -> is_zero (Fin r) = false.
Proof. intros H. unfold is_zero. destruct (Req_dec_T r 0); congruence. Qed.

Lemma fdiv_zero_zero x y : x = 0 -> y = 0 -> fdiv (Fin x) (Fin y) = NaN.
Proof.
  intros -> ->. unfold fdiv, sign_case. destruct (Req_dec_T 0 0); [|congruence].
  destruct (total_order_T 0 0) as [[H|H]|H]; try reflexivity; lra.
Qed.

Lemma fsqrt_fin x : 0 <= x -> fsqrt (Fin x) = Fin (sqrt x).
Proof. intros H. unfold fsqrt. destruct (Rlt_dec x 0); [lra | reflexivity]. Qed.

Lemma fmul_nan_r a : fmul a NaN = NaN.
Proof. destruct a; reflexivity. Qed.

(** ** The [for_norm] arguments *)

(** C10.  When exactly one of [predictions_for_norm] and [target_for_norm] is
    supplied, [weighted_normed_loss] raises an exception and returns no loss,
    whatever the other arguments are. *)
Theorem for_norm_arguments_go_together (predictions target precision x : tensor) :
  (exists e, weighted_normed_loss predictions target precision (Some x) None = Raise e)
  /\ (exists e, weighted_normed_loss predictions target precision None (Some x) = Raise e).
Proof.
  unfold weighted_normed_loss, rbin, num. split.
  - destruct (contains_zero (norm_last predictions)); cbn [bind];
      repeat match goal with
        | |- context [tbin ?f ?a ?b] => destruct (tbin f a b); cbn [bind]
        end; eauto.
  - destruct (contains_zero (norm_last predictions)); cbn [bind];
      repeat match goal with
        | |- context [tbin ?f ?a ?b] => destruct (tbin f a b); cbn [bind]
        end; eauto.
Qed.

(** ** Rescaling the predictions *)

Lemma scale_tensor k p :
  (num k * Ok (T1 (lift p)))%torch = Ok (T1 (lift (map (Rmult k) p))).
Proof.
  unfold rbin, num. cbn [bind tbin]. unfold lift. now rewrite !map_map.
Qed.

(** Without rounding, the loss of finite vectors of non-zero norm does not
    change when the predictions are multiplied by a positive number. *)
Lemma scale_invariance_exact (k : R) (p t w : list R) :
  0 < k -> length p = length t -> w <> [] ->
  sumsq p <> 0 -> sumsq t <> 0 ->
  exists scaled loss,
    (num k * Ok (T1 (lift p)))%torch = Ok scaled
    /\ weighted_normed_loss scaled (T1 (lift t)) (T1 (lift w)) None None
       = Ok (Fin loss)
    /\ weighted_normed_loss (T1 (lift p)) (T1 (lift t)) (T1 (lift w)) None None
       = Ok (Fin loss).
Proof.
  intros Hk Hlen Hw Hp Ht.
  exists (T1 (lift (map (Rmult k) p))), (batch_loss [own p t w]).
  split; [apply scale_tensor|]. split.
  - rewrite <- (batch_loss_scale k) by assumption.
    apply loss_vector with (c := length t). unfold regular.
    cbn [preds targ prec preds_for_norm targ_for_norm own].
    assert (Hkp : k * k * sumsq p <> 0)
      by (intros E; apply Hp; apply Rmult_integral in E; destruct E; [nra | assumption]).
    rewrite length_map, sumsq_scale. repeat split; auto.
  - apply loss_vector with (c := length t). unfold regular.
    cbn [preds targ prec preds_for_norm targ_for_norm own].
    repeat split; auto.
Qed.

Lemma zero_predictions_nan :
  weighted_normed_loss (T1 [Fin 0]) (T1 [Fin 1]) (T1 [Fin 1]) None None = Ok NaN.
Proof.
  unfold weighted_normed_loss.
  assert (N0 : forall x, x = 0 -> fnorm [Fin x] = Fin 0).
  { intros x ->. unfold fnorm. cbn [map fsum fold_right fsquare fmul fadd].
    rewrite fsqrt_fin by lra. f_equal. replace (0 * 0 + 0) with 0 by lra. apply sqrt_0. }
  cbn [norm_last contains_zero elements existsb]. rewrite (N0 0 eq_refl).
  rewrite is_zero_true by reflexivity. cbn [orb].
  unfold rbin, rmap, num. cbn [bind tbin map fmul norm_last].
  rewrite (N0 (0 * 1e100)) by lra.
  unfold broadcast1, broadcast. cbn [length Nat.eqb zip_with]. unfold lift2. cbn [bind].
  rewrite fdiv_zero_zero by lra.
  cbn [tbin]. unfold broadcast1, broadcast. cbn [length Nat.eqb zip_with]. unfold lift2. cbn [bind].
  cbn [tmap map mean_last tbin]. unfold broadcast1, broadcast.
  cbn [length Nat.eqb zip_with]. unfold lift2. cbn [bind].
  unfold mean_all, elements, fmean. cbn [fsum fold_right length].
  replace (fsquare (fsub NaN (fdiv (Fin 1) (fnorm [Fin 1])))) with NaN by reflexivity.
  rewrite fmul_nan_r. reflexivity.
Qed.

Lemma negative_precision_negative_loss :
  weighted_normed_loss (T1 [Fin 1; Fin 0]) (T1 [Fin 0; Fin 1])
    (T1 [Fin (-1); Fin (-1)]) None None = Ok (Fin (-1)).
Proof.
  change (weighted_normed_loss (T1 (lift [1; 0])) (T1 (lift [0; 1]))
            (T1 (lift [-1; -1])) None None = Ok (Fin (-1))).
  assert (S1 : sumsq [1; 0] = 1) by (unfold sumsq, Rsum; simpl; lra).
  assert (S2 : sumsq [0; 1] = 1) by (unfold sumsq, Rsum; simpl; lra).
  rewrite (loss_vector 2).
  - do 2 f_equal. unfold batch_loss. cbn [map concat].
    unfold squared_error, normed, Rnorm.
    cbn [own preds targ prec preds_for_norm targ_for_norm].
    rewrite S1, S2, sqrt_1. unfold Rmean, Rsum. simpl. lra.
  - unfold regular. cbn [own preds targ prec preds_for_norm targ_for_norm].
    rewrite S1, S2. repeat split; try reflexivity; try discriminate; lra.
Qed.

(** ** Predictions equal to the target *)

(** For the all-zero vector the loss of the predictions against themselves
    is NaN. *)
Lemma zero_vector_identity_nan :
  weighted_normed_loss (T1 [Fin 0]) (T1 [Fin 0]) (T1 [Fin 1]) None None = Ok NaN.
Proof.
  unfold weighted_normed_loss.
  assert (N0 : forall x, x = 0 -> fnorm [Fin x] = Fin 0).
  { intros x ->. unfold fnorm. cbn [map fsum fold_right fsquare fmul fadd].
    rewrite fsqrt_fin by lra. f_equal. replace (0 * 0 + 0) with 0 by lra. apply sqrt_0. }
  cbn [norm_last contains_zero elements existsb]. rewrite (N0 0 eq_refl).
  rewrite is_zero_true by reflexivity. cbn [orb].
  unfold rbin, rmap, num. cbn [bind tbin map fmul norm_last].
  rewrite (N0 (0 * 1e100)), (N0 0) by lra.
  unfold broadcast1, broadcast. cbn [length Nat.eqb zip_with]. unfold lift2. cbn [bind].
  rewrite !fdiv_zero_zero by lra.
  cbn [tbin]. unfold broadcast1, broadcast. cbn [length Nat.eqb zip_with]. unfold lift2. cbn [bind].
  cbn [tmap map mean_last tbin]. unfold broadcast1, broadcast.
  cbn [length Nat.eqb zip_with]. unfold lift2. cbn [bind].
  unfold mean_all, elements, fmean. cbn [fsum fold_right length].
  replace (fsquare (fsub NaN NaN)) with NaN by reflexivity.
  rewrite fmul_nan_r. reflexivity.
Qed.

Lemma rows_map (f : responses -> list R) {X} (g : X -> responses) (l : list X) :
  rows f (map g l) = T2 (map (fun x => lift (f (g x))) l).
Proof. unfold rows. now rewrite map_map. Qed.

Lemma same_batch_loss (c : nat) (l : list (list R * list R)) :
  l <> [] ->
  Forall (fun pw => length (fst pw) = c /\ sumsq (fst pw) <> 0 /\ snd pw <> []) l ->
  let predictions := T2 (map (fun pw => lift (fst pw)) l) in
  let precision := T2 (map (fun pw => lift (snd pw)) l) in
  weighted_normed_loss predictions predictions precision None None = Ok (Fin 0).
Proof.
  intros Hne Hall predictions precision.
  set (b := map (fun pw => own (fst pw) (fst pw) (snd pw)) l).
  assert (Hreg : Forall (regular c) b).
  { unfold b. apply Forall_map. eapply Forall_impl; [|exact Hall].
    intros pw (H1 & H2 & H3). unfold regular. cbn. auto 10. }
  assert (HP : predictions = rows preds b) by (unfold b; now rewrite rows_map).
  assert (HT : predictions = rows targ b) by (unfold b; now rewrite rows_map).
  assert (HW : precision = rows prec b) by (unfold b; now rewrite rows_map).
  assert (HPN : rows preds_for_norm b = rows preds b)
    by (unfold b; now rewrite !rows_map).
  assert (HTN : rows targ_for_norm b = rows targ b)
    by (unfold b; now rewrite !rows_map).
  rewrite loss_default.
  - pose proof (loss_batch c b) as L. rewrite HPN, HTN, <- HT, <- HW, <- HP in L.
    rewrite L; auto.
    + unfold b. now rewrite batch_loss_same.
    + unfold b. destruct l; [congruence | discriminate].
  - rewrite HP. apply guard_quiet. eapply Forall_impl; [|exact Hreg].
    intros v H. apply H.
Qed.

Lemma same_vector_loss (p w : list R) :
  sumsq p <> 0 -> w <> [] ->
  weighted_normed_loss (T1 (lift p)) (T1 (lift p)) (T1 (lift w)) None None
  = Ok (Fin 0).
Proof.
  intros Hp Hw.
  rewrite (loss_vector (length p)) by (unfold regular; cbn; auto 10).
  pose proof (batch_loss_same [(p, w)]) as E. cbn [map fst snd] in E.
  now rewrite E.
Qed.

End LossFacts.

(* ================================================================= *)
(** * Training and cross-validation *)

Module TrainingFacts.
Import Loss LossTerms LossFacts Dataset Training TrainingTerms.

(** ** The loss of a cross-validation step *)

Lemma sumsq_app x y : sumsq (x ++ y) = sumsq x + sumsq y.
Proof.
  unfold sumsq, Rsum. induction x; simpl; [lra|]. rewrite IHx. lra.
Qed.

Lemma combine_map {A B A' B'} (f : A -> A') (g : B -> B') l l' :
  combine (map f l) (map g l')
  = map (fun xy => (f (fst xy), g (snd xy))) (combine l l').
Proof.
  revert l'. induction l; intros [|y l']; simpl; auto. now rewrite IHl.
Qed.

Lemma squared_error_pooled v : squared_error (pooled v) = cv_squared_error v.
Proof.
  unfold squared_error, cv_squared_error, normed, Rnorm.
  cbn [pooled preds targ prec preds_for_norm targ_for_norm].
  rewrite combine_map, map_map, !sumsq_app. reflexivity.
Qed.

Lemma cat_rows (f g : cv_voxel -> list R) b :
  cat 1 (cv_rows f b) (cv_rows g b) = Ok (cv_rows (fun v => f v ++ g v) b).
Proof.
  unfold cat, cv_rows.
  rewrite (zip_with_map _ _ _ (fun v => lift (f v ++ g v))); [reflexivity|].
  intros v _. unfold lift. now rewrite map_app.
Qed.

Lemma cv_rows_pooled (f : responses -> list R) b :
  rows f (map pooled b) = cv_rows (fun v => f (pooled v)) b.
Proof. unfold rows, cv_rows. now rewrite map_map. Qed.

(** The held-out predictions and targets enter the loss through their sums of
    squares only. *)
Lemma cv_loss_sees_test_norms_only (b b' : list cv_voxel) :
  Forall2 (fun v v' =>
             train_preds v = train_preds v' /\ train_targ v = train_targ v'
             /\ train_prec v = train_prec v'
             /\ sumsq (test_preds v) = sumsq (test_preds v')
             /\ sumsq (test_targ v) = sumsq (test_targ v')) b b' ->
  cv_loss b = cv_loss b'.
Proof.
  intros H. unfold cv_loss. f_equal. f_equal.
  induction H as [|v v' b b' (E1 & E2 & E3 & E4 & E5) _ IH]; [reflexivity|].
  cbn [map]. rewrite IH. f_equal. unfold cv_squared_error.
  now rewrite E1, E2, E3, E4, E5.
Qed.

(** In a gradient step of [train_model_traintest], without rounding, with
    finite predictions and targets whose train parts have non-zero norm, the
    loss is the mean over the train classes only of the precision-weighted
    squared difference between train prediction and train target, each
    divided by the norm of the held-out and train values taken together. *)
Lemma traintest_loss_closed_form {model_t optimizer : Type}
    (forward : model_t -> tensor -> tensor -> tensor -> tensor -> result tensor)
    (adam_step : optimizer -> model_t -> (model_t -> result fp) -> optimizer * model_t)
    (model : model_t) (train_stuff test_stuff : batch)
    (c : nat) (b : list cv_voxel) :
  b <> [] -> Forall (cv_regular c) b ->
  call forward model train_stuff = Ok (cv_rows train_preds b) ->
  call forward model test_stuff = Ok (cv_rows test_preds b) ->
  b_target train_stuff = cv_rows train_targ b ->
  b_target test_stuff = cv_rows test_targ b ->
  b_precision train_stuff = cv_rows train_prec b ->
  traintest_loss forward train_stuff test_stuff model = Ok (Fin (cv_loss b))
  /\ forall opt losses,
       batch_body adam_step (traintest_loss forward train_stuff test_stuff)
                  (opt, model, losses)
       = Ok (adam_step opt model (traintest_loss forward train_stuff test_stuff),
             losses ++ [Fin (cv_loss b)]).
Proof.
  intros Hne Hreg Htrain Htest Htt Htet Hprec.
  assert (Hloss : traintest_loss forward train_stuff test_stuff model
                  = Ok (Fin (cv_loss b))).
  { unfold traintest_loss. rewrite Htrain, Htest, Htt, Htet, Hprec. cbn [bind].
    rewrite !cat_rows. cbn [bind].
    assert (L : weighted_normed_loss (cv_rows train_preds b) (cv_rows train_targ b)
                  (cv_rows train_prec b)
                  (Some (cv_rows (fun v => test_preds v ++ train_preds v) b))
                  (Some (cv_rows (fun v => test_targ v ++ train_targ v) b))
                = Ok (Fin (batch_loss (map pooled b)))).
    { pose proof (loss_batch c (map pooled b)) as L.
      rewrite !cv_rows_pooled in L. apply L.
      - destruct b; [congruence | discriminate].
      - apply Forall_map. eapply Forall_impl; [|exact Hreg].
        intros v (H1 & H2 & H3 & H4 & H5). unfold regular.
        cbn [pooled preds targ prec preds_for_norm targ_for_norm].
        rewrite !sumsq_app. repeat split; auto.
        pose proof (sumsq_nonneg (test_preds v)).
        pose proof (sumsq_nonneg (train_preds v)). lra. }
    rewrite L. do 2 f_equal. unfold batch_loss, cv_loss. rewrite map_map.
    f_equal. f_equal. apply map_ext. apply squared_error_pooled. }
  split; [exact Hloss|]. intros opt losses. unfold batch_body.
  rewrite Hloss. cbn [bind isnan isinf orb].
  destruct (adam_step opt model _). reflexivity.
Qed.

(** ** The training loop *)

Section Loop.
Context {model_t optimizer : Type}.
Variable forward : model_t -> tensor -> tensor -> tensor -> tensor -> result tensor.
Variable adam_step :
  optimizer -> model_t -> (model_t -> result fp) -> optimizer * model_t.

(** C6.  When the loss of a batch is NaN or infinite, the batch body records
    the loss in the history of the epoch and leaves the optimizer and the
    model as they were, raising nothing; the loop then goes on with the
    remaining batches from that state. *)
Theorem nonfinite_loss_skips_step (b : batch) (rest : list batch)
    (opt : optimizer) (model : model_t) (losses : list fp) (loss : fp) :
  train_loss forward b model = Ok loss ->
  isnan loss || isinf loss = true ->
  batch_body adam_step (train_loss forward b) (opt, model, losses)
  = Ok (opt, model, losses ++ [loss])
  /\ batch_loop forward adam_step (b :: rest) (opt, model, losses)
     = batch_loop forward adam_step rest (opt, model, losses ++ [loss]).
Proof.
  intros Hloss Hbad.
  assert (H : batch_body adam_step (train_loss forward b) (opt, model, losses)
              = Ok (opt, model, losses ++ [loss])).
  { unfold batch_body. rewrite Hloss. cbn [bind]. now rewrite Hbad. }
  split; [exact H|]. unfold batch_loop. cbn [for_each]. now rewrite H.
Qed.

Lemma stagnated_short h th : (length h <= 3)%nat -> stagnated h th = false.
Proof.
  intros H. unfold stagnated. destruct (Nat.ltb_spec 3 (length h)); [lia | reflexivity].
Qed.

Lemma close_means a b : 0 <= a < 1e10 -> 0 <= b < 1e10 ->
  fltb (fabs (fsub (Fin a) (Fin b))) (Fin 1e10) = true.
Proof.
  intros Ha Hb. cbn [fsub fneg fadd fabs fltb].
  destruct (Rlt_dec (Rabs (a + - b)) 1e10) as [H|H]; [reflexivity|].
  exfalso. apply H. apply Rabs_def1; lra.
Qed.

Lemma stagnated_four l1 l2 l3 l4 :
  tame l1 -> tame l2 -> tame l3 -> tame l4 ->
  stagnated [l1; l2; l3; l4] (Fin 1e10) = true.
Proof.
  intros (m1 & E1 & B1) (m2 & E2 & B2) (m3 & E3 & B3) (m4 & E4 & B4).
  unfold stagnated, from_end. cbn [length Nat.ltb Nat.leb Nat.sub nth].
  rewrite E1, E2, E3, E4. now rewrite !close_means.
Qed.

(** An epoch, or a whole training run, in which every batch loss is NaN or
    infinite: every loss is recorded, the model is never updated, the
    stagnation test never succeeds and [train_model] returns normally after
    [max_epochs] epochs. *)
Lemma nonfinite_fadd a b : isnan a || isinf a = true -> isnan (fadd a b) || isinf (fadd a b) = true.
Proof. destruct a, b; simpl; intros H; try discriminate; reflexivity. Qed.

Lemma nonfinite_mean (ls : list fp) :
  Forall (fun l => isnan l || isinf l = true) ls ->
  isnan (fmean ls) || isinf (fmean ls) = true.
Proof.
  intros H. unfold fmean. destruct H as [|l ls Hl Hls].
  - cbn [fsum fold_right length]. rewrite fdiv_zero_zero; reflexivity.
  - cbn [fsum fold_right]. pose proof (nonfinite_fadd l (fold_right fadd (Fin 0) ls) Hl) as N.
    destruct (fadd l (fold_right fadd (Fin 0) ls)); try discriminate; cbn [fdiv];
      try reflexivity; destruct (Rlt_dec _ 0); reflexivity.
Qed.

Lemma nonfinite_never_below a b th :
  isnan a || isinf a = true -> fltb (fabs (fsub a b)) th = false.
Proof. destruct a, b, th; simpl; intros H; try discriminate; reflexivity. Qed.

Lemma stagnated_nonfinite h ls th :
  Forall (fun l => isnan l || isinf l = true) ls ->
  stagnated (h ++ [ls]) th = false.
Proof.
  intros H. unfold stagnated. destruct (Nat.ltb 3 (length (h ++ [ls]))); [|reflexivity].
  cbv zeta. unfold from_end at 1. rewrite length_app. cbn [length].
  replace (length h + 1 - 1)%nat with (length h) by lia.
  rewrite nth_middle. rewrite nonfinite_never_below by now apply nonfinite_mean.
  reflexivity.
Qed.

Lemma nonfinite_epoch (batches : list batch) (opt : optimizer) (model : model_t)
    (losses : list fp) :
  Forall (fun b => exists l, train_loss forward b model = Ok l
                             /\ isnan l || isinf l = true) batches ->
  exists ls, batch_loop forward adam_step batches (opt, model, losses)
             = Ok (opt, model, losses ++ ls)
             /\ Forall (fun l => isnan l || isinf l = true) ls.
Proof.
  intros H. revert losses. induction H as [|b batches (l & Hl & Hbad) _ IH]; intros losses.
  - exists []. rewrite app_nil_r. split; [reflexivity | constructor].
  - destruct (IH (losses ++ [l])) as (ls & E & F).
    exists (l :: ls). split; [|now constructor].
    unfold batch_loop in *. cbn [for_each]. unfold batch_body at 1.
    rewrite Hl. cbn [bind]. rewrite Hbad. cbn [bind]. rewrite E.
    now rewrite <- app_assoc.
Qed.

Lemma nonfinite_epochs (batches : list batch) (th : fp) (model : model_t) :
  Forall (fun b => exists l, train_loss forward b model = Ok l
                             /\ isnan l || isinf l = true) batches ->
  forall remaining t last opt h,
  exists h',
    train_epochs forward adam_step batches th remaining t last opt model h
    = Ok (opt, model, h ++ h',
          match remaining with O => last | S r => Some (t + r)%nat end)
    /\ length h' = remaining.
Proof.
  intros H. induction remaining as [|r IH]; intros t last opt h.
  - exists []. rewrite app_nil_r. split; reflexivity.
  - cbn [train_epochs].
    destruct (nonfinite_epoch batches opt model [] H) as (ls & E & F).
    rewrite E. cbn [bind app]. rewrite stagnated_nonfinite by assumption.
    destruct (IH (S t) (Some t) opt (h ++ [ls])) as (h' & E' & L).
    exists (ls :: h'). rewrite E'. split.
    + rewrite <- app_assoc. cbn [app].
      destruct r; [replace (t + 0)%nat with t by lia
                  | replace (t + S r)%nat with (S t + r)%nat by lia]; reflexivity.
    + cbn [length]. now rewrite L.
Qed.

Lemma nonfinite_training_completes (model : model_t) (opt : optimizer)
    (dataset : FirstLevelDataset) (batches : list batch)
    (max_epochs batch_size : nat) (th : fp) :
  DataLoader dataset batch_size = Ok batches ->
  Forall (fun b => exists l, train_loss forward b model = Ok l
                             /\ isnan l || isinf l = true) batches ->
  (0 < max_epochs)%nat ->
  exists h,
    train_model forward adam_step model opt dataset max_epochs batch_size th
    = Ok (model, h, (max_epochs - 1)%nat)
    /\ length h = max_epochs.
Proof.
  intros Hdl H Hpos. unfold train_model. rewrite Hdl. cbn [bind].
  destruct (nonfinite_epochs batches th model H max_epochs 0%nat None opt [])
    as (h & E & L).
  rewrite E. cbn [bind app]. destruct max_epochs as [|r]; [lia|].
  exists h. split; [|exact L].
  replace (S r - 1)%nat with (0 + r)%nat by lia. reflexivity.
Qed.
End Loop.

Lemma nan_loss_example :
  train_loss echo (one_row_batch [0] [1] [1]) tt = Ok NaN.
Proof.
  unfold train_loss, call, echo, one_row_batch.
  cbn [bind b_sf_mag b_target b_precision].
  rewrite <- loss_vector_as_batch. exact zero_predictions_nan.
Qed.

Lemma nonfinite_loss_witness :
  batch_body no_step (train_loss echo (one_row_batch [0] [1] [1])) (tt, tt, [])
  = Ok (tt, tt, [NaN])
  /\ batch_loop echo no_step [one_row_batch [0] [1] [1]; one_row_batch [1] [1] [1]]
       (tt, tt, [])
     = batch_loop echo no_step [one_row_batch [1] [1] [1]] (tt, tt, [NaN]).
Proof.
  apply (nonfinite_loss_skips_step echo no_step (one_row_batch [0] [1] [1])
           [one_row_batch [1] [1] [1]] tt tt [] NaN).
  - exact nan_loss_example.
  - reflexivity.
Defined.

Lemma example_dataloader : DataLoader example_dataset 1 = Ok [example_batch].
Proof. reflexivity. Qed.

Lemma example_loss : train_loss echo example_batch tt = Ok (Fin 0).
Proof.
  unfold train_loss, call, echo, example_batch.
  cbn [bind b_sf_mag b_target b_precision].
  apply (same_batch_loss 1 [([1], [1])]).
  - discriminate.
  - constructor; [|constructor]. cbn [fst snd]. repeat split.
    + unfold sumsq, Rsum. simpl. lra.
    + discriminate.
Qed.

Lemma example_epoch :
  batch_loop echo no_step [example_batch] (tt, tt, []) = Ok (tt, tt, [Fin 0]).
Proof.
  unfold batch_loop. cbn [for_each]. unfold batch_body at 1.
  rewrite example_loss. reflexivity.
Qed.

Lemma example_tame : tame [Fin 0].
Proof.
  exists (0 / 1). split.
  - unfold fmean. cbn [fsum fold_right fadd length INR].
    rewrite Rplus_0_l. unfold fdiv. destruct (Req_dec_T 1 0); [lra | reflexivity].
  - lra.
Qed.

(** ** The split into train and test sets *)

Lemma filter_indexed {A B} (P : A -> bool) (g : A -> B) (l : list A) :
  map fst (filter (fun r => P (fst r)) (map (fun r => (r, g r)) l)) = filter P l.
Proof.
  induction l as [|a l IH]; simpl; auto.
  destruct (P a); simpl; now rewrite IH.
Qed.



Lemma isin_other table S c :
  isin c (other_classes table S) = true -> isin c S = false.
Proof.
  unfold isin, other_classes. intros H. apply existsb_exists in H.
  destruct H as (x & Hx & E). apply Z.eqb_eq in E. subst x.
  apply filter_In in Hx. destruct Hx as [_ Hx]. now apply negb_true_iff in Hx.
Qed.




End TrainingFacts.


(* ================================================================= *)
(** * The constructor: unknown variants, enabled parameters, warnings *)

Module ConstructionFacts.
Import LogGaussianDonut ModelTerms ModelFacts.

Lemma init_unknown_orientation (o e : string) (v : bool)
    (s sl ic amc amo rmc rmo aac aao rac rao : fp) :
  in_strings o ["relative"; "absolute"; "iso"; "full"]%string = false ->
  init o e v s sl ic amc amo rmc rmo aac aao rac rao
  = Raise (UsageError ("Don't know how to handle orientation_type " ++ o ++ "!")).
Proof. intros H. unfold init. rewrite H. reflexivity. Qed.

Lemma init_unknown_eccentricity (o e : string) (v : bool)
    (s sl ic amc amo rmc rmo aac aao rac rao : fp) :
  in_strings o ["relative"; "absolute"; "iso"; "full"]%string = true ->
  in_strings e ["scaling"; "constant"; "full"]%string = false ->
  init o e v s sl ic amc amo rmc rmo aac aao rac rao
  = Raise (UsageError ("Don't know how to handle eccentricity_type " ++ e ++ "!")).
Proof.
  intros Ho He. unfold in_strings in He. cbn [existsb] in He.
  unfold init. rewrite Ho. cbn [negb].
  destruct (String.eqb e "scaling") eqn:E1; [discriminate|].
  destruct (String.eqb e "constant") eqn:E2; [discriminate|].
  destruct (String.eqb e "full") eqn:E3; [discriminate|].
  destruct v; cbn [negb]; reflexivity.
Qed.

(** X1.  The constructor raises for an unknown variant and names the
    offending value in the message: for an orientation type other than
    relative, absolute, iso and full, whatever the other arguments are (also
    when the eccentricity type is unknown too), and otherwise for an
    eccentricity type other than scaling, constant and full. *)
Theorem unknown_variant_raises (o e : string) (v : bool)
    (s sl ic amc amo rmc rmo aac aao rac rao : fp) :
  (in_strings o ["relative"; "absolute"; "iso"; "full"]%string = false ->
   init o e v s sl ic amc amo rmc rmo aac aao rac rao
   = Raise (UsageError ("Don't know how to handle orientation_type " ++ o ++ "!")))
  /\ (in_strings o ["relative"; "absolute"; "iso"; "full"]%string = true ->
      in_strings e ["scaling"; "constant"; "full"]%string = false ->
      init o e v s sl ic amc amo rmc rmo aac aao rac rao
      = Raise (UsageError ("Don't know how to handle eccentricity_type " ++ e ++ "!"))).
Proof.
  split; [apply init_unknown_orientation | apply init_unknown_eccentricity].
Qed.

(** ** Parameters that the variant leaves enabled *)

Lemma correct_leaves msg st k k' :
  k' <> k ->
  fst (fst (correct msg st k')) k = fst (fst st) k
  /\ snd (fst (correct msg st k')) k = snd (fst st) k.
Proof.
  destruct st as [[kw tr] w]. unfold correct. intros H.
  destruct (nonzero (kw k')); cbn [fst snd]; rewrite ?set_other by assumption; auto.
Qed.

Lemma loop_leaves {X : Type} msg (g : X -> key) body k xs st :
  (forall st x, body st x = correct msg st (g x)) ->
  (forall x, In x xs -> g x <> k) ->
  fst (fst (fold_left body xs st)) k = fst (fst st) k
  /\ snd (fst (fold_left body xs st)) k = snd (fst st) k.
Proof.
  intros Hb. revert st. induction xs as [|x xs IH]; intros st H; [now split|].
  cbn [fold_left]. destruct (IH (body st x)) as [E1 E2].
  { intros y Hy. apply H. now right. }
  rewrite E1, E2, Hb. apply correct_leaves. apply H. now left.
Qed.

Lemma final_state_leaves o e v k st :
  structurally_disabled o e v k = false ->
  fst (fst (final_state o e v st)) k = fst (fst st) k
  /\ snd (fst (final_state o e v st)) k = snd (fst st) k.
Proof.
  intros Hk. unfold final_state.
  assert (Habs : fst (fst (stage_abs o st)) k = fst (fst st) k
                 /\ snd (fst (stage_abs o st)) k = snd (fst st) k).
  { unfold stage_abs. destruct (in_strings o ["relative"; "iso"]%string) eqn:E; [|now split].
    apply loop_leaves with (msg := warn_absolute o)
                           (g := fun x => OriKey abs (fst x) (snd x)).
    - now intros ? [].
    - intros [p a] _ <-. cbn [structurally_disabled fst snd] in Hk.
      rewrite E in Hk. discriminate. }
  set (st1 := stage_abs o st) in *.
  assert (Hrel : fst (fst (stage_rel o st1)) k = fst (fst st1) k
                 /\ snd (fst (stage_rel o st1)) k = snd (fst st1) k).
  { unfold stage_rel. destruct (in_strings o ["absolute"; "iso"]%string) eqn:E; [|now split].
    apply loop_leaves with (msg := warn_relative o)
                           (g := fun x => OriKey rel (fst x) (snd x)).
    - now intros ? [].
    - intros [p a] _ <-. cbn [structurally_disabled fst snd] in Hk.
      rewrite E in Hk. discriminate. }
  set (st2 := stage_rel o st1) in *.
  assert (Hamp : fst (fst (stage_amp v st2)) k = fst (fst st2) k
                 /\ snd (fst (stage_amp v st2)) k = snd (fst st2) k).
  { unfold stage_amp. destruct v; cbn [negb]; [now split|].
    apply loop_leaves with (msg := warn_amplitude)
                           (g := fun x => OriKey (fst x) amplitude (snd x)).
    - now intros ? [].
    - intros [r a] _ <-. cbn [structurally_disabled fst snd negb] in Hk.
      destruct r; rewrite orb_true_r in Hk; discriminate. }
  set (st3 := stage_amp v st2) in *.
  assert (Hecc : fst (fst (stage_ecc e st3)) k = fst (fst st3) k
                 /\ snd (fst (stage_ecc e st3)) k = snd (fst st3) k).
  { unfold stage_ecc. destruct (String.eqb e "scaling") eqn:E1.
    - apply correct_leaves. intros <-. cbn in Hk. congruence.
    - destruct (String.eqb e "constant") eqn:E2; [|now split].
      apply correct_leaves. intros <-. cbn [structurally_disabled] in Hk. congruence. }
  destruct Habs, Hrel, Hamp, Hecc. split; congruence.
Qed.

(** The fields of a constructed model that are not parameters under a key. *)
Lemma init_fields
    (orientation_type eccentricity_type : string) (vary_amplitude : bool)
    (sigma0 sf_ecc_slope0 sf_ecc_intercept0 abs_mode_cardinals0 abs_mode_obliques0
     rel_mode_cardinals0 rel_mode_obliques0 abs_amplitude_cardinals0
     abs_amplitude_obliques0 rel_amplitude_cardinals0 rel_amplitude_obliques0 : fp)
    model warned :
  init orientation_type eccentricity_type vary_amplitude
       sigma0 sf_ecc_slope0 sf_ecc_intercept0
       abs_mode_cardinals0 abs_mode_obliques0 rel_mode_cardinals0
       rel_mode_obliques0 abs_amplitude_cardinals0 abs_amplitude_obliques0
       rel_amplitude_cardinals0 rel_amplitude_obliques0 = Ok (model, warned) ->
  sigma model = _cast_as_param sigma0 true
  /\ LogGaussianDonut.orientation_type model = orientation_type
  /\ LogGaussianDonut.eccentricity_type model = eccentricity_type
  /\ LogGaussianDonut.vary_amplitude model = vary_amplitude.
Proof.
  unfold init.
  destruct (negb (in_strings orientation_type _)); [discriminate|].
  destruct vary_amplitude; cbn [negb];
    (destruct (String.eqb eccentricity_type "scaling");
     [ | destruct (String.eqb eccentricity_type "constant");
         [ | destruct (String.eqb eccentricity_type "full"); cbn [negb] ] ]);
    cbn [bind]; try discriminate;
    try match goal with
    | |- context [ match ?s with (_, _) => _ end ] => destruct s as [[kw tr] w]
    end; intros H; injection H as <- _; cbn; auto.
Qed.

Lemma correct_quiet msg st k' :
  nonzero (fst (fst st) k') = false ->
  fst (fst (correct msg st k')) = fst (fst st) /\ snd (correct msg st k') = snd st.
Proof.
  destruct st as [[kw tr] w]. unfold correct. cbn [fst snd]. intros ->. now split.
Qed.

Lemma loop_quiet {X : Type} msg (g : X -> key) body xs st :
  (forall st x, body st x = correct msg st (g x)) ->
  (forall x, In x xs -> nonzero (fst (fst st) (g x)) = false) ->
  fst (fst (fold_left body xs st)) = fst (fst st)
  /\ snd (fold_left body xs st) = snd st.
Proof.
  intros Hb. revert st. induction xs as [|x xs IH]; intros st H; [now split|].
  cbn [fold_left]. rewrite Hb.
  destruct (correct_quiet msg st (g x)) as [E1 E2]; [apply H; now left|].
  destruct (IH (correct msg st (g x))) as [E3 E4].
  { intros y Hy.
    etransitivity; [exact (f_equal (fun d => nonzero (d (g y))) E1) | apply H; now right]. }
  split; [exact (eq_trans E3 E1) | exact (eq_trans E4 E2)].
Qed.

Lemma final_state_quiet o e v st :
  (forall k, structurally_disabled o e v k = true -> nonzero (fst (fst st) k) = false) ->
  fst (fst (final_state o e v st)) = fst (fst st)
  /\ snd (final_state o e v st) = snd st.
Proof.
  intros H. unfold final_state.
  assert (step : forall st' : init_state,
             fst (fst st') = fst (fst st) ->
             forall k, structurally_disabled o e v k = true ->
                       nonzero (fst (fst st') k) = false).
  { intros st' E k Hk.
    etransitivity; [exact (f_equal (fun d => nonzero (d k)) E) | now apply H]. }
  assert (Habs : fst (fst (stage_abs o st)) = fst (fst st)
                 /\ snd (stage_abs o st) = snd st).
  { unfold stage_abs. destruct (in_strings o ["relative"; "iso"]%string) eqn:E; [|now split].
    apply loop_quiet with (msg := warn_absolute o)
                          (g := fun x => OriKey abs (fst x) (snd x)).
    - now intros ? [].
    - intros [p a] _. apply H. cbn [structurally_disabled fst snd]. now rewrite E. }
  destruct Habs as [A1 A2]. set (st1 := stage_abs o st) in *.
  assert (Hrel : fst (fst (stage_rel o st1)) = fst (fst st1)
                 /\ snd (stage_rel o st1) = snd st1).
  { unfold stage_rel. destruct (in_strings o ["absolute"; "iso"]%string) eqn:E; [|now split].
    apply loop_quiet with (msg := warn_relative o)
                          (g := fun x => OriKey rel (fst x) (snd x)).
    - now intros ? [].
    - intros [p a] _. apply (step st1 A1). cbn [structurally_disabled fst snd].
      now rewrite E. }
  destruct Hrel as [R1 R2]. set (st2 := stage_rel o st1) in *.
  pose proof (eq_trans R1 A1) as R1'. pose proof (eq_trans R2 A2) as R2'.
  assert (Hamp : fst (fst (stage_amp v st2)) = fst (fst st2)
                 /\ snd (stage_amp v st2) = snd st2).
  { unfold stage_amp. destruct v eqn:Ev; cbn [negb]; [now split|].
    apply loop_quiet with (msg := warn_amplitude)
                          (g := fun x => OriKey (fst x) amplitude (snd x)).
    - now intros ? [].
    - intros [r a] _. apply (step st2 R1'). cbn [structurally_disabled fst snd negb].
      destruct r; now rewrite orb_true_r. }
  destruct Hamp as [M1 M2]. set (st3 := stage_amp v st2) in *.
  pose proof (eq_trans M1 R1') as M1'. pose proof (eq_trans M2 R2') as M2'.
  assert (Hecc : fst (fst (stage_ecc e st3)) = fst (fst st3)
                 /\ snd (stage_ecc e st3) = snd st3).
  { unfold stage_ecc. destruct (String.eqb e "scaling") eqn:E1.
    - apply correct_quiet. apply (step st3 M1'). exact E1.
    - destruct (String.eqb e "constant") eqn:E2; [|now split].
      apply correct_quiet. apply (step st3 M1'). exact E2. }
  destruct Hecc as [C1 C2].
  split; [exact (eq_trans C1 M1') | exact (eq_trans C2 M2')].
Qed.

Section Construction.
Variables orientation_type eccentricity_type : string.
Variable vary_amplitude : bool.
Variables sigma0 sf_ecc_slope0 sf_ecc_intercept0 abs_mode_cardinals0
  abs_mode_obliques0 rel_mode_cardinals0 rel_mode_obliques0
  abs_amplitude_cardinals0 abs_amplitude_obliques0 rel_amplitude_cardinals0
  rel_amplitude_obliques0 : fp.

Local Notation "'kwargs0'" :=
  (initial_kwargs sf_ecc_slope0 sf_ecc_intercept0 abs_mode_cardinals0
     abs_mode_obliques0 rel_mode_cardinals0 rel_mode_obliques0
     abs_amplitude_cardinals0 abs_amplitude_obliques0 rel_amplitude_cardinals0
     rel_amplitude_obliques0).
Local Notation "'constructed'" :=
  (init orientation_type eccentricity_type vary_amplitude sigma0 sf_ecc_slope0
     sf_ecc_intercept0 abs_mode_cardinals0 abs_mode_obliques0 rel_mode_cardinals0
     rel_mode_obliques0 abs_amplitude_cardinals0 abs_amplitude_obliques0
     rel_amplitude_cardinals0 rel_amplitude_obliques0).

(** X2.  For a valid model variant, a parameter that the variant does not
    disable is stored with the initial value it was given, whatever that value
    is, and is trainable; [sigma] is always stored as given and trainable, and
    the model records the variant it was built for. *)
Theorem enabled_parameters_are_kept (k : key) :
  in_strings orientation_type ["relative"; "absolute"; "iso"; "full"]%string = true ->
  in_strings eccentricity_type ["scaling"; "constant"; "full"]%string = true ->
  structurally_disabled orientation_type eccentricity_type vary_amplitude k = false ->
  exists model warned,
    constructed = Ok (model, warned)
    /\ stored model k = _cast_as_param (kwargs0 k) true
    /\ sigma model = _cast_as_param sigma0 true
    /\ LogGaussianDonut.orientation_type model = orientation_type
    /\ LogGaussianDonut.eccentricity_type model = eccentricity_type
    /\ LogGaussianDonut.vary_amplitude model = vary_amplitude.
Proof.
  intros Hori Hecc Hk.
  destruct (init_stages orientation_type eccentricity_type vary_amplitude
              sigma0 sf_ecc_slope0 sf_ecc_intercept0 abs_mode_cardinals0
              abs_mode_obliques0 rel_mode_cardinals0 rel_mode_obliques0
              abs_amplitude_cardinals0 abs_amplitude_obliques0
              rel_amplitude_cardinals0 rel_amplitude_obliques0 Hori Hecc)
    as (model & Hinit & Hstored).
  cbv zeta in Hinit, Hstored.
  destruct (final_state_leaves orientation_type eccentricity_type vary_amplitude k
              (kwargs0, initial_train_kwargs, []) Hk) as [E1 E2].
  eexists model, _. split; [exact Hinit|].
  split; [rewrite Hstored, E1, E2; reflexivity|].
  exact (init_fields _ _ _ _ _ _ _ _ _ _ _ _ _ _ _ _ Hinit).
Qed.

(** X3.  For a valid model variant, the constructor issues no warning exactly
    when every parameter that the variant disables was given as 0; it then
    stores every initial value as given. *)
Theorem no_warning_iff_consistent :
  in_strings orientation_type ["relative"; "absolute"; "iso"; "full"]%string = true ->
  in_strings eccentricity_type ["scaling"; "constant"; "full"]%string = true ->
  exists model warned,
    constructed = Ok (model, warned)
    /\ (warned = [] <->
        forall k, structurally_disabled orientation_type eccentricity_type
                    vary_amplitude k = true -> nonzero (kwargs0 k) = false)
    /\ (warned = [] -> forall k, data (stored model k) = kwargs0 k).
Proof.
  intros Hori Hecc.
  destruct (init_stages orientation_type eccentricity_type vary_amplitude
              sigma0 sf_ecc_slope0 sf_ecc_intercept0 abs_mode_cardinals0
              abs_mode_obliques0 rel_mode_cardinals0 rel_mode_obliques0
              abs_amplitude_cardinals0 abs_amplitude_obliques0
              rel_amplitude_cardinals0 rel_amplitude_obliques0 Hori Hecc)
    as (model & Hinit & Hstored).
  cbv zeta in Hinit, Hstored.
  set (st := final_state orientation_type eccentricity_type vary_amplitude
               (kwargs0, initial_train_kwargs, [])) in *.
  assert (Hquiet : (forall k, structurally_disabled orientation_type eccentricity_type
                                vary_amplitude k = true -> nonzero (kwargs0 k) = false) ->
                   fst (fst st) = kwargs0 /\ snd st = []).
  { intros H. apply (final_state_quiet orientation_type eccentricity_type
                       vary_amplitude (kwargs0, initial_train_kwargs, [])). exact H. }
  assert (Hloud : snd st = [] ->
                  forall k, structurally_disabled orientation_type eccentricity_type
                              vary_amplitude k = true -> nonzero (kwargs0 k) = false).
  { intros Hw k Hk.
    destruct (final_corrected k (kwargs0 k) orientation_type eccentricity_type
                vary_amplitude (kwargs0, initial_train_kwargs, []) Hk eq_refl)
      as (_ & _ & Hwarn).
    destruct (nonzero (kwargs0 k)); [|reflexivity].
    exfalso. now apply Hwarn. }
  exists model, (snd st). split; [exact Hinit|]. split; [split|].
  - exact Hloud.
  - intros H. now apply Hquiet.
  - intros Hw k. rewrite Hstored. cbn [data].
    destruct (Hquiet (Hloud Hw)) as [E _]. now rewrite E.
Qed.
End Construction.

Lemma enabled_parameters_witness :
  exists model warned,
    init "absolute" "scaling" false (Fin 0.4) (Fin 1) (Fin 0.3) (Fin 0.5) (Fin 0)
         (Fin 0) (Fin 0) (Fin 0) (Fin 0) (Fin 0) (Fin 0) = Ok (model, warned)
    /\ abs_mode_cardinals model = _cast_as_param (Fin 0.5) true
    /\ sigma model = _cast_as_param (Fin 0.4) true.
Proof.
  destruct (enabled_parameters_are_kept "absolute" "scaling" false (Fin 0.4) (Fin 1)
              (Fin 0.3) (Fin 0.5) (Fin 0) (Fin 0) (Fin 0) (Fin 0) (Fin 0) (Fin 0)
              (Fin 0) (OriKey abs mode cardinals) eq_refl eq_refl eq_refl)
    as (model & warned & H1 & H2 & H3 & _).
  exists model, warned. auto.
Defined.

Lemma no_warning_witness :
  exists model warned,
    init "iso" "full" true (Fin 0.4) (Fin 1) (Fin 0.3) (Fin 0) (Fin 0)
         (Fin 0) (Fin 0) (Fin 0) (Fin 0) (Fin 0) (Fin 0) = Ok (model, warned)
    /\ (warned = [] <->
        forall k, structurally_disabled "iso" "full" true k = true ->
                  nonzero (initial_kwargs (Fin 1) (Fin 0.3) (Fin 0) (Fin 0) (Fin 0)
                             (Fin 0) (Fin 0) (Fin 0) (Fin 0) (Fin 0) k) = false).
Proof.
  destruct (no_warning_iff_consistent "iso" "full" true (Fin 0.4) (Fin 1) (Fin 0.3)
              (Fin 0) (Fin 0) (Fin 0) (Fin 0) (Fin 0) (Fin 0) (Fin 0) (Fin 0)
              eq_refl eq_refl) as (model & warned & H1 & H2 & _).
  exists model, warned. auto.
Defined.

Lemma unknown_variant_witness :
  init "radial" "linear" true (Fin 0.4) (Fin 1) (Fin 0) (Fin 0) (Fin 0) (Fin 0)
       (Fin 0) (Fin 0) (Fin 0) (Fin 0) (Fin 0)
  = Raise (UsageError "Don't know how to handle orientation_type radial!")
  /\ init "iso" "linear" true (Fin 0.4) (Fin 1) (Fin 0) (Fin 0) (Fin 0) (Fin 0)
       (Fin 0) (Fin 0) (Fin 0) (Fin 0) (Fin 0)
     = Raise (UsageError "Don't know how to handle eccentricity_type linear!").
Proof.
  split.
  - exact (proj1 (unknown_variant_raises "radial" "linear" true (Fin 0.4) (Fin 1)
             (Fin 0) (Fin 0) (Fin 0) (Fin 0) (Fin 0) (Fin 0) (Fin 0) (Fin 0) (Fin 0))
             eq_refl).
  - exact (proj2 (unknown_variant_raises "iso" "linear" true (Fin 0.4) (Fin 1)
             (Fin 0) (Fin 0) (Fin 0) (Fin 0) (Fin 0) (Fin 0) (Fin 0) (Fin 0) (Fin 0))
             eq_refl eq_refl).
Defined.

End ConstructionFacts.

(* ================================================================= *)
(** * The tuning curve: what the response depends on, and its range *)

Module TuningFacts.
Import LogGaussianDonut ModelTerms ModelFacts ConstructionFacts TuningTerms.

(** ** Tensors are determined by their entries *)

Lemma fits_scalar s a : is_scalar a = true -> fits s a.
Proof. destruct a; try discriminate. now destruct s. Qed.

Lemma entry_finite s a i j :
  fits s a -> in_range s i j -> all_finite a -> exists r, entry a i j = Fin r.
Proof.
  unfold all_finite. intros Hfit Hin Hall. rewrite Forall_forall in Hall.
  destruct a as [x | u | m]; cbn [elements entry] in *.
  - apply Hall. now left.
  - destruct s as [n | r c]; simpl in Hfit, Hin; [|contradiction].
    apply Hall. apply nth_In. lia.
  - destruct s as [n | r c]; simpl in Hfit, Hin; [contradiction|].
    destruct Hfit as [Hr Hc], Hin as [Hi Hj].
    assert (Hrow : In (nth i m []) m) by (apply nth_In; lia).
    apply Hall. apply in_concat. exists (nth i m []). split; [exact Hrow|].
    apply nth_In. rewrite Forall_forall in Hc. rewrite (Hc _ Hrow). exact Hj.
Qed.

Lemma tensor_ext s a b :
  fits s a -> fits s b -> is_scalar a = false -> is_scalar b = false ->
  (forall i j, in_range s i j -> entry a i j = entry b i j) -> a = b.
Proof.
  intros Ha Hb Sa Sb H.
  destruct a as [x | u | m]; [discriminate| |];
    destruct b as [y | v | n]; try discriminate;
    destruct s as [k | r c]; simpl in Ha, Hb; try contradiction.
  - f_equal. apply nth_ext with (d := NaN) (d' := NaN); [congruence|].
    intros j Hj. apply (H 0%nat j). simpl. lia.
  - destruct Ha as [Ha1 Ha2], Hb as [Hb1 Hb2]. f_equal.
    apply nth_ext with (d := []) (d' := []); [congruence|].
    intros i Hi. rewrite Forall_forall in Ha2, Hb2.
    assert (La : length (nth i m []) = c) by (apply Ha2, nth_In; lia).
    assert (Lb : length (nth i n []) = c) by (apply Hb2, nth_In; lia).
    apply nth_ext with (d := NaN) (d' := NaN); [congruence|].
    intros j Hj. apply (H i j). simpl. lia.
Qed.

(** Two computations that hold the same values at every position of the
    common shape return the same tensor. *)
Lemma pointwise_unique s d g g' r r' :
  pointwise s d g r -> pointwise s d g' r' ->
  (forall i j, in_range s i j -> g i j = g' i j) ->
  (d = true -> exists i j, in_range s i j) ->
  r = r'.
Proof.
  intros (a & -> & Fa & Sa & Ea) (b & -> & Fb & Sb & Eb) Hg Hd. f_equal.
  destruct d.
  - destruct (Hd eq_refl) as (i & j & Hij).
    destruct a as [x | |]; try discriminate. destruct b as [y | |]; try discriminate.
    f_equal. specialize (Ea i j Hij). specialize (Eb i j Hij). simpl in Ea, Eb.
    rewrite Ea, Eb. now apply Hg.
  - apply (tensor_ext s); auto. intros i j Hij. rewrite Ea, Eb by assumption.
    now apply Hg.
Qed.

Lemma evaluate_agree self self' s m m' a a' e e' v v' :
  fits s m -> fits s a -> fits s e -> fits s v ->
  fits s m' -> fits s a' -> fits s e' -> fits s v' ->
  is_scalar m = is_scalar m' -> is_scalar a = is_scalar a' ->
  is_scalar e = is_scalar e' -> is_scalar v = is_scalar v' ->
  (forall s' i j,
      fits s' m -> fits s' a -> fits s' e -> fits s' v ->
      fits s' m' -> fits s' a' -> fits s' e' -> fits s' v' ->
      in_range s' i j ->
      response_at self (entry m i j) (entry a i j) (entry e i j) (entry v i j)
      = response_at self' (entry m' i j) (entry a' i j) (entry e' i j) (entry v' i j)) ->
  evaluate self m a e v = evaluate self' m' a' e' v'.
Proof.
  intros Fm Fa Fe Fv Fm' Fa' Fe' Fv' Sm Sa Se Sv H.
  destruct (is_scalar m && is_scalar a && is_scalar e && is_scalar v) eqn:D.
  - apply andb_prop in D. destruct D as [D Dv]. apply andb_prop in D.
    destruct D as [D De]. apply andb_prop in D. destruct D as [Dm Da].
    assert (G : forall x, is_scalar x = true -> fits (Vector 1) x)
      by (intros x; apply fits_scalar).
    pose proof (evaluate_pointwise (Vector 1) self m a e v
                  (G _ Dm) (G _ Da) (G _ De) (G _ Dv)) as P1.
    pose proof (evaluate_pointwise (Vector 1) self' m' a' e' v') as P2.
    rewrite <- Sm, <- Sa, <- Se, <- Sv in P2.
    specialize (P2 (G m' ltac:(congruence)) (G a' ltac:(congruence))
                   (G e' ltac:(congruence)) (G v' ltac:(congruence))).
    eapply pointwise_unique; [exact P1 | exact P2 | |].
    + intros i j Hij. apply (H (Vector 1)); auto; apply G; congruence.
    + intros _. exists 0%nat, 0%nat. simpl. lia.
  - pose proof (evaluate_pointwise s self m a e v Fm Fa Fe Fv) as P1.
    pose proof (evaluate_pointwise s self' m' a' e' v' Fm' Fa' Fe' Fv') as P2.
    rewrite <- Sm, <- Sa, <- Se, <- Sv in P2. rewrite D in P1, P2.
    eapply pointwise_unique; [exact P1 | exact P2 | |].
    + intros i j Hij. apply (H s); auto.
    + discriminate.
Qed.

Lemma preferred_period_agree self self' s a a' e e' v v' :
  fits s a -> fits s e -> fits s v ->
  fits s a' -> fits s e' -> fits s v' ->
  is_scalar a = is_scalar a' ->
  is_scalar e = is_scalar e' -> is_scalar v = is_scalar v' ->
  (forall s' i j,
      fits s' a -> fits s' e -> fits s' v ->
      fits s' a' -> fits s' e' -> fits s' v' ->
      in_range s' i j ->
      preferred_period_at self (entry a i j) (entry e i j) (entry v i j)
      = preferred_period_at self' (entry a' i j) (entry e' i j) (entry v' i j)) ->
  preferred_period self a e v = preferred_period self' a' e' v'.
Proof.
  intros Fa Fe Fv Fa' Fe' Fv' Sa Se Sv H.
  destruct (is_scalar a && is_scalar e && is_scalar v) eqn:D.
  - apply andb_prop in D. destruct D as [D Dv]. apply andb_prop in D.
    destruct D as [Da De].
    assert (G : forall x, is_scalar x = true -> fits (Vector 1) x)
      by (intros x; apply fits_scalar).
    pose proof (preferred_period_pointwise (Vector 1) self a e v
                  (G _ Da) (G _ De) (G _ Dv)) as P1.
    pose proof (preferred_period_pointwise (Vector 1) self' a' e' v') as P2.
    rewrite <- Sa, <- Se, <- Sv in P2.
    specialize (P2 (G a' ltac:(congruence)) (G e' ltac:(congruence))
                   (G v' ltac:(congruence))).
    eapply pointwise_unique; [exact P1 | exact P2 | |].
    + intros i j Hij. apply (H (Vector 1)); auto; apply G; congruence.
    + intros _. exists 0%nat, 0%nat. simpl. lia.
  - pose proof (preferred_period_pointwise s self a e v Fa Fe Fv) as P1.
    pose proof (preferred_period_pointwise s self' a' e' v' Fa' Fe' Fv') as P2.
    rewrite <- Sa, <- Se, <- Sv in P2. rewrite D in P1, P2.
    eapply pointwise_unique; [exact P1 | exact P2 | |].
    + intros i j Hij. apply (H s); auto.
    + discriminate.
Qed.

(** ** Isotropic models *)

Section Built.
Variables orientation_type eccentricity_type : string.
Variable vary_amplitude : bool.
Variables sigma0 sf_ecc_slope0 sf_ecc_intercept0 abs_mode_cardinals0
  abs_mode_obliques0 rel_mode_cardinals0 rel_mode_obliques0
  abs_amplitude_cardinals0 abs_amplitude_obliques0 rel_amplitude_cardinals0
  rel_amplitude_obliques0 : fp.
Variable model : t.
Variable warned : list string.

Local Notation "'constructed'" :=
  (init orientation_type eccentricity_type vary_amplitude sigma0 sf_ecc_slope0
     sf_ecc_intercept0 abs_mode_cardinals0 abs_mode_obliques0 rel_mode_cardinals0
     rel_mode_obliques0 abs_amplitude_cardinals0 abs_amplitude_obliques0
     rel_amplitude_cardinals0 rel_amplitude_obliques0).

(** A model that was constructed holds 0 under every key that its variant
    disables. *)
Lemma built_disabled_zero k :
  constructed = Ok (model, warned) ->
  structurally_disabled orientation_type eccentricity_type vary_amplitude k = true ->
  data (stored model k) = Fin 0.
Proof.
  intros Hinit Hk.
  destruct (in_strings orientation_type
              ["relative"; "absolute"; "iso"; "full"]%string) eqn:Hori;
    [|rewrite init_unknown_orientation in Hinit by assumption; discriminate].
  destruct (in_strings eccentricity_type
              ["scaling"; "constant"; "full"]%string) eqn:Hecc;
    [|rewrite init_unknown_eccentricity in Hinit by assumption; discriminate].
  destruct (init_stages orientation_type eccentricity_type vary_amplitude
              sigma0 sf_ecc_slope0 sf_ecc_intercept0 abs_mode_cardinals0
              abs_mode_obliques0 rel_mode_cardinals0 rel_mode_obliques0
              abs_amplitude_cardinals0 abs_amplitude_obliques0
              rel_amplitude_cardinals0 rel_amplitude_obliques0 Hori Hecc)
    as (model' & Hinit' & Hstored).
  cbv zeta in Hinit', Hstored. rewrite Hinit in Hinit'.
  injection Hinit' as <- _. rewrite Hstored. cbn [data].
  eapply final_corrected with (v0 := initial_kwargs sf_ecc_slope0 sf_ecc_intercept0
     abs_mode_cardinals0 abs_mode_obliques0 rel_mode_cardinals0 rel_mode_obliques0
     abs_amplitude_cardinals0 abs_amplitude_obliques0 rel_amplitude_cardinals0
     rel_amplitude_obliques0 k); [exact Hk | reflexivity].
Qed.
End Built.

Lemma iso_response self m a a' e v v' :
  (forall o p ang, data (stored self (OriKey o p ang)) = Fin 0) ->
  response_at self m (Fin a) e (Fin v) = response_at self m (Fin a') e (Fin v').
Proof.
  intros Z.
  pose proof (Z abs mode cardinals) as Z1. pose proof (Z abs mode obliques) as Z2.
  pose proof (Z rel mode cardinals) as Z3. pose proof (Z rel mode obliques) as Z4.
  pose proof (Z abs amplitude cardinals) as Z5. pose proof (Z abs amplitude obliques) as Z6.
  pose proof (Z rel amplitude cardinals) as Z7. pose proof (Z rel amplitude obliques) as Z8.
  cbn [stored] in *.
  assert (O : forall x y, orientation_effect self (Fin x) (Fin y) = Fin 1).
  { intros x y. unfold orientation_effect. rewrite Z1, Z2, Z3, Z4.
    cbn [fmul fcos fadd fsub fneg]. f_equal. ring. }
  assert (A : forall x y, amplitude_at self (Fin x) (Fin y) = Fin (Rmax 1 1e-6)).
  { intros x y. unfold amplitude_at. rewrite Z5, Z6, Z7, Z8.
    cbn [fmul fcos fadd fsub fneg fclamp_min]. do 2 f_equal. ring. }
  unfold response_at, pdf_at, preferred_period_at. now rewrite !O, !A.
Qed.

Lemma within_finite bound a : within bound a -> all_finite a.
Proof.
  unfold within, all_finite. apply Forall_impl. intros x (r & -> & _). now exists r.
Qed.

(** X4.  An isotropic model, built by the constructor from any initial
    values, gives the same predictions for all orientations: on inputs of one
    common shape, [evaluate] returns the same tensor whatever the stimulus
    orientations and retinotopic angles are, these being finite and at most
    [1e300] in magnitude (no multiple of an angle or of a difference of two
    angles that the code forms is then out of the range of float64). *)
Theorem iso_model_ignores_orientation
    (eccentricity_type : string) (vary_amplitude : bool)
    (sigma0 sf_ecc_slope0 sf_ecc_intercept0 abs_mode_cardinals0 abs_mode_obliques0
     rel_mode_cardinals0 rel_mode_obliques0 abs_amplitude_cardinals0
     abs_amplitude_obliques0 rel_amplitude_cardinals0 rel_amplitude_obliques0 : fp)
    (model : t) (warned : list string) (s : common_shape)
    (sf_mag sf_angle sf_angle' vox_ecc vox_angle vox_angle' : tensor) :
  init "iso" eccentricity_type vary_amplitude sigma0 sf_ecc_slope0
       sf_ecc_intercept0 abs_mode_cardinals0 abs_mode_obliques0 rel_mode_cardinals0
       rel_mode_obliques0 abs_amplitude_cardinals0 abs_amplitude_obliques0
       rel_amplitude_cardinals0 rel_amplitude_obliques0 = Ok (model, warned) ->
  fits s sf_mag -> fits s vox_ecc ->
  fits s sf_angle -> fits s sf_angle' -> fits s vox_angle -> fits s vox_angle' ->
  is_scalar sf_angle = is_scalar sf_angle' ->
  is_scalar vox_angle = is_scalar vox_angle' ->
  within 1e300 sf_angle -> within 1e300 sf_angle' ->
  within 1e300 vox_angle -> within 1e300 vox_angle' ->
  evaluate model sf_mag sf_angle vox_ecc vox_angle
  = evaluate model sf_mag sf_angle' vox_ecc vox_angle'.
Proof.
  intros Hinit Fm Fe Fa Fa' Fv Fv' Sa Sv Aa Aa' Av Av'.
  apply within_finite in Aa, Aa', Av, Av'.
  apply (evaluate_agree model model s); auto.
  intros s' i j _ Ga _ Gv _ Ga' _ Gv' Hij.
  destruct (entry_finite s' _ i j Ga Hij Aa) as (x & ->).
  destruct (entry_finite s' _ i j Ga' Hij Aa') as (x' & ->).
  destruct (entry_finite s' _ i j Gv Hij Av) as (y & ->).
  destruct (entry_finite s' _ i j Gv' Hij Av') as (y' & ->).
  apply iso_response. intros o p ang.
  apply (built_disabled_zero "iso" eccentricity_type vary_amplitude sigma0
           sf_ecc_slope0 sf_ecc_intercept0 abs_mode_cardinals0 abs_mode_obliques0
           rel_mode_cardinals0 rel_mode_obliques0 abs_amplitude_cardinals0
           abs_amplitude_obliques0 rel_amplitude_cardinals0 rel_amplitude_obliques0
           model warned _ Hinit).
  destruct o; reflexivity.
Qed.

Lemma iso_witness :
  exists model warned,
    example_variant "iso" "full" true = Ok (model, warned)
    /\ evaluate model (T1 [Fin 1; Fin 2]) (T1 [Fin 0; Fin 1]) (T0 (Fin 3)) (T0 (Fin 0))
       = evaluate model (T1 [Fin 1; Fin 2]) (T1 [Fin 2; Fin 3]) (T0 (Fin 3)) (T0 (Fin 1)).
Proof.
  destruct (init_stages "iso" "full" true (Fin 1) (Fin 1) (Fin 0) (Fin 0) (Fin 0)
              (Fin 0.6) (Fin 0) (Fin 0) (Fin 0) (Fin 0.5) (Fin 0) eq_refl eq_refl)
    as (model & Hinit & _).
  exists model. eexists. split; [exact Hinit|].
  apply (iso_model_ignores_orientation "full" true (Fin 1) (Fin 1) (Fin 0) (Fin 0)
           (Fin 0) (Fin 0.6) (Fin 0) (Fin 0) (Fin 0) (Fin 0.5) (Fin 0) model _
           (Vector 2) _ _ _ _ _ _ Hinit);
    simpl; auto; repeat constructor; eexists; (split; [reflexivity | lra]).
Defined.

(** ** Models of constant preferred period *)

Lemma constant_period self a e e' v :
  data (sf_ecc_slope self) = Fin 0 ->
  preferred_period_at self a (Fin e) v = preferred_period_at self a (Fin e') v.
Proof.
  intros Z. unfold preferred_period_at, eccentricity_effect. rewrite Z.
  cbn [fmul]. replace (0 * e) with 0 by ring. now replace (0 * e') with 0 by ring.
Qed.

(** X5.  In a model of eccentricity type [constant], built by the constructor
    from any initial values, the preferred period and the response do not
    change with the (finite) eccentricity of the voxel. *)
Theorem constant_model_ignores_eccentricity
    (orientation_type : string) (vary_amplitude : bool)
    (sigma0 sf_ecc_slope0 sf_ecc_intercept0 abs_mode_cardinals0 abs_mode_obliques0
     rel_mode_cardinals0 rel_mode_obliques0 abs_amplitude_cardinals0
     abs_amplitude_obliques0 rel_amplitude_cardinals0 rel_amplitude_obliques0 : fp)
    (model : t) (warned : list string) (s : common_shape)
    (sf_mag sf_angle vox_ecc vox_ecc' vox_angle : tensor) :
  init orientation_type "constant" vary_amplitude sigma0 sf_ecc_slope0
       sf_ecc_intercept0 abs_mode_cardinals0 abs_mode_obliques0 rel_mode_cardinals0
       rel_mode_obliques0 abs_amplitude_cardinals0 abs_amplitude_obliques0
       rel_amplitude_cardinals0 rel_amplitude_obliques0 = Ok (model, warned) ->
  fits s sf_mag -> fits s sf_angle -> fits s vox_angle ->
  fits s vox_ecc -> fits s vox_ecc' ->
  is_scalar vox_ecc = is_scalar vox_ecc' ->
  all_finite vox_ecc -> all_finite vox_ecc' ->
  preferred_period model sf_angle vox_ecc vox_angle
  = preferred_period model sf_angle vox_ecc' vox_angle
  /\ evaluate model sf_mag sf_angle vox_ecc vox_angle
     = evaluate model sf_mag sf_angle vox_ecc' vox_angle.
Proof.
  intros Hinit Fm Fa Fv Fe Fe' Se Ae Ae'.
  assert (Z : data (sf_ecc_slope model) = Fin 0).
  { apply (built_disabled_zero orientation_type "constant" vary_amplitude sigma0
             sf_ecc_slope0 sf_ecc_intercept0 abs_mode_cardinals0 abs_mode_obliques0
             rel_mode_cardinals0 rel_mode_obliques0 abs_amplitude_cardinals0
             abs_amplitude_obliques0 rel_amplitude_cardinals0 rel_amplitude_obliques0
             model warned (EccKey slope) Hinit). reflexivity. }
  split.
  - apply (preferred_period_agree model model s); auto.
    intros s' i j _ Ge _ _ Ge' _ Hij.
    destruct (entry_finite s' _ i j Ge Hij Ae) as (x & ->).
    destruct (entry_finite s' _ i j Ge' Hij Ae') as (x' & ->).
    now apply constant_period.
  - apply (evaluate_agree model model s); auto.
    intros s' i j _ _ Ge _ _ _ Ge' _ Hij.
    destruct (entry_finite s' _ i j Ge Hij Ae) as (x & ->).
    destruct (entry_finite s' _ i j Ge' Hij Ae') as (x' & ->).
    unfold response_at, pdf_at. now rewrite (constant_period model _ x x').
Qed.

Lemma constant_witness :
  exists model warned,
    example_variant "full" "constant" true = Ok (model, warned)
    /\ preferred_period model (T0 (Fin 0)) (T1 [Fin 1; Fin 2]) (T0 (Fin 0))
       = preferred_period model (T0 (Fin 0)) (T1 [Fin 5; Fin 9]) (T0 (Fin 0))
    /\ evaluate model (T0 (Fin 1)) (T0 (Fin 0)) (T1 [Fin 1; Fin 2]) (T0 (Fin 0))
       = evaluate model (T0 (Fin 1)) (T0 (Fin 0)) (T1 [Fin 5; Fin 9]) (T0 (Fin 0)).
Proof.
  destruct (init_stages "full" "constant" true (Fin 1) (Fin 1) (Fin 0) (Fin 0) (Fin 0)
              (Fin 0.6) (Fin 0) (Fin 0) (Fin 0) (Fin 0.5) (Fin 0) eq_refl eq_refl)
    as (model & Hinit & _).
  exists model. eexists. split; [exact Hinit|].
  apply (constant_model_ignores_eccentricity "full" true (Fin 1) (Fin 1) (Fin 0)
           (Fin 0) (Fin 0) (Fin 0.6) (Fin 0) (Fin 0) (Fin 0) (Fin 0.5) (Fin 0) model _
           (Vector 2) _ _ _ _ _ Hinit);
    simpl; auto; repeat constructor; eexists; reflexivity.
Defined.

(** ** The floors of the period and of the amplitude *)

Lemma clamp_floor lo x : fltb (fclamp_min lo x) (Fin lo) = false.
Proof.
  destruct x as [r | | |]; cbn [fclamp_min fltb]; try reflexivity.
  - destruct (Rlt_dec (Rmax r lo) lo) as [H|H]; [|reflexivity].
    pose proof (Rmax_r r lo). lra.
  - destruct (Rlt_dec lo lo); [lra | reflexivity].
Qed.

Lemma reciprocal_of_clamped x :
  fltb (fdiv (Fin 1) (fclamp_min 1e-6 x)) (Fin 0) = false
  /\ fltb (Fin 1e6) (fdiv (Fin 1) (fclamp_min 1e-6 x)) = false.
Proof.
  assert (F : forall p, 1e-6 <= p ->
                fltb (fdiv (Fin 1) (Fin p)) (Fin 0) = false
                /\ fltb (Fin 1e6) (fdiv (Fin 1) (Fin p)) = false).
  { intros p Hp. rewrite fdiv_finite by lra. cbn [fltb].
    assert (P : 0 < / p) by (apply Rinv_0_lt_compat; lra).
    assert (Q : 1 / p <= 1e6).
    { apply Rmult_le_reg_r with p; [lra|]. unfold Rdiv.
      rewrite Rmult_assoc, Rinv_l by lra. lra. }
    split.
    - destruct (Rlt_dec (1 / p) 0); [unfold Rdiv in *; lra | reflexivity].
    - destruct (Rlt_dec 1e6 (1 / p)); [lra | reflexivity]. }
  destruct x as [r | | |]; cbn [fclamp_min].
  - apply F. apply Rmax_r.
  - cbn [fdiv fltb]. split.
    + destruct (Rlt_dec 0 0); [lra | reflexivity].
    + destruct (Rlt_dec 1e6 0); [lra | reflexivity].
  - apply F. lra.
  - split; reflexivity.
Qed.

(** X6.  Whatever the parameters of the model and the values of the inputs
    (of one common shape), no entry of the preferred period or of the maximal
    amplitude is below the floor [1e-6], and no entry of the preferred spatial
    frequency is negative or above [1e6]: the three functions return, and an
    entry is NaN, [+inf] or within these bounds. *)
Theorem period_and_amplitude_are_clamped self s sf_angle vox_ecc vox_angle :
  fits s sf_angle -> fits s vox_ecc -> fits s vox_angle ->
  exists period amplitude sf,
    preferred_period self sf_angle vox_ecc vox_angle = Ok period
    /\ max_amplitude self sf_angle vox_angle = Ok amplitude
    /\ preferred_sf self sf_angle vox_ecc vox_angle = Ok sf
    /\ forall i j, in_range s i j ->
         fltb (entry period i j) (Fin 1e-6) = false
         /\ fltb (entry amplitude i j) (Fin 1e-6) = false
         /\ fltb (entry sf i j) (Fin 0) = false
         /\ fltb (Fin 1e6) (entry sf i j) = false.
Proof.
  intros Fa Fe Fv.
  pose proof (preferred_period_pointwise s self _ _ _ Fa Fe Fv) as Hpp.
  pose proof (max_amplitude_pointwise s self _ _ Fa Fv) as (amp & Eamp & _ & _ & Hamp).
  eassert (Hsf : pointwise s _ _ (preferred_sf self sf_angle vox_ecc vox_angle)).
  { unfold preferred_sf. eapply pointwise_rbin; [apply pointwise_num | exact Hpp]. }
  destruct Hpp as (pp & Epp & _ & _ & Hpp).
  destruct Hsf as (sf & Esf & _ & _ & Hsf).
  exists pp, amp, sf. repeat split; auto.
  - rewrite Hpp by assumption. apply clamp_floor.
  - rewrite Hamp by assumption. apply clamp_floor.
  - rewrite Hsf by assumption. apply reciprocal_of_clamped.
  - rewrite Hsf by assumption. apply reciprocal_of_clamped.
Qed.

Lemma clamped_witness :
  exists period amplitude sf,
    preferred_period example_model (T1 [Fin 0; NaN]) (T0 (Fin (-3))) (T0 PInf) = Ok period
    /\ max_amplitude example_model (T1 [Fin 0; NaN]) (T0 PInf) = Ok amplitude
    /\ preferred_sf example_model (T1 [Fin 0; NaN]) (T0 (Fin (-3))) (T0 PInf) = Ok sf
    /\ forall i j, in_range (Vector 2) i j ->
         fltb (entry period i j) (Fin 1e-6) = false
         /\ fltb (entry amplitude i j) (Fin 1e-6) = false
         /\ fltb (entry sf i j) (Fin 0) = false
         /\ fltb (Fin 1e6) (entry sf i j) = false.
Proof.
  apply (period_and_amplitude_are_clamped example_model (Vector 2)); simpl; auto.
Defined.

(** ** The range of the response and its peak *)

Lemma amplitude_real_pos rp a v : 0 < amplitude_real rp a v.
Proof.
  unfold amplitude_real.
  match goal with |- 0 < Rmax ?x ?y => pose proof (Rmax_r x y) end. lra.
Qed.

Lemma exp_nonpos y : y <= 0 -> exp y <= 1.
Proof.
  intros [H | ->]; [|rewrite exp_0; lra].
  left. rewrite <- exp_0. now apply exp_increasing.
Qed.

Lemma pdf_real_range rp m a e v :
  r_sigma rp <> 0 -> 0 < pdf_real rp m a e v <= 1.
Proof.
  intros Hs. unfold pdf_real. split; [apply exp_pos|]. apply exp_nonpos.
  set (x := log2 m + log2 (preferred_period_real rp a e v)).
  assert (D : 0 < 2 * (r_sigma rp * r_sigma rp)) by nra.
  assert (I : 0 < / (2 * (r_sigma rp * r_sigma rp))) by now apply Rinv_0_lt_compat.
  unfold Rdiv. pose proof (Rle_0_sqr x) as Q. unfold Rsqr in Q. nra.
Qed.

Lemma log2_sum_zero m p : 0 < m -> 0 < p -> (log2 m + log2 p = 0 <-> m * p = 1).
Proof.
  intros Hm Hp. unfold log2. pose proof ln_2_pos as L.
  assert (E : ln m / ln 2 + ln p / ln 2 = ln (m * p) / ln 2)
    by (rewrite ln_mult by assumption; field; lra).
  rewrite E. split.
  - intros H. apply ln_inv; [nra | lra |]. rewrite ln_1.
    apply Rmult_eq_reg_r with (/ ln 2); [|apply Rinv_neq_0_compat; lra].
    unfold Rdiv in H. lra.
  - intros ->. rewrite ln_1. unfold Rdiv. ring.
Qed.

Lemma pdf_real_peak rp m a e v :
  r_sigma rp <> 0 -> 0 < m ->
  (pdf_real rp m a e v = 1 <-> m * preferred_period_real rp a e v = 1).
Proof.
  intros Hs Hm. rewrite <- (log2_sum_zero m) by (auto using preferred_period_real_pos).
  unfold pdf_real.
  set (x := log2 m + log2 (preferred_period_real rp a e v)).
  assert (D : 0 < 2 * (r_sigma rp * r_sigma rp)) by nra.
  split.
  - intros H. rewrite <- exp_0 in H. apply exp_inv in H.
    assert (Q : x * x = 0).
    { apply Rmult_eq_compat_r with (r := 2 * (r_sigma rp * r_sigma rp)) in H.
      unfold Rdiv in H. rewrite Rmult_assoc, Rinv_l in H by lra. lra. }
    apply Rmult_integral in Q. tauto.
  - intros ->. rewrite <- exp_0. f_equal. unfold Rdiv. ring.
Qed.

(** X7.  In exact arithmetic (no operation rounds, overflows or
    underflows).  For a model with finite parameters and [sigma <> 0], on
    inputs of one common shape: at every position where the inputs are finite
    and the spatial frequency is positive, the response is a finite number,
    positive and at most the maximal amplitude at that orientation, and it
    equals the maximal amplitude exactly when the spatial frequency is the
    reciprocal of the preferred period. *)
Theorem response_range_and_peak self rp s sf_mag sf_angle vox_ecc vox_angle :
  holds self rp -> r_sigma rp <> 0 ->
  fits s sf_mag -> fits s sf_angle -> fits s vox_ecc -> fits s vox_angle ->
  exists out,
    evaluate self sf_mag sf_angle vox_ecc vox_angle = Ok out
    /\ fits s out
    /\ forall i j m a e v,
         in_range s i j ->
         entry sf_mag i j = Fin m -> 0 < m -> entry sf_angle i j = Fin a ->
         entry vox_ecc i j = Fin e -> entry vox_angle i j = Fin v ->
         exists r,
           entry out i j = Fin r
           /\ 0 < r <= amplitude_real rp a v
           /\ (r = amplitude_real rp a v
               <-> m * preferred_period_real rp a e v = 1).
Proof.
  intros Hh Hs Fm Fa Fe Fv.
  destruct (evaluate_pointwise s self _ _ _ _ Fm Fa Fe Fv) as (out & E & Fo & _ & Ho).
  exists out. split; [exact E|]. split; [exact Fo|].
  intros i j m a e v Hij Em Hm Ea Ee Ev.
  rewrite Ho by assumption. rewrite Em, Ea, Ee, Ev.
  rewrite (response_at_finite self rp) by assumption.
  eexists. split; [reflexivity|]. unfold response_real.
  pose proof (amplitude_real_pos rp a v) as A.
  pose proof (pdf_real_range rp m a e v Hs) as P.
  pose proof (pdf_real_peak rp m a e v Hs Hm) as K.
  split; [nra|]. rewrite <- K. split; intros H; nra.
Qed.

Lemma response_range_witness :
  exists out,
    evaluate example_model (T0 (Fin 1)) (T0 (Fin 0)) (T1 [Fin 2.5]) (T0 (Fin 0)) = Ok out
    /\ fits (Vector 1) out
    /\ forall i j m a e v,
         in_range (Vector 1) i j ->
         entry (T0 (Fin 1)) i j = Fin m -> 0 < m -> entry (T0 (Fin 0)) i j = Fin a ->
         entry (T1 [Fin 2.5]) i j = Fin e -> entry (T0 (Fin 0)) i j = Fin v ->
         exists r,
           entry out i j = Fin r
           /\ 0 < r <= amplitude_real example_parameters a v
           /\ (r = amplitude_real example_parameters a v
               <-> m * preferred_period_real example_parameters a e v = 1).
Proof.
  apply (response_range_and_peak example_model example_parameters (Vector 1));
    simpl; auto using example_model_holds.
Defined.

(** X8.  In exact arithmetic.  For a model with finite parameters and
    [sigma <> 0], on finite
    inputs of one common shape, the response at the preferred spatial
    frequency is the maximal amplitude: [evaluate], given the output of
    [preferred_sf] as spatial frequency, returns at every position the value
    that [max_amplitude] returns there. *)
Theorem response_at_preferred_sf_is_max_amplitude
    self rp s sf_angle vox_ecc vox_angle :
  holds self rp -> r_sigma rp <> 0 ->
  fits s sf_angle -> fits s vox_ecc -> fits s vox_angle ->
  all_finite sf_angle -> all_finite vox_ecc -> all_finite vox_angle ->
  exists sf out amplitude,
    preferred_sf self sf_angle vox_ecc vox_angle = Ok sf
    /\ evaluate self sf sf_angle vox_ecc vox_angle = Ok out
    /\ max_amplitude self sf_angle vox_angle = Ok amplitude
    /\ forall i j, in_range s i j -> entry out i j = entry amplitude i j.
Proof.
  intros Hh Hs Fa Fe Fv Aa Ae Av.
  pose proof (preferred_period_pointwise s self _ _ _ Fa Fe Fv) as Hpp.
  pose proof (max_amplitude_pointwise s self _ _ Fa Fv) as (amp & Eamp & _ & _ & Hamp).
  eassert (Hsf : pointwise s _ _ (preferred_sf self sf_angle vox_ecc vox_angle)).
  { unfold preferred_sf. eapply pointwise_rbin; [apply pointwise_num | exact Hpp]. }
  destruct Hsf as (sf & Esf & Fsf & _ & Hsf).
  destruct (evaluate_pointwise s self _ _ _ _ Fsf Fa Fe Fv) as (out & E & _ & _ & Ho).
  exists sf, out, amp. repeat split; auto.
  intros i j Hij. rewrite Ho, Hamp, Hsf by assumption.
  destruct (entry_finite s _ i j Fa Hij Aa) as (a & ->).
  destruct (entry_finite s _ i j Fe Hij Ae) as (e & ->).
  destruct (entry_finite s _ i j Fv Hij Av) as (v & ->).
  rewrite (preferred_period_at_finite self rp) by assumption.
  pose proof (preferred_period_real_pos rp a e v) as Pp.
  rewrite fdiv_finite by lra.
  assert (M : 0 < 1 / preferred_period_real rp a e v)
    by (unfold Rdiv; rewrite Rmult_1_l; now apply Rinv_0_lt_compat).
  rewrite (response_at_finite self rp), (amplitude_at_finite self rp) by assumption.
  f_equal. unfold response_real.
  assert (K : pdf_real rp (1 / preferred_period_real rp a e v) a e v = 1).
  { apply pdf_real_peak; auto. field. lra. }
  rewrite K. ring.
Qed.

Lemma preferred_sf_witness :
  exists sf out amplitude,
    preferred_sf example_model (T1 [Fin 0; Fin 1]) (T0 (Fin 2.5)) (T0 (Fin 0)) = Ok sf
    /\ evaluate example_model sf (T1 [Fin 0; Fin 1]) (T0 (Fin 2.5)) (T0 (Fin 0)) = Ok out
    /\ max_amplitude example_model (T1 [Fin 0; Fin 1]) (T0 (Fin 0)) = Ok amplitude
    /\ forall i j, in_range (Vector 2) i j -> entry out i j = entry amplitude i j.
Proof.
  apply (response_at_preferred_sf_is_max_amplitude example_model example_parameters
           (Vector 2)); simpl; auto using example_model_holds;
    try (cbn; lra); repeat constructor; eexists; reflexivity.
Defined.

(** ** The exceptions of [preferred_period] and [evaluate] *)

Lemma ok_only {A : Type} (a : A) : shape_error_only (Ok a).
Proof. intros e H. discriminate. Qed.

Lemma bind_only {A B : Type} (r : result A) (k : A -> result B) :
  shape_error_only r -> (forall a, shape_error_only (k a)) ->
  shape_error_only (bind r k).
Proof.
  intros Hr Hk. destruct r as [a | e]; cbn [bind]; [apply Hk|].
  intros e' H. injection H as <-. now apply Hr.
Qed.

Section BroadcastOnly.
Context {A B C : Type}.
Variable f : A -> B -> result C.
Hypothesis f_only : forall x y, shape_error_only (f x y).

Lemma zip_with_only xs ys : shape_error_only (zip_with f xs ys).
Proof.
  revert ys. induction xs as [|x xs IH]; intros [|y ys]; cbn [zip_with];
    try apply ok_only; try (intros e H; now injection H as <-).
  apply bind_only; [apply f_only|]. intros c.
  apply bind_only; [apply IH|]. intros cs. apply ok_only.
Qed.

Lemma map_left_only x ys : shape_error_only (map_left f x ys).
Proof.
  induction ys as [|y ys IH]; cbn [map_left]; [apply ok_only|].
  apply bind_only; [apply f_only|]. intros c.
  apply bind_only; [apply IH|]. intros cs. apply ok_only.
Qed.

Lemma map_right_only xs y : shape_error_only (map_right f xs y).
Proof.
  induction xs as [|x xs IH]; cbn [map_right]; [apply ok_only|].
  apply bind_only; [apply f_only|]. intros c.
  apply bind_only; [apply IH|]. intros cs. apply ok_only.
Qed.

Lemma broadcast_only xs ys : shape_error_only (broadcast f xs ys).
Proof.
  unfold broadcast. destruct (Nat.eqb (length xs) (length ys)).
  - apply zip_with_only.
  - destruct xs as [|x [|x' xs]]; destruct ys as [|y [|y' ys]];
      try apply map_left_only; try apply map_right_only;
      intros e H; now injection H as <-.
Qed.
End BroadcastOnly.

Lemma tbin_only f a b : shape_error_only (tbin f a b).
Proof.
  assert (H1 : forall u v, shape_error_only (broadcast1 f u v))
    by (intros; apply broadcast_only; intros; apply ok_only).
  assert (H2 : forall m n, shape_error_only (broadcast2 f m n))
    by (intros; apply broadcast_only; exact H1).
  destruct a, b; cbn [tbin]; try apply ok_only;
    (apply bind_only; [auto | intros; apply ok_only]).
Qed.

Lemma rbin_only f ra rb :
  shape_error_only ra -> shape_error_only rb -> shape_error_only (rbin f ra rb).
Proof.
  intros Ha Hb. unfold rbin. apply bind_only; [exact Ha|]. intros x.
  apply bind_only; [exact Hb|]. intros y. apply tbin_only.
Qed.

Lemma rmap_only f ra : shape_error_only ra -> shape_error_only (rmap f ra).
Proof.
  intros Ha. unfold rmap. apply bind_only; [exact Ha|]. intros x. apply ok_only.
Qed.

Ltac shape_only :=
  repeat first [ apply rbin_only | apply rmap_only | apply ok_only
               | apply bind_only; [|intros ?] ].

Lemma max_amplitude_only self a v : shape_error_only (max_amplitude self a v).
Proof.
  unfold max_amplitude. destruct (_check_and_reshape_tensors a v) as [a' v'].
  unfold clamp_min, tcos, num, P. shape_only.
Qed.

Lemma differ_decision a e v :
  (Nat.eqb (ndimension a) 1 && Nat.eqb (ndimension e) 1 && Nat.eqb (ndimension v) 1)
  && (shape_neb (shape a) (shape e) && shape_neb (shape e) (shape v)) = true
  <-> three_vectors_differ a e v.
Proof.
  unfold three_vectors_differ, shape_neb.
  rewrite !andb_true_iff, !Nat.eqb_eq.
  destruct (list_eq_dec Nat.eq_dec (shape a) (shape e));
    destruct (list_eq_dec Nat.eq_dec (shape e) (shape v)); intuition congruence.
Qed.

Lemma preferred_period_cases self a e v :
  (three_vectors_differ a e v -> preferred_period self a e v = Raise usage_error)
  /\ (~ three_vectors_differ a e v -> shape_error_only (preferred_period self a e v)).
Proof.
  rewrite <- differ_decision. unfold preferred_period.
  destruct (Nat.eqb (ndimension a) 1 && Nat.eqb (ndimension e) 1
            && Nat.eqb (ndimension v) 1); cbn [andb].
  - destruct (shape_neb (shape a) (shape e) && shape_neb (shape e) (shape v)).
    + split; [reflexivity | congruence].
    + split; [discriminate | intros _]. cbn [bind].
      unfold clamp_min, tcos, num, P. shape_only.
  - split; [discriminate | intros _].
    destruct (_check_and_reshape_tensors a e) as [a1 e1].
    destruct (_check_and_reshape_tensors e1 v) as [e2 v2].
    destruct (_check_and_reshape_tensors a1 v2) as [a3 v3]. cbn [bind].
    unfold clamp_min, tcos, num, P. shape_only.
Qed.

(** X9.  [preferred_period] and [evaluate] raise the exception "Only two of
    these variables can be non-singletons!" exactly when the orientation, the
    eccentricity and the retinotopic angle are all 1-d, the first two differ
    in shape and the last two differ in shape; every other exception that
    they raise is the shape error of broadcasting. *)
Theorem usage_error_condition self sf_mag sf_angle vox_ecc vox_angle :
  (preferred_period self sf_angle vox_ecc vox_angle = Raise usage_error
   <-> three_vectors_differ sf_angle vox_ecc vox_angle)
  /\ (evaluate self sf_mag sf_angle vox_ecc vox_angle = Raise usage_error
      <-> three_vectors_differ sf_angle vox_ecc vox_angle)
  /\ (forall e, preferred_period self sf_angle vox_ecc vox_angle = Raise e ->
                e = usage_error \/ e = ShapeError)
  /\ (forall e, evaluate self sf_mag sf_angle vox_ecc vox_angle = Raise e ->
                e = usage_error \/ e = ShapeError).
Proof.
  destruct (preferred_period_cases self sf_angle vox_ecc vox_angle) as [Hbad Hgood].
  assert (Dec : three_vectors_differ sf_angle vox_ecc vox_angle
                \/ ~ three_vectors_differ sf_angle vox_ecc vox_angle).
  { rewrite <- differ_decision.
    destruct (_ && _); [now left | right; discriminate]. }
  assert (Eval : ~ three_vectors_differ sf_angle vox_ecc vox_angle ->
                 shape_error_only (evaluate self sf_mag sf_angle vox_ecc vox_angle)).
  { intros H. unfold evaluate. apply bind_only; [now apply Hgood|]. intros pp.
    apply bind_only.
    - unfold texp, tneg, tsquare, tlog2, num, P. shape_only.
    - intros pdf. apply bind_only; [apply max_amplitude_only|]. intros amp.
      shape_only. }
  assert (Eval' : three_vectors_differ sf_angle vox_ecc vox_angle ->
                  evaluate self sf_mag sf_angle vox_ecc vox_angle = Raise usage_error).
  { intros H. unfold evaluate. now rewrite (Hbad H). }
  split; [|split; [|split]].
  - split; [|exact Hbad]. intros H. destruct Dec as [D | D]; [exact D|].
    apply (Hgood D) in H. discriminate.
  - split; [|exact Eval']. intros H. destruct Dec as [D | D]; [exact D|].
    apply (Eval D) in H. discriminate.
  - intros e H. destruct Dec as [D | D].
    + left. rewrite (Hbad D) in H. congruence.
    + right. now apply (Hgood D).
  - intros e H. destruct Dec as [D | D].
    + left. rewrite (Eval' D) in H. congruence.
    + right. now apply (Eval D).
Qed.

End TuningFacts.

(* ================================================================= *)
(** * The loss: symmetry, weights, bounds and batches *)

Module LossShape.
Import Loss LossTerms LossFacts BatchTerms.

Lemma proper_regular c x : proper c x -> regular c (voxel_of x).
Proof.
  destruct x as [[p t] w]. unfold proper, regular, voxel_of. cbn. tauto.
Qed.

(** The loss of a batch of proper voxels is the closed form. *)
Lemma loss_of_batch c l :
  l <> [] -> Forall (proper c) l ->
  weighted_normed_loss (predictions_of l) (targets_of l) (precisions_of l) None None
  = Ok (Fin (batch_loss (map voxel_of l))).
Proof.
  intros Hne Hall. set (b := map voxel_of l).
  assert (Hreg : Forall (regular c) b).
  { unfold b. apply Forall_map. eapply Forall_impl; [|exact Hall].
    intros x. apply proper_regular. }
  assert (HP : predictions_of l = rows preds b) by (unfold b; now rewrite rows_map).
  assert (HT : targets_of l = rows targ b) by (unfold b; now rewrite rows_map).
  assert (HW : precisions_of l = rows prec b) by (unfold b; now rewrite rows_map).
  assert (HPN : rows preds_for_norm b = rows preds b)
    by (unfold b; now rewrite !rows_map).
  assert (HTN : rows targ_for_norm b = rows targ b)
    by (unfold b; now rewrite !rows_map).
  rewrite loss_default.
  - pose proof (loss_batch c b) as L. rewrite HPN, HTN, <- HT, <- HW, <- HP in L.
    apply L; auto. unfold b. destruct l; [congruence | discriminate].
  - rewrite HP. apply guard_quiet. eapply Forall_impl; [|exact Hreg].
    intros v H. apply H.
Qed.

Lemma loss_of_voxel c x :
  proper c x ->
  weighted_normed_loss (T1 (lift (fst (fst x)))) (T1 (lift (snd (fst x))))
    (T1 (lift (snd x))) None None
  = Ok (Fin (batch_loss [voxel_of x])).
Proof. intros H. apply (loss_vector c). now apply proper_regular. Qed.

Lemma proper_example : proper 2 ([3; 4], [1; 0], [1; 1]).
Proof.
  unfold proper, sumsq, Rsum. cbn. repeat split; try lra; auto. discriminate.
Qed.

(** ** The weights *)

Lemma Rsum_scale k l : Rsum (map (Rmult k) l) = k * Rsum l.
Proof. unfold Rsum. induction l; simpl; [lra|]. rewrite IHl. lra. Qed.

Lemma Rmean_scale k l : Rmean (map (Rmult k) l) = k * Rmean l.
Proof. unfold Rmean. rewrite Rsum_scale, length_map. unfold Rdiv. ring. Qed.

Lemma squared_error_reweigh k x :
  squared_error (voxel_of (reweigh k x)) = map (Rmult k) (squared_error (voxel_of x)).
Proof.
  destruct x as [[p t] w]. unfold squared_error, voxel_of, reweigh.
  cbn [preds targ prec preds_for_norm targ_for_norm own fst snd].
  rewrite map_map, Rmean_scale. apply map_ext. intros xy. ring.
Qed.

(** X11.  In exact arithmetic (no operation rounds, overflows or
    underflows), the loss is linear in the precisions: for a batch of voxels
    with one number of classes, finite values, non-zero predictions, non-zero
    targets and non-empty precisions, multiplying every precision by a number
    [k] multiplies the loss by [k]. *)
Theorem loss_is_linear_in_precision (k : R) (c : nat)
    (l : list (list R * list R * list R)) :
  l <> [] -> Forall (proper c) l ->
  exists loss,
    weighted_normed_loss (predictions_of l) (targets_of l) (precisions_of l)
      None None = Ok (Fin loss)
    /\ weighted_normed_loss (predictions_of l) (targets_of l)
         (precisions_of (map (reweigh k) l)) None None = Ok (Fin (k * loss)).
Proof.
  intros Hne Hall. exists (batch_loss (map voxel_of l)).
  split; [now apply (loss_of_batch c)|].
  assert (E : weighted_normed_loss (predictions_of l) (targets_of l)
                (precisions_of (map (reweigh k) l)) None None
              = weighted_normed_loss (predictions_of (map (reweigh k) l))
                  (targets_of (map (reweigh k) l))
                  (precisions_of (map (reweigh k) l)) None None).
  { unfold predictions_of, targets_of. now rewrite !map_map. }
  rewrite E, (loss_of_batch c (map (reweigh k) l)).
  - do 2 f_equal. unfold batch_loss. rewrite <- Rmean_scale. f_equal.
    rewrite !map_map. rewrite concat_map, map_map. f_equal.
    apply map_ext. intros x. apply squared_error_reweigh.
  - destruct l; [congruence | discriminate].
  - apply Forall_map. eapply Forall_impl; [|exact Hall].
    intros [[p t] w]. unfold proper, reweigh. cbn [fst snd].
    intros (H1 & H2 & H3 & H4 & H5). repeat split; auto.
    destruct w; [congruence | discriminate].
Qed.

Lemma loss_is_linear_witness :
  exists loss,
    weighted_normed_loss (T2 [lift [3; 4]]) (T2 [lift [1; 0]]) (T2 [lift [1; 1]])
      None None = Ok (Fin loss)
    /\ weighted_normed_loss (T2 [lift [3; 4]]) (T2 [lift [1; 0]])
         (T2 [lift [5 * 1; 5 * 1]]) None None = Ok (Fin (5 * loss)).
Proof.
  apply (loss_is_linear_in_precision 5 2 [([3; 4], [1; 0], [1; 1])]).
  - discriminate.
  - constructor; [exact proper_example | constructor].
Defined.

(** ** The range of the loss *)

Lemma sumsq_cons a l : sumsq (a :: l) = a * a + sumsq l.
Proof. reflexivity. Qed.

Lemma sumsq_normed p : sumsq p <> 0 -> sumsq (normed p p) = 1.
Proof.
  intros H. pose proof (Rnorm_nonzero p H) as N.
  assert (S : Rnorm p * Rnorm p = sumsq p)
    by (unfold Rnorm; apply sqrt_sqrt, sumsq_nonneg).
  assert (G : forall l, sumsq (normed l p) * sumsq p = sumsq l).
  { induction l as [|a l IH]; [unfold normed, sumsq, Rsum; simpl; ring|].
    unfold normed in *. cbn [map]. rewrite !sumsq_cons, Rmult_plus_distr_r, IH.
    rewrite <- S. field. exact N. }
  apply Rmult_eq_reg_r with (sumsq p); [|exact H]. rewrite G. ring.
Qed.

Lemma weighted_differences_bound w x y :
  0 <= w ->
  Rsum (map (fun xy => w * ((fst xy - snd xy) * (fst xy - snd xy))) (combine x y))
  <= w * (2 * sumsq x + 2 * sumsq y).
Proof.
  intros Hw. revert y. induction x as [|a x IH]; intros y.
  - cbn [combine map]. pose proof (sumsq_nonneg y).
    change (sumsq []) with 0. change (Rsum []) with 0. nra.
  - destruct y as [|b y].
    + cbn [combine map]. pose proof (sumsq_nonneg (a :: x)).
      change (sumsq []) with 0. change (Rsum []) with 0. nra.
    + cbn [combine map fst snd]. rewrite !sumsq_cons. specialize (IH y).
      unfold Rsum in *. cbn [fold_right].
      assert (Q : (a - b) * (a - b) <= 2 * (a * a) + 2 * (b * b)).
      { pose proof (Rle_0_sqr (a + b)) as Q. unfold Rsqr in Q. lra. }
      apply (Rmult_le_compat_l w) in Q; [lra | exact Hw].
Qed.

Lemma normed_opp t : normed (map Ropp t) (map Ropp t) = map Ropp (normed t t).
Proof.
  unfold normed, Rnorm.
  assert (E : sumsq (map Ropp t) = sumsq t).
  { induction t as [|a t IH]; auto. cbn [map]. rewrite !sumsq_cons, IH. ring. }
  rewrite E, !map_map. apply map_ext. intros a. unfold Rdiv. ring.
Qed.

Lemma opposite_differences w y :
  Rsum (map (fun xy => w * ((fst xy - snd xy) * (fst xy - snd xy)))
            (combine (map Ropp y) y))
  = 4 * w * sumsq y.
Proof.
  induction y as [|b y IH]; [unfold sumsq, Rsum; simpl; ring|].
  cbn [map combine fst snd]. rewrite sumsq_cons. unfold Rsum in *.
  cbn [fold_right]. rewrite IH. ring.
Qed.

Lemma proper_opposite c t w :
  length t = c -> w <> [] -> sumsq t <> 0 -> proper c (map Ropp t, t, w).
Proof.
  intros Lt Wne St. unfold proper. cbn [fst snd]. rewrite length_map.
  repeat split; auto.
  replace (sumsq (map Ropp t)) with (sumsq t); [exact St|].
  clear. induction t as [|a t IH]; auto. cbn [map]. rewrite !sumsq_cons, IH. ring.
Qed.

Lemma opposite_batch_loss c t w :
  length t = c -> w <> [] -> sumsq t <> 0 ->
  batch_loss [voxel_of (map Ropp t, t, w)] = 4 * Rmean w / INR c.
Proof.
  intros Lt Wne St. unfold batch_loss. cbn [map concat]. rewrite app_nil_r.
  unfold Rmean at 1.
  rewrite (length_squared_error c)
    by (apply (proper_regular c (map Ropp t, t, w)); now apply proper_opposite).
  unfold squared_error, voxel_of.
  cbn [preds targ prec preds_for_norm targ_for_norm own fst snd].
  rewrite normed_opp, opposite_differences, sumsq_normed by assumption.
  unfold Rdiv. ring.
Qed.

(** X12.  In exact arithmetic (no operation rounds, overflows or
    underflows).  For one voxel with [c] classes, finite values, non-zero
    predictions and targets and precisions of non-negative mean, the loss lies
    between 0 and [4 * mean(precision) / c]; the upper bound is attained by
    the predictions opposite to the targets, so a negative factor, unlike a
    positive one, changes the loss. *)
Theorem loss_range (c : nat) (p t w : list R) :
  proper c (p, t, w) -> 0 <= Rmean w ->
  (exists loss,
     weighted_normed_loss (T1 (lift p)) (T1 (lift t)) (T1 (lift w)) None None
     = Ok (Fin loss)
     /\ 0 <= loss <= 4 * Rmean w / INR c)
  /\ weighted_normed_loss (T1 (lift (map Ropp t))) (T1 (lift t)) (T1 (lift w))
       None None
     = Ok (Fin (4 * Rmean w / INR c)).
Proof.
  intros Hx Hw. pose proof Hx as (Lp & Lt & Wne & Sp & St). cbn [fst snd] in *.
  assert (Hc : 0 < INR c).
  { apply lt_0_INR. destruct t; [exfalso; apply St; reflexivity | simpl in Lt; lia]. }
  split.
  - exists (batch_loss [voxel_of (p, t, w)]).
    split; [exact (loss_of_voxel c (p, t, w) Hx)|].
    unfold batch_loss. cbn [map concat]. rewrite app_nil_r.
    assert (L : length (squared_error (voxel_of (p, t, w))) = c)
      by (apply length_squared_error; now apply (proper_regular c (p, t, w))).
    assert (B : Rsum (squared_error (voxel_of (p, t, w))) <= Rmean w * 4).
    { pose proof (weighted_differences_bound (Rmean w) (normed p p) (normed t t) Hw) as B.
      rewrite !sumsq_normed in B by assumption.
      replace (Rmean w * 4) with (Rmean w * (2 * 1 + 2 * 1)) by ring. exact B. }
    assert (N : 0 <= Rsum (squared_error (voxel_of (p, t, w)))).
    { apply Rsum_nonneg. unfold squared_error. apply Forall_map, Forall_forall.
      intros xy _. cbn [prec own voxel_of fst snd].
      pose proof (Rle_0_sqr (fst xy - snd xy)) as Q. unfold Rsqr in Q. nra. }
    set (se := squared_error (voxel_of (p, t, w))) in *.
    unfold Rmean at 1 2. rewrite L.
    assert (I : 0 < / INR c) by now apply Rinv_0_lt_compat.
    set (m := Rmean w) in *. unfold Rdiv. split; nra.
  - rewrite <- (opposite_batch_loss c t w) by assumption.
    apply (loss_of_voxel c (map Ropp t, t, w)). now apply proper_opposite.
Qed.

Lemma loss_range_witness :
  (exists loss,
     weighted_normed_loss (T1 (lift [3; 4])) (T1 (lift [1; 0])) (T1 (lift [1; 1]))
       None None = Ok (Fin loss)
     /\ 0 <= loss <= 4 * Rmean [1; 1] / INR 2)
  /\ weighted_normed_loss (T1 (lift (map Ropp [1; 0]))) (T1 (lift [1; 0]))
       (T1 (lift [1; 1])) None None
     = Ok (Fin (4 * Rmean [1; 1] / INR 2)).
Proof.
  apply (loss_range 2 [3; 4] [1; 0] [1; 1]).
  - exact proper_example.
  - unfold Rmean, Rsum. simpl. lra.
Defined.

(** ** A single stimulus class *)

(** X13.  In exact arithmetic (no operation rounds, overflows or
    underflows), with a single stimulus class the self-normalized loss says
    nothing about magnitudes: for a non-zero prediction [a], a non-zero
    target [b] and
    non-empty precisions, it is 0 when [a] and [b] have the same sign and
    [4 * mean(precision)] when they have opposite signs. *)
Theorem single_class_loss (a b : R) (w : list R) :
  a <> 0 -> b <> 0 -> w <> [] ->
  weighted_normed_loss (T1 [Fin a]) (T1 [Fin b]) (T1 (lift w)) None None
  = Ok (Fin (if Rlt_dec 0 (a * b) then 0 else 4 * Rmean w)).
Proof.
  intros Ha Hb Hw.
  assert (Sa : sumsq [a] <> 0) by (unfold sumsq, Rsum; simpl; nra).
  assert (Sb : sumsq [b] <> 0) by (unfold sumsq, Rsum; simpl; nra).
  change (T1 [Fin a]) with (T1 (lift [a])). change (T1 [Fin b]) with (T1 (lift [b])).
  rewrite (loss_vector 1) by (unfold regular; cbn; auto 10).
  do 2 f_equal.
  assert (Ib : / b * b = 1) by now apply Rinv_l.
  destruct (Rlt_dec 0 (a * b)) as [P | N].
  - assert (K : 0 < a / b).
    { replace (a / b) with (a * b * (/ b * / b)) by (field; exact Hb).
      apply Rmult_lt_0_compat; [exact P|]. nra. }
    replace [a] with (map (Rmult (a / b)) [b])
      by (cbn [map]; f_equal; field; exact Hb).
    rewrite batch_loss_scale by assumption.
    exact (batch_loss_same [([b], w)]).
  - assert (K : 0 < - (a / b)).
    { replace (- (a / b)) with (- (a * b) * (/ b * / b)) by (field; exact Hb).
      apply Rmult_lt_0_compat; [nra|]. nra. }
    replace [a] with (map (Rmult (- (a / b))) (map Ropp [b]))
      by (cbn [map]; f_equal; field; exact Hb).
    rewrite batch_loss_scale; [| exact K | cbn [map]; unfold sumsq, Rsum; simpl; nra].
    pose proof (opposite_batch_loss 1 [b] w eq_refl Hw Sb) as E.
    unfold voxel_of in E. cbn [fst snd] in E. rewrite E. cbn [INR]. field.
Qed.

Lemma single_class_loss_witness :
  weighted_normed_loss (T1 [Fin 0.001]) (T1 [Fin 1000]) (T1 (lift [2])) None None
  = Ok (Fin (if Rlt_dec 0 (0.001 * 1000) then 0 else 4 * Rmean [2])).
Proof. apply single_class_loss; [lra | lra | discriminate]. Defined.

(** ** Batches *)

Lemma Rsum_app x y : Rsum (x ++ y) = Rsum x + Rsum y.
Proof. unfold Rsum. induction x; simpl; [lra|]. rewrite IHx. lra. Qed.

Lemma Rmean_concat (c : nat) (ls : list (list R)) :
  (0 < c)%nat -> ls <> [] -> Forall (fun l => length l = c) ls ->
  Rmean (concat ls) = Rmean (map Rmean ls).
Proof.
  intros Hc Hne Hall.
  assert (Cc : INR c <> 0) by (apply not_0_INR; lia).
  assert (Cn : INR (length ls) <> 0) by (apply not_0_INR; destruct ls; simpl; [congruence | lia]).
  assert (L : length (concat ls) = (length ls * c)%nat).
  { clear Hne Cn. induction Hall as [|l ls Hl _ IH]; auto.
    cbn [concat length]. rewrite length_app, IH, Hl. lia. }
  assert (S : Rsum (map Rmean ls) = Rsum (concat ls) / INR c).
  { clear Hne Cn L. induction Hall as [|l ls Hl _ IH].
    - unfold Rsum. simpl. unfold Rdiv. ring.
    - cbn [map concat]. rewrite Rsum_app. change (Rsum (?a :: ?r)) with (a + Rsum r).
      rewrite IH. unfold Rmean. rewrite Hl. field. exact Cc. }
  unfold Rmean at 1 2. rewrite S, L, length_map, mult_INR. field. split; assumption.
Qed.

(** X14.  In exact arithmetic (no operation rounds, overflows or
    underflows), the loss of a batch is the mean of the losses of its voxels
    taken one at a time: for a batch of voxels with one number of classes,
    finite values, non-zero predictions, non-zero targets and non-empty
    precisions, [weighted_normed_loss] on the 2-d tensors returns the mean of
    what it returns on the 1-d tensors of each voxel. *)
Theorem batch_loss_is_mean_of_voxel_losses (c : nat)
    (l : list (list R * list R * list R)) :
  l <> [] -> Forall (proper c) l ->
  exists losses,
    Forall2 (fun x loss =>
               weighted_normed_loss (T1 (lift (fst (fst x)))) (T1 (lift (snd (fst x))))
                 (T1 (lift (snd x))) None None = Ok (Fin loss))
            l losses
    /\ weighted_normed_loss (predictions_of l) (targets_of l) (precisions_of l)
         None None = Ok (Fin (Rmean losses)).
Proof.
  intros Hne Hall. exists (map (fun x => batch_loss [voxel_of x]) l). split.
  - clear Hne. induction Hall as [|x l Hx _ IH]; constructor; auto.
    now apply (loss_of_voxel c).
  - rewrite (loss_of_batch c l) by assumption. do 2 f_equal.
    unfold batch_loss.
    assert (Hc : (0 < c)%nat).
    { destruct l as [|x l]; [congruence|]. inversion Hall as [|? ? Hx _]; subst.
      apply (regular_nonempty c (voxel_of x)). now apply proper_regular. }
    rewrite (Rmean_concat c).
    + rewrite !map_map. f_equal. apply map_ext. intros x.
      cbn [map concat]. now rewrite app_nil_r.
    + exact Hc.
    + destruct l; [congruence | discriminate].
    + apply Forall_map, Forall_map. eapply Forall_impl; [|exact Hall].
      intros x Hx. apply length_squared_error. now apply proper_regular.
Qed.

Lemma batch_loss_is_mean_witness :
  exists losses,
    Forall2 (fun x loss =>
               weighted_normed_loss (T1 (lift (fst (fst x)))) (T1 (lift (snd (fst x))))
                 (T1 (lift (snd x))) None None = Ok (Fin loss))
            [([3; 4], [1; 0], [1; 1]); ([1; 0], [3; 4], [1; 1])] losses
    /\ weighted_normed_loss (T2 [lift [3; 4]; lift [1; 0]]) (T2 [lift [1; 0]; lift [3; 4]])
         (T2 [lift [1; 1]; lift [1; 1]]) None None = Ok (Fin (Rmean losses)).
Proof.
  apply (batch_loss_is_mean_of_voxel_losses 2
           [([3; 4], [1; 0], [1; 1]); ([1; 0], [3; 4], [1; 1])]).
  - discriminate.
  - constructor; [exact proper_example|]. constructor; [|constructor].
    unfold proper, sumsq, Rsum. cbn. repeat split; try lra; auto. discriminate.
Defined.

End LossShape.

(* ================================================================= *)
(** * The dataset: the dense voxel index and the split *)

Module DatasetFacts.
Import Dataset Training TrainingTerms TrainingFacts DatasetTerms.

Lemma in_unique x l : In x (unique l) <-> In x l.
Proof.
  induction l as [|y l IH]; [tauto|]. cbn [unique]. split.
  - intros [E | H]; [now left|]. apply filter_In in H. right. tauto.
  - intros [E | H]; [now left|].
    destruct (Z.eq_dec y x) as [E | E]; [now left|]. right.
    apply filter_In. split; [tauto|]. apply negb_true_iff, Z.eqb_neq. exact E.
Qed.

Lemma nth_index_of x l d : In x l -> nth (index_of x l) l d = x.
Proof.
  induction l as [|y l IH]; [contradiction|]. intros H. cbn [index_of].
  destruct (Z.eqb_spec x y) as [E | E]; [now subst|].
  cbn [nth]. apply IH. destruct H; [congruence | assumption].
Qed.

Lemma index_of_lt x l : In x l -> (index_of x l < length l)%nat.
Proof.
  induction l as [|y l IH]; [contradiction|]. intros H. cbn [index_of length].
  destruct (Z.eqb_spec x y) as [E | E]; [lia|].
  assert (In x l) by (destruct H; [congruence | assumption]). specialize (IH H0). lia.
Qed.

Lemma index_of_inj x y l : In x l -> In y l -> index_of x l = index_of y l -> x = y.
Proof.
  intros Hx Hy E. rewrite <- (nth_index_of x l 0%Z Hx), <- (nth_index_of y l 0%Z Hy).
  now rewrite E.
Qed.

(** The table that [__init__] keeps. *)
Lemma init_df table df_filter cs ds :
  Dataset.init table df_filter cs = Ok ds ->
  df ds = filter (fun x => match cs with
                           | Some c => class_in c (fst x)
                           | None => true
                           end)
                 (map (fun r => (r, index_of (voxel r) (voxels_of table df_filter)))
                      (apply_filter table df_filter)).
Proof.
  unfold Dataset.init, voxels_of. fold (apply_filter table df_filter).
  set (t := map _ (apply_filter table df_filter)).
  assert (E : filter (fun _ : row * nat => true) t = t).
  { clear. induction t as [|x t IH]; auto. cbn [filter]. now rewrite IH. }
  destruct cs as [c|].
  - unfold class_in.
    destruct (filter (fun r : row * nat => isin (stimulus_class (fst r)) c) t) eqn:F;
      [discriminate|].
    intros H. injection H as <-. reflexivity.
  - rewrite E. clearbody t. destruct t; [discriminate|]. intros H. injection H as <-.
    reflexivity.
Qed.

Lemma init_rows table df_filter cs ds x :
  Dataset.init table df_filter cs = Ok ds ->
  In x (df ds) ->
  In (fst x) (apply_filter table df_filter)
  /\ snd x = index_of (voxel (fst x)) (voxels_of table df_filter)
  /\ In (voxel (fst x)) (voxels_of table df_filter).
Proof.
  intros Hinit Hx. rewrite (init_df _ _ _ _ Hinit) in Hx.
  apply filter_In in Hx. destruct Hx as [Hx _]. apply in_map_iff in Hx.
  destruct Hx as (r & <- & Hr). cbn [fst snd]. repeat split; auto.
  unfold voxels_of. apply (proj2 (in_unique _ _)). now apply in_map.
Qed.

Lemma init_kept table df_filter cs ds :
  Dataset.init table df_filter cs = Ok ds ->
  map fst (df ds) = restrict cs (apply_filter table df_filter).
Proof.
  intros H. rewrite (init_df _ _ _ _ H). destruct cs as [c|]; cbn [restrict].
  - apply (filter_indexed (class_in c)).
  - generalize (apply_filter table df_filter). intros l.
    induction l as [|r l IH]; auto. cbn [map filter fst]. now rewrite IH.
Qed.

Lemma init_raises table df_filter cs e :
  Dataset.init table df_filter cs = Raise e ->
  e = UsageError "Dataframe is empty!"
  /\ restrict cs (apply_filter table df_filter) = [].
Proof.
  pose proof (filter_indexed
        (fun r => match cs with Some c => class_in c r | None => true end)
        (fun r => index_of (voxel r) (voxels_of table df_filter))
        (apply_filter table df_filter)) as E.
  unfold Dataset.init. fold (apply_filter table df_filter).
  fold (voxels_of table df_filter).
  destruct cs as [c|]; cbn [restrict].
  - unfold class_in in *.
    destruct (filter _ (map _ (apply_filter table df_filter))); [|discriminate].
    intros H. injection H as <-. split; [reflexivity|]. now rewrite <- E.
  - destruct (apply_filter table df_filter); [|discriminate].
    intros H. injection H as <-. now split.
Qed.

Lemma init_returns table df_filter cs ds :
  Dataset.init table df_filter cs = Ok ds ->
  restrict cs (apply_filter table df_filter) <> []
  /\ classes ds = unique (map (fun r => stimulus_class (fst r)) (df ds)).
Proof.
  intros H. pose proof (init_kept _ _ _ _ H) as K. revert H. unfold Dataset.init.
  match goal with |- match ?t with _ => _ end = _ -> _ => destruct t eqn:F end;
    [discriminate|].
  intros H. injection H as <-. cbn [df] in K. split; [|reflexivity].
  rewrite <- K. discriminate.
Qed.

Lemma init_total table df_filter cs :
  restrict cs (apply_filter table df_filter) <> [] ->
  exists ds, Dataset.init table df_filter cs = Ok ds.
Proof.
  intros H. destruct (Dataset.init table df_filter cs) as [ds | e] eqn:E;
    [now exists ds|].
  now destruct (init_raises _ _ _ _ E).
Qed.

(** X15.  [FirstLevelDataset.__init__] raises "Dataframe is empty!" exactly
    when no row of the filtered table has its class in the requested subset,
    and raises nothing else; when it returns, the dataset holds the kept rows
    in the order of the table, and its classes are theirs. *)
Theorem init_raises_iff_nothing_is_kept (table : DataFrame)
    (df_filter : option (DataFrame -> DataFrame)) (cs : option (list Z)) :
  (Dataset.init table df_filter cs = Raise (UsageError "Dataframe is empty!")
   <-> restrict cs (apply_filter table df_filter) = [])
  /\ (forall e, Dataset.init table df_filter cs = Raise e ->
                e = UsageError "Dataframe is empty!")
  /\ (forall ds, Dataset.init table df_filter cs = Ok ds ->
                 map fst (df ds) = restrict cs (apply_filter table df_filter)
                 /\ classes ds
                    = unique (map stimulus_class
                                  (restrict cs (apply_filter table df_filter)))).
Proof.
  split; [split|split].
  - intros H. now apply (init_raises _ _ _ _ H).
  - intros H. destruct (Dataset.init table df_filter cs) as [ds | e] eqn:E.
    + now destruct (init_returns _ _ _ _ E).
    + f_equal. now apply (init_raises _ _ _ _ E).
  - intros e H. now apply (init_raises _ _ _ _ H).
  - intros ds H. pose proof (init_kept _ _ _ _ H) as K.
    destruct (init_returns _ _ _ _ H) as [_ C]. split; [exact K|].
    rewrite C, <- K, map_map. reflexivity.
Qed.

(** ** The dense index *)

Lemma unique_NoDup l : NoDup (unique l).
Proof.
  induction l as [|x l IH]; [constructor|]. cbn [unique]. constructor.
  - intros H. apply filter_In in H. destruct H as [_ H].
    apply negb_true_iff in H. now rewrite Z.eqb_refl in H.
  - now apply NoDup_filter.
Qed.

Lemma index_of_nth l d idx :
  NoDup l -> (idx < length l)%nat -> index_of (nth idx l d) l = idx.
Proof.
  intros Hnd. revert idx. induction Hnd as [|x l Hx _ IH]; intros idx H;
    [simpl in H; lia|].
  destruct idx as [|idx]; cbn [nth index_of]; [now rewrite Z.eqb_refl|].
  simpl in H. destruct (Z.eqb_spec (nth idx l d) x) as [E | E].
  - exfalso. apply Hx. rewrite <- E. apply nth_In. lia.
  - f_equal. apply IH. lia.
Qed.

Lemma getitem_is_get_voxel table df_filter cs ds v :
  Dataset.init table df_filter cs = Ok ds ->
  In v (voxels_of table df_filter) ->
  getitem ds (index_of v (voxels_of table df_filter)) = get_voxel ds v.
Proof.
  intros Hinit Hv. unfold getitem, get_voxel. f_equal.
  apply filter_ext_in. intros x Hx.
  destruct (init_rows _ _ _ _ x Hinit Hx) as (_ & -> & Hin).
  destruct (Z.eqb_spec (voxel (fst x)) v) as [E | E].
  - subst. apply Nat.eqb_refl.
  - apply Nat.eqb_neq. intros C. apply E. now apply (index_of_inj _ _ _ Hin Hv).
Qed.

(** X16.  The dense index of a dataset built by [__init__].  The position
    [i] of a voxel among the distinct voxels of the filtered table (in order of
    first appearance) addresses the rows of that voxel: [dataset[i]] is
    [get_voxel] of it, and every position below their number is the index of
    the voxel at that position.  [len(dataset)] is the number of distinct
    voxels that have a kept row: at most the number of positions, and equal
    to it when no class subset is requested; every index below the length
    then has at least one row. *)
Theorem dense_index_addresses_voxels (table : DataFrame)
    (df_filter : option (DataFrame -> DataFrame)) (cs : option (list Z))
    (ds : FirstLevelDataset) :
  Dataset.init table df_filter cs = Ok ds ->
  (forall v, In v (voxels_of table df_filter) ->
             getitem ds (index_of v (voxels_of table df_filter)) = get_voxel ds v)
  /\ (forall idx, (idx < length (voxels_of table df_filter))%nat ->
                  getitem ds idx
                  = get_voxel ds (nth idx (voxels_of table df_filter) 0%Z))
  /\ len ds = length (unique (map voxel (restrict cs (apply_filter table df_filter))))
  /\ (len ds <= length (voxels_of table df_filter))%nat
  /\ (cs = None ->
      len ds = length (voxels_of table df_filter)
      /\ forall idx, (idx < len ds)%nat -> target (getitem ds idx) <> []).
Proof.
  intros Hinit. split; [|split].
  - intros v Hv. now apply (getitem_is_get_voxel table df_filter cs).
  - intros idx H.
    rewrite <- (getitem_is_get_voxel table df_filter cs ds _ Hinit)
      by (apply nth_In; exact H).
    f_equal. symmetry. apply index_of_nth; [apply unique_NoDup | exact H].
  - assert (L : len ds
                = length (unique (map voxel
                                      (restrict cs (apply_filter table df_filter))))).
    { unfold len. rewrite <- (init_kept _ _ _ _ Hinit), map_map. reflexivity. }
    split; [exact L|]. split.
    + rewrite L. apply NoDup_incl_length; [apply unique_NoDup|].
      intros v Hv. apply (proj1 (in_unique _ _)) in Hv. unfold voxels_of.
      apply (proj2 (in_unique _ _)). apply in_map_iff in Hv.
      destruct Hv as (r & <- & Hr). apply in_map.
      destruct cs as [c|]; cbn [restrict] in Hr; [|exact Hr].
      apply filter_In in Hr. tauto.
    + intros ->. cbn [restrict] in L. split; [exact L|].
      intros idx Hidx. rewrite L in Hidx. fold (voxels_of table df_filter) in Hidx.
      assert (Hv : In (nth idx (voxels_of table df_filter) 0%Z)
                      (unique (map voxel (apply_filter table df_filter))))
        by (apply nth_In; exact Hidx).
      apply (proj1 (in_unique _ _)) in Hv. apply in_map_iff in Hv.
      destruct Hv as (r & Er & Hr).
      assert (Hx : In (r, idx) (df ds)).
      { rewrite (init_df _ _ _ _ Hinit). apply filter_In. split; [|reflexivity].
        apply in_map_iff. exists r. split; [|exact Hr]. f_equal.
        rewrite Er. apply index_of_nth; [apply unique_NoDup | exact Hidx]. }
      unfold getitem, get_single_item. cbn [target].
      assert (Hf : In (r, idx) (filter (fun x => Nat.eqb (snd x) idx) (df ds)))
        by (apply filter_In; split; [exact Hx | apply Nat.eqb_refl]).
      destruct (filter _ (df ds)); [contradiction | discriminate].
Qed.

Lemma dense_index_witness :
  exists ds,
    Dataset.init two_voxel_table None (Some [1%Z]) = Ok ds
    /\ (forall v, In v (voxels_of two_voxel_table None) ->
                  getitem ds (index_of v (voxels_of two_voxel_table None))
                  = get_voxel ds v)
    /\ len ds = 2%nat.
Proof.
  eexists. split; [reflexivity|].
  destruct (dense_index_addresses_voxels two_voxel_table None (Some [1%Z]) _ eq_refl)
    as (H1 & _ & H3 & _).
  split; [exact H1 | exact H3].
Defined.

Lemma index_of_dense n a k :
  (k < n)%nat -> index_of (Z.of_nat (a + k)) (map Z.of_nat (seq a n)) = k.
Proof.
  revert a k. induction n as [|n IH]; intros a k H; [lia|].
  cbn [seq map index_of]. destruct k as [|k].
  - replace (a + 0)%nat with a by lia. now rewrite Z.eqb_refl.
  - destruct (Z.eqb_spec (Z.of_nat (a + S k)) (Z.of_nat a)) as [E | E]; [lia|].
    f_equal. replace (a + S k)%nat with (S a + k)%nat by lia. apply IH. lia.
Qed.

(** X17.  The new column [voxel_reindexed] is a copy of [voxel] exactly when
    the distinct voxels of the filtered table, in order of first appearance,
    are 0, 1, 2, ...: under this condition every kept row carries its voxel
    label as dense index, and, when no class subset is requested, the condition
    is also necessary. *)
Theorem reindexing_copies_dense_labels (table : DataFrame)
    (df_filter : option (DataFrame -> DataFrame)) (cs : option (list Z))
    (ds : FirstLevelDataset) :
  Dataset.init table df_filter cs = Ok ds ->
  let labels := voxels_of table df_filter in
  (labels = map Z.of_nat (seq 0 (length labels)) ->
   forall x, In x (df ds) -> Z.of_nat (snd x) = voxel (fst x))
  /\ (cs = None ->
      (forall x, In x (df ds) -> Z.of_nat (snd x) = voxel (fst x)) ->
      labels = map Z.of_nat (seq 0 (length labels))).
Proof.
  intros Hinit labels. split.
  - intros E x Hx. destruct (init_rows _ _ _ _ x Hinit Hx) as (_ & -> & Hin).
    fold labels in Hin |- *. rewrite E in Hin. apply in_map_iff in Hin.
    destruct Hin as (k & Ek & Hk). apply in_seq in Hk. rewrite <- Ek, E.
    f_equal. apply (index_of_dense (length labels) 0 k). lia.
  - intros -> H. apply nth_ext with (d := 0%Z) (d' := Z.of_nat 0);
      [now rewrite length_map, length_seq|].
    intros k Hk. rewrite map_nth, seq_nth by exact Hk. cbn [Nat.add].
    assert (Hv : In (nth k labels 0%Z) (unique (map voxel (apply_filter table df_filter))))
      by (apply nth_In; exact Hk).
    apply (proj1 (in_unique _ _)) in Hv.
    apply in_map_iff in Hv. destruct Hv as (r & Er & Hr).
    assert (Hx : In (r, k) (df ds)).
    { rewrite (init_df _ _ _ _ Hinit). apply filter_In. split; [|reflexivity].
      apply in_map_iff. exists r. split; [|exact Hr]. f_equal.
      rewrite Er. apply index_of_nth; [apply unique_NoDup | exact Hk]. }
    specialize (H _ Hx). cbn [fst snd] in H. congruence.
Qed.

Lemma reindexing_witness :
  exists ds,
    Dataset.init example_table None None = Ok ds
    /\ forall x, In x (df ds) -> Z.of_nat (snd x) = voxel (fst x).
Proof.
  eexists. split; [reflexivity|].
  apply (reindexing_copies_dense_labels example_table None None _ eq_refl).
  reflexivity.
Defined.

(** ** The train and test datasets of [main] *)

Lemma main_datasets_inv table df_filter S full train test subset :
  main_datasets table df_filter S = Ok (full, train, test, subset) ->
  Dataset.init table df_filter None = Ok full
  /\ exists A B,
       Dataset.init table df_filter (Some A) = Ok train
       /\ Dataset.init table df_filter (Some B) = Ok test
       /\ subset = B
       /\ ((A = S /\ B = other_classes table S)
           \/ (A = other_classes table S /\ B = S)).
Proof.
  unfold main_datasets. fold (other_classes table S).
  destruct (Dataset.init table df_filter None) as [d|] eqn:Ed; [|discriminate].
  cbn [bind].
  destruct (Nat.ltb (length S) (length (other_classes table S))).
  - destruct (Dataset.init table df_filter (Some (other_classes table S)))
      as [a|] eqn:Ea; [|discriminate]. cbn [bind].
    destruct (Dataset.init table df_filter (Some S)) as [b|] eqn:Eb; [|discriminate].
    cbn [bind]. intros H. injection H as <- <- <- <-.
    split; [reflexivity|]. exists (other_classes table S), S. auto 10.
  - destruct (Dataset.init table df_filter (Some S)) as [a|] eqn:Ea; [|discriminate].
    cbn [bind].
    destruct (Dataset.init table df_filter (Some (other_classes table S)))
      as [b|] eqn:Eb; [|discriminate].
    cbn [bind]. intros H. injection H as <- <- <- <-.
    split; [reflexivity|]. exists S, (other_classes table S). auto 10.
Qed.

(** X18.  In the datasets that [main] builds for cross-validation, a voxel
    has one dense index: two rows taken from the full, the train or the test
    dataset carry the same [voxel_reindexed] exactly when they belong to the
    same voxel, so that batch [i] of the train loader and batch [i] of the
    test loader address the same voxels. *)
Theorem split_shares_the_dense_index (table : DataFrame)
    (df_filter : option (DataFrame -> DataFrame)) (S : list Z)
    (full train test : FirstLevelDataset) (subset : list Z) :
  main_datasets table df_filter S = Ok (full, train, test, subset) ->
  forall x y,
    In x (df full ++ df train ++ df test) ->
    In y (df full ++ df train ++ df test) ->
    (snd x = snd y <-> voxel (fst x) = voxel (fst y)).
Proof.
  intros H. destruct (main_datasets_inv _ _ _ _ _ _ _ H)
    as (Hfull & A & B & Htrain & Htest & _).
  assert (G : forall x, In x (df full ++ df train ++ df test) ->
                snd x = index_of (voxel (fst x)) (voxels_of table df_filter)
                /\ In (voxel (fst x)) (voxels_of table df_filter)).
  { intros x Hx. apply in_app_or in Hx. destruct Hx as [Hx | Hx];
      [|apply in_app_or in Hx; destruct Hx as [Hx | Hx]].
    - now destruct (init_rows _ _ _ _ x Hfull Hx) as (_ & ? & ?).
    - now destruct (init_rows _ _ _ _ x Htrain Hx) as (_ & ? & ?).
    - now destruct (init_rows _ _ _ _ x Htest Hx) as (_ & ? & ?). }
  intros x y Hx Hy. destruct (G x Hx) as [Ex Ix], (G y Hy) as [Ey Iy].
  rewrite Ex, Ey. split.
  - now apply index_of_inj.
  - now intros ->.
Qed.

Lemma split_shares_index_witness :
  exists full train test subset,
    main_datasets two_voxel_table None [1%Z] = Ok (full, train, test, subset)
    /\ forall x y,
         In x (df full ++ df train ++ df test) ->
         In y (df full ++ df train ++ df test) ->
         (snd x = snd y <-> voxel (fst x) = voxel (fst y)).
Proof.
  do 4 eexists. split; [reflexivity|].
  eapply (split_shares_the_dense_index two_voxel_table None [1%Z]). reflexivity.
Defined.

Lemma filter_negb_permutation {A : Type} (p : A -> bool) (l : list A) :
  Permutation l (filter p l ++ filter (fun x => negb (p x)) l).
Proof.
  induction l as [|x l IH]; [constructor|]. cbn [filter].
  destruct (p x); cbn [negb app].
  - now constructor.
  - now apply Permutation_cons_app.
Qed.

Lemma isin_In x l : isin x l = true <-> In x l.
Proof.
  unfold isin. rewrite existsb_exists. split.
  - intros (y & Hy & E). apply Z.eqb_eq in E. now subst.
  - intros H. exists x. split; [exact H | apply Z.eqb_refl].
Qed.

Lemma isin_other_negb table S c :
  In c (map stimulus_class table) ->
  isin c (other_classes table S) = negb (isin c S).
Proof.
  intros Hc. destruct (isin c S) eqn:E; cbn [negb].
  - destruct (isin c (other_classes table S)) eqn:F; [|reflexivity].
    apply isin_other in F. congruence.
  - apply isin_In. unfold other_classes. apply filter_In.
    split; [now apply (proj2 (in_unique _ _)) | now rewrite E].
Qed.

Lemma filter_full {A : Type} (l : list A) : filter (fun _ => true) l = l.
Proof. induction l as [|x l IH]; auto. cbn [filter]. now rewrite IH. Qed.

(** X19.  When the filter adds no stimulus class to the table, the train and
    test datasets of [main] split the rows of the full dataset: together they
    hold every row of it exactly once, and no stimulus class occurs in
    both. *)
Theorem split_partitions_the_rows (table : DataFrame)
    (df_filter : option (DataFrame -> DataFrame)) (S : list Z)
    (full train test : FirstLevelDataset) (subset : list Z) :
  main_datasets table df_filter S = Ok (full, train, test, subset) ->
  (forall r, In r (apply_filter table df_filter) ->
             In (stimulus_class r) (map stimulus_class table)) ->
  Permutation (df full) (df train ++ df test)
  /\ forall x y, In x (df train) -> In y (df test) ->
                 stimulus_class (fst x) <> stimulus_class (fst y).
Proof.
  intros H Hcls. destruct (main_datasets_inv _ _ _ _ _ _ _ H)
    as (Hfull & A & B & Htrain & Htest & _ & HAB).
  set (idx := map (fun r => (r, index_of (voxel r) (voxels_of table df_filter)))
                  (apply_filter table df_filter)).
  pose proof (init_df _ _ _ _ Hfull) as Efull. fold idx in Efull.
  pose proof (init_df _ _ _ _ Htrain) as Etrain. fold idx in Etrain.
  pose proof (init_df _ _ _ _ Htest) as Etest. fold idx in Etest.
  cbv beta iota in Efull. rewrite filter_full in Efull.
  assert (Hneg : forall x, In x idx ->
                   class_in B (fst x) = negb (class_in A (fst x))).
  { intros x Hx. unfold idx in Hx. apply in_map_iff in Hx.
    destruct Hx as (r & <- & Hr). cbn [fst]. unfold class_in.
    specialize (Hcls r Hr).
    destruct HAB as [[-> ->] | [-> ->]].
    - now apply isin_other_negb.
    - rewrite (isin_other_negb table S) by assumption. now rewrite negb_involutive. }
  split.
  - rewrite Efull, Etrain, Etest.
    rewrite (filter_ext_in _ (fun x => negb (class_in A (fst x))) idx Hneg).
    apply filter_negb_permutation.
  - intros x y Hx Hy E. rewrite Etrain in Hx. rewrite Etest in Hy.
    apply filter_In in Hx. apply filter_In in Hy.
    destruct Hx as [Hx Cx], Hy as [Hy Cy].
    rewrite (Hneg y Hy) in Cy. unfold class_in in *. rewrite <- E, Cx in Cy.
    discriminate.
Qed.

Lemma split_partitions_witness :
  exists full train test subset,
    main_datasets two_voxel_table None [1%Z] = Ok (full, train, test, subset)
    /\ Permutation (df full) (df train ++ df test)
    /\ forall x y, In x (df train) -> In y (df test) ->
                   stimulus_class (fst x) <> stimulus_class (fst y).
Proof.
  do 4 eexists. split; [reflexivity|].
  eapply (split_partitions_the_rows two_voxel_table None [1%Z]); [reflexivity|].
  intros r Hr. now apply in_map.
Defined.

(** X20.  The split of [main] raises "Dataframe is empty!", and nothing
    else, exactly when one of the two sides has no row: when no kept row has
    its class in [stimulus_class], or none has it among the other classes of
    the table (as when [stimulus_class] names every class). *)
Theorem split_raises_iff_a_side_is_empty (table : DataFrame)
    (df_filter : option (DataFrame -> DataFrame)) (S : list Z) :
  let kept := apply_filter table df_filter in
  let other := other_classes table S in
  (main_datasets table df_filter S = Raise (UsageError "Dataframe is empty!")
   <-> filter (class_in S) kept = [] \/ filter (class_in other) kept = [])
  /\ (forall e, main_datasets table df_filter S = Raise e ->
                e = UsageError "Dataframe is empty!").
Proof.
  intros kept other.
  assert (Hraise : forall e, main_datasets table df_filter S = Raise e ->
             e = UsageError "Dataframe is empty!"
             /\ (filter (class_in S) kept = [] \/ filter (class_in other) kept = [])).
  { intros e. unfold main_datasets. fold (other_classes table S). fold other.
    destruct (Dataset.init table df_filter None) as [d | e0] eqn:Ed; cbn [bind].
    - destruct (Nat.ltb (length S) (length other)).
      + destruct (Dataset.init table df_filter (Some other)) as [a | e1] eqn:Ea;
          cbn [bind].
        * destruct (Dataset.init table df_filter (Some S)) as [b | e2] eqn:Eb;
            cbn [bind]; [discriminate|].
          intros H. injection H as <-.
          destruct (init_raises _ _ _ _ Eb) as [-> F]. auto.
        * intros H. injection H as <-.
          destruct (init_raises _ _ _ _ Ea) as [-> F]. auto.
      + destruct (Dataset.init table df_filter (Some S)) as [a | e1] eqn:Ea;
          cbn [bind].
        * destruct (Dataset.init table df_filter (Some other)) as [b | e2] eqn:Eb;
            cbn [bind]; [discriminate|].
          intros H. injection H as <-.
          destruct (init_raises _ _ _ _ Eb) as [-> F]. auto.
        * intros H. injection H as <-.
          destruct (init_raises _ _ _ _ Ea) as [-> F]. auto.
    - intros H. injection H as <-.
      destruct (init_raises _ _ _ _ Ed) as [-> F]. cbn [restrict] in F.
      fold kept in F. rewrite F. auto. }
  split; [split|].
  - intros H. now apply (Hraise _ H).
  - intros Hempty.
    destruct (main_datasets table df_filter S) as [[[[d a] b] sub] | e] eqn:E.
    + exfalso. destruct (main_datasets_inv _ _ _ _ _ _ _ E)
        as (_ & A & B & Ha & Hb & _ & HAB).
      destruct (init_returns _ _ _ _ Ha) as [Na _].
      destruct (init_returns _ _ _ _ Hb) as [Nb _]. cbn [restrict] in Na, Nb.
      fold kept in Na, Nb.
      destruct HAB as [[-> ->] | [-> ->]]; fold other in Na, Nb; tauto.
    + f_equal. now apply (Hraise e).
  - intros e H. now apply (Hraise e).
Qed.

End DatasetFacts.

(* ================================================================= *)
(** * The training loops: histories, stopping and exceptions *)

Module LoopFacts.
Import Loss LossTerms LossFacts Dataset Training TrainingTerms TrainingFacts.
Import ModelTerms ModelFacts LoopTerms.

Section Histories.
Context {model_t optimizer : Type}.
Variable forward : model_t -> tensor -> tensor -> tensor -> tensor -> result tensor.
Variable adam_step :
  optimizer -> model_t -> (model_t -> result fp) -> optimizer * model_t.

Lemma batch_body_appends loss_of (st st' : loop_state model_t optimizer) :
  batch_body adam_step loss_of st = Ok st' -> exists x, snd st' = snd st ++ [x].
Proof.
  destruct st as [[opt model] losses]. unfold batch_body.
  destruct (loss_of model) as [loss|]; [|discriminate]. cbn [bind].
  destruct (isnan loss || isinf loss).
  - intros H. injection H as <-. now exists loss.
  - destruct (adam_step opt model loss_of) as [o m]. intros H. injection H as <-.
    now exists loss.
Qed.

Lemma for_each_appends {A : Type}
    (body : loop_state model_t optimizer -> A -> result (loop_state model_t optimizer))
    (l : list A) :
  (forall st a st', body st a = Ok st' -> exists x, snd st' = snd st ++ [x]) ->
  forall st st', for_each body l st = Ok st' ->
  exists new, snd st' = snd st ++ new /\ length new = length l.
Proof.
  intros Hbody. induction l as [|a l IH]; intros st st' H; cbn [for_each] in H.
  - injection H as <-. exists []. now rewrite app_nil_r.
  - destruct (body st a) as [st1|] eqn:E; [|discriminate]. cbn [bind] in H.
    destruct (Hbody _ _ _ E) as (x & Ex). destruct (IH _ _ H) as (new & En & Ln).
    exists (x :: new). rewrite En, Ex, <- app_assoc. split; [reflexivity|].
    cbn [length]. now rewrite Ln.
Qed.

Lemma batch_loop_length batches opt model opt' model' losses :
  batch_loop forward adam_step batches (opt, model, []) = Ok (opt', model', losses) ->
  length losses = length batches.
Proof.
  intros H. unfold batch_loop in H.
  destruct (for_each_appends _ batches
              (fun st b st' => batch_body_appends (train_loss forward b) st st')
              _ _ H) as (new & E & L).
  cbn [snd app] in E. now subst.
Qed.

(** What [train_epochs] returns: the epochs that it adds to the history. *)
Lemma train_epochs_inv batches th remaining :
  forall t last opt model h opt' model' h' last',
  train_epochs forward adam_step batches th remaining t last opt model h
  = Ok (opt', model', h', last') ->
  exists new,
    h' = h ++ new
    /\ (length new <= remaining)%nat
    /\ Forall (fun losses => length losses = length batches) new
    /\ last' = match new with
               | [] => last
               | _ :: _ => Some (t + length new - 1)%nat
               end
    /\ ((length new < remaining)%nat -> stagnated h' th = true).
Proof.
  induction remaining as [|r IH]; intros t last opt model h opt' model' h' last' H;
    cbn [train_epochs] in H.
  - injection H as <- <- <- <-. exists []. rewrite app_nil_r.
    repeat split; auto. cbn [length]. lia.
  - destruct (batch_loop forward adam_step batches (opt, model, []))
      as [[[o1 m1] losses]|] eqn:E; [|discriminate].
    cbn [bind] in H. pose proof (batch_loop_length _ _ _ _ _ _ E) as L.
    destruct (stagnated (h ++ [losses]) th) eqn:S.
    + injection H as <- <- <- <-. exists [losses]. repeat split; auto.
      * cbn [length]. lia.
      * cbn [length]. f_equal. lia.
    + destruct (IH _ _ _ _ _ _ _ _ _ H) as (new & E1 & E2 & E3 & E4 & E5).
      exists (losses :: new). rewrite E1, <- app_assoc. repeat split; auto.
      * cbn [length]. lia.
      * rewrite E4. destruct new; cbn [length]; f_equal; lia.
      * cbn [length]. intros Hlt. rewrite app_assoc, <- E1. apply E5. lia.
Qed.

Lemma train_model_inv model opt dataset max_epochs batch_size th batches
    model' hist t :
  DataLoader dataset batch_size = Ok batches ->
  train_model forward adam_step model opt dataset max_epochs batch_size th
  = Ok (model', hist, t) ->
  length hist = S t
  /\ (S t <= max_epochs)%nat
  /\ Forall (fun losses => length losses = length batches) hist
  /\ ((S t < max_epochs)%nat -> stagnated hist th = true).
Proof.
  intros Hdl. unfold train_model. rewrite Hdl. cbn [bind].
  destruct (train_epochs forward adam_step batches th max_epochs 0 None opt model [])
    as [[[[o m] h] last]|] eqn:E; [|discriminate].
  cbn [bind]. destruct last as [t'|]; [|discriminate].
  intros H. injection H as <- <- <-.
  destruct (train_epochs_inv _ _ _ _ _ _ _ _ _ _ _ _ E) as (new & E1 & E2 & E3 & E4 & E5).
  cbn [app] in E1. subst new. destruct h as [|l h]; [discriminate|].
  injection E4 as ->. cbn [length] in *.
  repeat split; auto; try lia. intros Hlt. apply E5. lia.
Qed.

(** X21.  What the loop of [train_model] returns.  The history has one
    list per epoch run and one loss per batch of the loader in each list; the
    epochs run are at least one and at most [max_epochs], and the epoch index
    returned is that of the last one.  The loop stops before [max_epochs] only
    when the stagnation test holds of the history returned, and never before
    four epochs have been run (or [max_epochs], if that is less). *)
Theorem training_result_invariants (model model' : model_t) (opt : optimizer)
    (dataset : FirstLevelDataset) (max_epochs batch_size : nat) (th : fp)
    (batches : list batch) (hist : list (list fp)) (t : nat) :
  DataLoader dataset batch_size = Ok batches ->
  train_model forward adam_step model opt dataset max_epochs batch_size th
  = Ok (model', hist, t) ->
  length hist = S t
  /\ (S t <= max_epochs)%nat
  /\ Forall (fun losses => length losses = length batches) hist
  /\ ((length hist < max_epochs)%nat -> stagnated hist th = true)
  /\ (Nat.min 4 max_epochs <= length hist)%nat.
Proof.
  intros Hdl H.
  destruct (train_model_inv _ _ _ _ _ _ _ _ _ _ Hdl H) as (A & B & C & D).
  rewrite A. repeat split; auto.
  destruct (Nat.lt_ge_cases (S t) max_epochs) as [Hlt | Hge]; [|lia].
  specialize (D Hlt). unfold stagnated in D.
  destruct (Nat.ltb_spec 3 (length hist)); [lia | discriminate].
Qed.

(** X22.  With [max_epochs = 0] the loops run no epoch and the epoch index
    handed to [construct_dfs] is unbound: [train_model] and
    [train_model_traintest] raise a [NameError] once the loaders are built. *)
Theorem no_epoch_raises_name_error (model : model_t) (opt : optimizer)
    (dataset test_dataset : FirstLevelDataset) (batch_size : nat) (th : fp)
    (batches test_batches : list batch) :
  DataLoader dataset batch_size = Ok batches ->
  DataLoader test_dataset batch_size = Ok test_batches ->
  train_model forward adam_step model opt dataset 0 batch_size th = Raise NameError
  /\ train_model_traintest forward adam_step model opt dataset test_dataset 0
       batch_size th = Raise NameError.
Proof.
  intros H1 H2. unfold train_model, train_model_traintest. rewrite H1, H2.
  split; reflexivity.
Qed.
End Histories.

Section CrossValidation.
Context {model_t optimizer : Type}.
Variable forward : model_t -> tensor -> tensor -> tensor -> tensor -> result tensor.
Variable adam_step :
  optimizer -> model_t -> (model_t -> result fp) -> optimizer * model_t.

Lemma sequence_length {A : Type} (l : list (result A)) (bs : list A) :
  sequence l = Ok bs -> length bs = length l.
Proof.
  revert bs. induction l as [|r l IH]; intros bs H; cbn [sequence] in H.
  - now injection H as <-.
  - destruct r as [a|]; [|discriminate]. cbn [bind] in H.
    destruct (sequence l) as [bs'|]; [|discriminate]. cbn [bind] in H.
    injection H as <-. cbn [length]. f_equal. now apply IH.
Qed.

Lemma traintest_epochs_inv train test train_batches test_batches th remaining :
  forall t last opt model trh teh opt' model' trh' teh' last',
  traintest_epochs forward adam_step train test train_batches test_batches th
    remaining t last opt model trh teh = Ok (opt', model', trh', teh', last') ->
  exists new_train new_test,
    trh' = trh ++ new_train /\ teh' = teh ++ new_test
    /\ length new_train = length new_test
    /\ Forall (fun losses =>
                 length losses = Nat.min (length train_batches) (length test_batches))
              new_train
    /\ Forall (fun losses =>
                 length losses
                 = length (unique (map (fun r => voxel (fst r)) (df test))))
              new_test
    /\ last' = match new_train with
               | [] => last
               | _ :: _ => Some (t + length new_train - 1)%nat
               end.
Proof.
  induction remaining as [|r IH];
    intros t last opt model trh teh opt' model' trh' teh' last' H;
    cbn [traintest_epochs] in H.
  - injection H as <- <- <- <- <-. exists [], []. rewrite !app_nil_r.
    repeat split; auto.
  - match type of H with
    | bind ?e _ = _ => destruct e as [[[o1 m1] losses]|] eqn:E; [|discriminate]
    end.
    cbn [bind] in H.
    match type of H with
    | bind ?e _ = _ => destruct e as [test_losses|] eqn:E'; [|discriminate]
    end.
    cbn [bind] in H.
    assert (L : length losses = Nat.min (length train_batches) (length test_batches)).
    { assert (Hbody : forall (st : loop_state model_t optimizer)
                             (a : batch * batch) st',
                 (let '(train_stuff, test_stuff) := a in
                  batch_body adam_step
                    (traintest_loss forward train_stuff test_stuff) st) = Ok st' ->
                 exists x, snd st' = snd st ++ [x]).
      { intros st [tr te] st'. apply batch_body_appends. }
      destruct (for_each_appends _ (combine train_batches test_batches) Hbody _ _ E)
        as (new & En & Ln).
      cbn [snd app] in En. subst new. now rewrite Ln, length_combine. }
    assert (L' : length test_losses
                 = length (unique (map (fun r => voxel (fst r)) (df test)))).
    { apply sequence_length in E'. now rewrite length_map in E'. }
    destruct (stagnated (trh ++ [losses]) th).
    + injection H as <- <- <- <- <-. exists [losses], [test_losses].
      repeat split; auto. cbn [length]. f_equal. lia.
    + destruct (IH _ _ _ _ _ _ _ _ _ _ _ H)
        as (ntr & nte & E1 & E2 & E3 & E4 & E5 & E6).
      exists (losses :: ntr), (test_losses :: nte).
      rewrite E1, E2, <- !app_assoc. repeat split; auto.
      * cbn [length]. now rewrite E3.
      * rewrite E6. destruct ntr; cbn [length]; f_equal; lia.
Qed.

(** X23.  [train_model_traintest] returns two histories with one list per
    epoch run each.  The loop over [zip(train_dataloader, test_dataloader)]
    stops at the shorter loader, so an epoch records as many train losses as
    the shorter loader has batches; it records one held-out loss per voxel of
    the test dataset. *)
Theorem traintest_history_shape (model model' : model_t) (opt : optimizer)
    (train test : FirstLevelDataset) (max_epochs batch_size : nat) (th : fp)
    (train_batches test_batches : list batch)
    (train_history test_history : list (list fp)) (t : nat) :
  DataLoader train batch_size = Ok train_batches ->
  DataLoader test batch_size = Ok test_batches ->
  train_model_traintest forward adam_step model opt train test max_epochs
    batch_size th = Ok (model', train_history, test_history, t) ->
  length train_history = S t /\ length test_history = S t
  /\ Forall (fun losses =>
               length losses = Nat.min (length train_batches) (length test_batches))
            train_history
  /\ Forall (fun losses =>
               length losses
               = length (unique (map (fun r => voxel (fst r)) (df test))))
            test_history.
Proof.
  intros H1 H2. unfold train_model_traintest. rewrite H1, H2. cbn [bind].
  match goal with
  | |- bind ?e _ = _ -> _ => destruct e as [[[[[o m] trh] teh] last]|] eqn:E;
                             [|discriminate]
  end.
  cbn [bind]. destruct last as [t'|]; [|discriminate].
  intros H. injection H as <- <- <- <-.
  destruct (traintest_epochs_inv _ _ _ _ _ _ _ _ _ _ _ _ _ _ _ _ _ E)
    as (ntr & nte & E1 & E2 & E3 & E4 & E5 & E6).
  cbn [app] in E1, E2. subst ntr nte. destruct trh as [|l trh]; [discriminate|].
  injection E6 as ->. cbn [length] in *. repeat split; auto; lia.
Qed.
End CrossValidation.

Lemma traintest_history_witness :
  length [[NaN]] = 1%nat /\ length [[NaN]] = 1%nat
  /\ Forall (fun losses => length losses = Nat.min 2 1) [[NaN]]
  /\ Forall (fun losses =>
               length losses
               = length (unique (map (fun r => voxel (fst r)) (df nan_test))))
            [[NaN]].
Proof.
  assert (E1 : exists b1 b2, DataLoader nan_train 1 = Ok [b1; b2])
    by (do 2 eexists; reflexivity).
  assert (E2 : exists b, DataLoader nan_test 1 = Ok [b])
    by (eexists; reflexivity).
  destruct E1 as (b1 & b2 & E1), E2 as (b & E2).
  apply (traintest_history_shape echo no_step tt tt tt nan_train nan_test 1 1
           (Fin 1e-8) [b1; b2] [b] [[NaN]] [[NaN]] 0 E1 E2).
  reflexivity.
Defined.

Lemma one_epoch_example :
  train_model echo no_step tt tt example_dataset 1 1 (Fin 1e-8)
  = Ok (tt, [[Fin 0]], 0%nat).
Proof.
  unfold train_model. rewrite example_dataloader. cbn [bind train_epochs].
  rewrite example_epoch. cbn [bind app]. rewrite stagnated_short by (cbn; lia).
  reflexivity.
Qed.

Lemma training_result_witness :
  length [[Fin 0]] = 1%nat
  /\ (1 <= 1)%nat
  /\ Forall (fun losses => length losses = length [example_batch]) [[Fin 0]]
  /\ ((length [[Fin 0]] < 1)%nat -> stagnated [[Fin 0]] (Fin 1e-8) = true)
  /\ (Nat.min 4 1 <= length [[Fin 0]])%nat.
Proof.
  exact (training_result_invariants echo no_step tt tt tt example_dataset 1 1
           (Fin 1e-8) [example_batch] [[Fin 0]] 0 example_dataloader
           one_epoch_example).
Defined.

Lemma no_epoch_witness :
  train_model echo no_step tt tt example_dataset 0 1 (Fin 1e-8) = Raise NameError
  /\ train_model_traintest echo no_step tt tt example_dataset example_dataset 0 1
       (Fin 1e-8) = Raise NameError.
Proof.
  exact (no_epoch_raises_name_error echo no_step tt tt example_dataset example_dataset
           1 (Fin 1e-8) [example_batch] [example_batch] example_dataloader
           example_dataloader).
Defined.

(** ** Training a [LogGaussianDonut] raises nothing *)

Lemma stack_inv vs a :
  stack vs = Ok a ->
  a = T2 vs /\ Forall (fun u => length u = length (hd [] vs)) vs.
Proof.
  unfold stack. destruct vs as [|v vs']; [intros H; injection H as <-; auto|].
  destruct (forallb _ (v :: vs')) eqn:F; [|discriminate].
  intros H. injection H as <-. split; [reflexivity|].
  rewrite forallb_forall in F. apply Forall_forall. intros u Hu.
  apply Nat.eqb_eq. now apply F.
Qed.

Lemma stacked_column (f : row -> fp) (rowss : list (list (row * nat))) a :
  stack (map (fun rows => map (fun r => f (fst r)) rows) rowss) = Ok a ->
  matrix (length rowss) (length (hd [] rowss)) a.
Proof.
  intros H. apply stack_inv in H. destruct H as [-> F].
  eexists. split; [reflexivity|]. split; [apply length_map|].
  destruct rowss as [|rows rowss]; [constructor|].
  cbn [map hd] in *. rewrite length_map in F. exact F.
Qed.

Lemma collate_shape (rowss : list (list (row * nat))) (b : batch) :
  collate (map get_single_item rowss) = Ok b -> well_shaped b.
Proof.
  unfold collate. rewrite !map_map. unfold get_single_item.
  cbn [sf_mag sf_angle vox_ecc vox_angle target item_precision].
  repeat match goal with
    | |- bind (stack ?x) _ = _ -> _ =>
        let E := fresh "E" in
        destruct (stack x) eqn:E; [cbn [bind] | discriminate]
    end.
  intros H. injection H as <-.
  exists (length rowss), (length (hd [] rowss)).
  cbn [b_sf_mag b_sf_angle b_vox_ecc b_vox_angle b_target b_precision].
  repeat split; eapply stacked_column; eassumption.
Qed.

Lemma sequence_Forall {A : Type} (P : A -> Prop) (l : list (result A)) (bs : list A) :
  (forall r b, In r l -> r = Ok b -> P b) ->
  sequence l = Ok bs -> Forall P bs.
Proof.
  revert bs. induction l as [|r l IH]; intros bs HP H; cbn [sequence] in H.
  - injection H as <-. constructor.
  - destruct r as [a|]; [|discriminate]. cbn [bind] in H.
    destruct (sequence l) as [bs'|]; [|discriminate]. cbn [bind] in H.
    injection H as <-. constructor.
    + apply (HP (Ok a)); [now left | reflexivity].
    + apply IH; auto. intros r b Hr. apply HP. now right.
Qed.

Lemma loader_batches_well_shaped dataset batch_size batches :
  DataLoader dataset batch_size = Ok batches -> Forall well_shaped batches.
Proof.
  unfold DataLoader. destruct batch_size as [|n]; [discriminate|].
  apply sequence_Forall. intros r b Hr ->. apply in_map_iff in Hr.
  destruct Hr as (idxs & E & _). unfold getitem in E. rewrite <- map_map in E.
  now apply collate_shape in E.
Qed.

Lemma matrix_fits r c a : matrix r c a -> fits (Matrix r c) a /\ is_scalar a = false.
Proof. intros (m & -> & L & F). simpl. auto. Qed.

Lemma forward_shape self b :
  well_shaped b ->
  exists r c out,
    call LogGaussianDonut.forward self b = Ok out
    /\ matrix r c out /\ matrix r c (b_target b) /\ matrix r c (b_precision b).
Proof.
  intros (r & c & Hm & Ha & He & Hv & Ht & Hp). exists r, c.
  destruct (matrix_fits _ _ _ Hm) as [Fm Sm], (matrix_fits _ _ _ Ha) as [Fa Sa],
    (matrix_fits _ _ _ He) as [Fe Se], (matrix_fits _ _ _ Hv) as [Fv Sv].
  destruct (evaluate_pointwise (Matrix r c) self _ _ _ _ Fm Fa Fe Fv)
    as (out & E & Fo & So & _).
  exists out. split; [exact E|]. split; [|auto].
  rewrite Sm in So. cbn [andb] in So.
  destruct out as [x | u | m]; try discriminate; simpl in Fo; [contradiction|].
  exists m. tauto.
Qed.

Lemma rows_over_column f (g : list fp -> fp) m :
  broadcast2 f m (map (fun row => [g row]) m)
  = Ok (map (fun row => map (fun x => f x (g row)) row) m).
Proof.
  unfold broadcast2. rewrite <- (map_id m) at 1.
  apply broadcast_map. intros row _. apply broadcast1_right.
Qed.

Lemma fst_combine {A B : Type} (l : list A) (l' : list B) :
  length l = length l' -> map fst (combine l l') = l.
Proof.
  revert l'. induction l as [|x l IH]; intros [|y l'] L; try discriminate; auto.
  cbn [combine map fst]. f_equal. apply IH. simpl in L. lia.
Qed.

Lemma snd_combine {A B : Type} (l : list A) (l' : list B) :
  length l = length l' -> map snd (combine l l') = l'.
Proof.
  revert l'. induction l as [|x l IH]; intros [|y l'] L; try discriminate; auto.
  cbn [combine map snd]. f_equal. apply IH. simpl in L. lia.
Qed.

Lemma column_over_rows f (g : list fp -> fp) w m :
  length w = length m ->
  broadcast2 f (map (fun row => [g row]) w) m
  = Ok (map (fun p => map (f (g (fst p))) (snd p)) (combine w m)).
Proof.
  intros L. unfold broadcast2.
  rewrite <- (fst_combine w m L) at 1. rewrite <- (snd_combine w m L) at 2.
  rewrite map_map. apply broadcast_map. intros p _. apply broadcast1_left.
Qed.

Lemma normalized_shape r c (g : list fp -> fp) m :
  length m = r -> Forall (fun row => length row = c) m ->
  length (map (fun row => map (fun x => fdiv x (g row)) row) m) = r
  /\ Forall (fun row => length row = c)
            (map (fun row => map (fun x => fdiv x (g row)) row) m).
Proof.
  intros L F. split; [now rewrite length_map|].
  apply Forall_map. eapply Forall_impl; [|exact F].
  intros row H. now rewrite length_map.
Qed.

(** On matrices of one shape, with one row of precisions per voxel, the loss
    is computed without an exception. *)
Lemma loss_total r c c' P T W :
  matrix r c P -> matrix r c T -> matrix r c' W ->
  exists loss, weighted_normed_loss P T W None None = Ok loss.
Proof.
  intros (p & -> & Lp & Fp) (t & -> & Lt & Ft) (w & -> & Lw & _).
  unfold weighted_normed_loss.
  assert (G : exists p',
             (if contains_zero (norm_last (T2 p))
              then (Ok (T2 p) * num 1e100)%torch else Ok (T2 p)) = Ok (T2 p')
             /\ length p' = r /\ Forall (fun row => length row = c) p').
  { destruct (contains_zero (norm_last (T2 p))).
    - eexists. split; [reflexivity|]. split; [now rewrite length_map|].
      now apply Forall_map_length.
    - exists p. auto. }
  destruct G as (p' & -> & Lp' & Fp'). cbn [bind]. unfold rbin, rmap.
  cbn [bind norm_last mean_last tbin].
  rewrite !rows_over_column. cbn [bind tbin].
  destruct (normalized_shape r c fnorm p' Lp' Fp') as [L1 F1].
  destruct (normalized_shape r c fnorm t Lt Ft) as [L2 F2].
  rewrite (broadcast2_same fsub c) by (auto; congruence). cbn [bind tmap tbin].
  rewrite column_over_rows.
  - cbn [bind]. eexists. reflexivity.
  - rewrite length_map.
    destruct (zip_rows_fits fsub c _ _ (eq_trans L1 (eq_sym L2)) F1 F2) as [Z _].
    rewrite Z, L1. exact Lw.
Qed.

Section Total.
Context {optimizer : Type}.
Variable adam_step :
  optimizer -> LogGaussianDonut.t -> (LogGaussianDonut.t -> result fp)
  -> optimizer * LogGaussianDonut.t.

Lemma train_loss_total self b :
  well_shaped b -> exists loss, train_loss LogGaussianDonut.forward b self = Ok loss.
Proof.
  intros Hb. destruct (forward_shape self b Hb) as (r & c & out & E & Ho & Ht & Hp).
  unfold train_loss. rewrite E. cbn [bind]. now apply (loss_total r c c).
Qed.

Lemma batch_loop_total batches :
  Forall well_shaped batches ->
  forall st, exists st',
    batch_loop LogGaussianDonut.forward adam_step batches st = Ok st'.
Proof.
  unfold batch_loop. induction 1 as [|b batches Hb _ IH]; intros st; cbn [for_each].
  - eexists. reflexivity.
  - destruct st as [[opt self] losses]. unfold batch_body at 1.
    destruct (train_loss_total self b Hb) as (loss & ->). cbn [bind].
    destruct (isnan loss || isinf loss); [cbn [bind]; apply IH|].
    destruct (adam_step opt self _) as [o m]. cbn [bind]. apply IH.
Qed.

Lemma train_epochs_total batches th :
  Forall well_shaped batches ->
  forall remaining t last opt self h,
  exists opt' self' h' last',
    train_epochs LogGaussianDonut.forward adam_step batches th remaining t last
      opt self h = Ok (opt', self', h', last')
    /\ (last' = None -> last = None /\ remaining = 0%nat).
Proof.
  intros Hb. induction remaining as [|r IH]; intros t last opt self h;
    cbn [train_epochs].
  - do 4 eexists. split; [reflexivity | auto].
  - destruct (batch_loop_total batches Hb (opt, self, [])) as ([[o m] l] & ->).
    cbn [bind]. destruct (stagnated _ th).
    + do 4 eexists. split; [reflexivity | discriminate].
    + destruct (IH (S t) (Some t) o m (h ++ [l])) as (o' & m' & h' & last' & E & N).
      do 4 eexists. split; [exact E|]. intros ->. destruct (N eq_refl). discriminate.
Qed.

(** X24.  Training a [LogGaussianDonut] raises no exception: whenever the
    loader can batch the dataset and at least one epoch is allowed,
    [train_model] returns a model, a history and an epoch index, whatever the
    initial model, the data values, the threshold and the steps that the
    optimizer takes. *)
Theorem training_a_donut_never_raises (self : LogGaussianDonut.t) (opt : optimizer)
    (dataset : FirstLevelDataset) (max_epochs batch_size : nat) (th : fp)
    (batches : list batch) :
  DataLoader dataset batch_size = Ok batches ->
  (0 < max_epochs)%nat ->
  exists self' hist t,
    train_model LogGaussianDonut.forward adam_step self opt dataset max_epochs
      batch_size th = Ok (self', hist, t).
Proof.
  intros Hdl Hpos. unfold train_model. rewrite Hdl. cbn [bind].
  destruct (train_epochs_total batches th (loader_batches_well_shaped _ _ _ Hdl)
              max_epochs 0%nat None opt self [])
    as (o' & m' & h' & last' & -> & N).
  cbn [bind]. destruct last' as [t|].
  - do 3 eexists. reflexivity.
  - destruct (N eq_refl). lia.
Qed.
End Total.

Lemma training_a_donut_witness :
  exists self' hist t,
    train_model LogGaussianDonut.forward nudge example_model tt example_dataset 3 1
      (Fin 1e-8) = Ok (self', hist, t).
Proof.
  apply (training_a_donut_never_raises nudge example_model tt example_dataset 3 1
           (Fin 1e-8) [example_batch] example_dataloader). lia.
Defined.

End LoopFacts.

(* ================================================================= *)
(** * The table filters and the reading of the command line *)

Module FilterFacts.
Import Filters FilterTerms.

Lemma filter_filter {A : Type} (f g : A -> bool) (l : list A) :
  filter f (filter g l) = filter (fun x => g x && f x) l.
Proof.
  induction l as [|x l IH]; auto. cbn [filter].
  destruct (g x); cbn [filter andb]; [destruct (f x)|]; now rewrite IH.
Qed.

Lemma filter_absorb {A : Type} (f g : A -> bool) (l : list A) :
  (forall x, In x l -> f x = true -> g x = true) ->
  filter f (filter g l) = filter f l.
Proof.
  intros H. rewrite filter_filter. apply filter_ext_in. intros x Hx.
  destruct (f x) eqn:F; [now rewrite (H x Hx F) | apply andb_false_r].
Qed.

Lemma filter_all {A : Type} (f : A -> bool) (l : list A) :
  (forall x, f x = true) -> filter f l = l.
Proof.
  intros H. induction l as [|x l IH]; auto. cbn [filter]. now rewrite H, IH.
Qed.

Section Table.
Variable Row : Type.
Variable voxel : Row -> Z.
Variable amplitude_estimate_normed : Row -> fp.
Variable eccen : Row -> fp.
Variable sigma : Row -> fp.

Lemma group_same r r' (df : list Row) :
  voxel r' = voxel r -> group voxel r' df = group voxel r df.
Proof. intros E. unfold group. now rewrite E. Qed.

Lemma groupby_unfold (p : list Row -> bool) (df : list Row) :
  groupby_voxel_filter voxel p df = filter (fun r => p (group voxel r df)) df.
Proof. reflexivity. Qed.

(** Filtering by voxel leaves the voxels that pass as they were. *)
Lemma group_after (p : list Row -> bool) (df : list Row) r :
  p (group voxel r df) = true ->
  group voxel r (groupby_voxel_filter voxel p df) = group voxel r df.
Proof.
  intros H. rewrite groupby_unfold. unfold group at 1 3. apply filter_absorb.
  intros r' _ E. apply Z.eqb_eq in E. now rewrite (group_same r r' df E).
Qed.

Lemma groupby_twice (p q : list Row -> bool) (df : list Row) :
  groupby_voxel_filter voxel q (groupby_voxel_filter voxel p df)
  = groupby_voxel_filter voxel (fun x => p x && q x) df.
Proof.
  rewrite (groupby_unfold q), (groupby_unfold (fun x => p x && q x)).
  set (once := groupby_voxel_filter voxel p df).
  transitivity (filter (fun r => q (group voxel r once))
                       (filter (fun r => p (group voxel r df)) df));
    [reflexivity|].
  rewrite filter_filter. subst once.
  apply filter_ext_in. intros r _. cbv beta.
  destruct (p (group voxel r df)) eqn:P; [|reflexivity]. cbn [andb].
  now rewrite group_after.
Qed.

(** [reduce_num_voxels] is a filter by voxel too. *)
Lemma reduce_is_groupby (df : list Row) n :
  reduce_num_voxels voxel df n
  = groupby_voxel_filter voxel
      (fun x => forallb (fun r => Z.ltb (voxel r) n) x) df.
Proof.
  rewrite groupby_unfold. unfold reduce_num_voxels. apply filter_ext_in.
  intros r Hr. destruct (Z.ltb (voxel r) n) eqn:E; symmetry.
  - apply forallb_forall. intros r' Hr'. apply filter_In in Hr'.
    destruct Hr' as [_ V]. apply Z.eqb_eq in V. now rewrite V.
  - destruct (forallb _ (group voxel r df)) eqn:F; [|reflexivity].
    rewrite forallb_forall in F. rewrite <- E. symmetry. apply F.
    apply filter_In. split; [exact Hr | apply Z.eqb_refl].
Qed.

(** Every collected function filters by voxel, with a test of its own. *)
Lemma call_is_groupby n_voxels func (df : list Row) :
  call_filter voxel amplitude_estimate_normed eccen sigma n_voxels func df
  = groupby_voxel_filter voxel
      (test_of voxel amplitude_estimate_normed eccen sigma n_voxels func) df.
Proof.
  destruct func; cbn [call_filter test_of].
  - reflexivity.
  - unfold drop_voxels_near_border. apply groupby_twice.
  - destruct n_voxels as [n|]; [apply reduce_is_groupby|].
    symmetry. unfold groupby_voxel_filter. now apply filter_all.
Qed.

Lemma groupby_keeps_whole_voxels (p : list Row -> bool) (df : list Row) r r' :
  In r df -> In r' df -> voxel r = voxel r' ->
  (In r (groupby_voxel_filter voxel p df) <-> In r' (groupby_voxel_filter voxel p df)).
Proof.
  intros Hr Hr' E. rewrite groupby_unfold, !filter_In.
  rewrite (group_same r' r df E). tauto.
Qed.

Lemma groupby_idempotent (p : list Row -> bool) (df : list Row) :
  groupby_voxel_filter voxel p (groupby_voxel_filter voxel p df)
  = groupby_voxel_filter voxel p df.
Proof.
  rewrite groupby_twice, !groupby_unfold. apply filter_ext. intros r.
  now destruct (p _).
Qed.

Lemma groupby_forall (c : Row -> bool) (df : list Row) r :
  In r (groupby_voxel_filter voxel (fun x => forallb c x) df) <->
  In r df /\ forall r', In r' df -> voxel r' = voxel r -> c r' = true.
Proof.
  rewrite groupby_unfold, filter_In, forallb_forall. unfold group. split.
  - intros [Hr H]. split; [exact Hr|]. intros r' Hr' E. apply H.
    apply filter_In. split; [exact Hr' | now apply Z.eqb_eq].
  - intros [Hr H]. split; [exact Hr|]. intros r' Hr'. apply filter_In in Hr'.
    destruct Hr' as [Hr' E]. apply H; [exact Hr' | now apply Z.eqb_eq].
Qed.

(** X25.  [drop_voxels_with_negative_amplitudes] drops whole voxels: a row
    is kept exactly when no row of its voxel has a negative (or NaN)
    amplitude, so that a voxel keeps all of its rows or none, no kept row has
    a negative amplitude, and filtering again changes nothing. *)
Theorem negative_amplitude_voxels_are_dropped_whole (df : list Row) :
  let kept := drop_voxels_with_negative_amplitudes voxel amplitude_estimate_normed df in
  (forall r, In r kept <->
             In r df /\ forall r', In r' df -> voxel r' = voxel r ->
                                   fleb (Fin 0) (amplitude_estimate_normed r') = true)
  /\ (forall r r', In r df -> In r' df -> voxel r = voxel r' ->
                   (In r kept <-> In r' kept))
  /\ (forall r, In r kept -> fleb (Fin 0) (amplitude_estimate_normed r) = true)
  /\ drop_voxels_with_negative_amplitudes voxel amplitude_estimate_normed kept = kept.
Proof.
  intros kept. unfold kept, drop_voxels_with_negative_amplitudes.
  split; [|split; [|split]].
  - intros r. apply groupby_forall.
  - intros r r'. apply groupby_keeps_whole_voxels.
  - intros r Hr. apply groupby_forall in Hr. destruct Hr as [Hr H]. now apply H.
  - apply groupby_idempotent.
Qed.

Lemma forallb_andb {A : Type} (f g : A -> bool) (l : list A) :
  forallb f l && forallb g l = forallb (fun x => f x && g x) l.
Proof.
  induction l as [|x l IH]; auto. cbn [forallb]. rewrite <- IH.
  destruct (f x), (g x), (forallb f l), (forallb g l); reflexivity.
Qed.

(** X26.  [drop_voxels_near_border], which filters twice, keeps the voxels
    that a single pass with both conditions keeps: a row is kept exactly when
    every row of its voxel has its pRF centre at least one [sigma] inside
    both borders, and then satisfies both conditions itself. *)
Theorem border_filter_in_one_pass (df : list Row) (inner_border outer_border : fp) :
  let inside r :=
    fleb (fadd (eccen r) (sigma r)) outer_border
    && fleb inner_border (fsub (eccen r) (sigma r)) in
  let kept := drop_voxels_near_border voxel eccen sigma df inner_border outer_border in
  kept = groupby_voxel_filter voxel (fun x => forallb inside x) df
  /\ (forall r, In r kept <->
                In r df /\ forall r', In r' df -> voxel r' = voxel r ->
                                      inside r' = true)
  /\ (forall r, In r kept ->
                fleb (fadd (eccen r) (sigma r)) outer_border = true
                /\ fleb inner_border (fsub (eccen r) (sigma r)) = true).
Proof.
  intros inside kept.
  assert (E : kept = groupby_voxel_filter voxel (fun x => forallb inside x) df).
  { unfold kept, drop_voxels_near_border. rewrite groupby_twice, !groupby_unfold.
    apply filter_ext. intros r. apply forallb_andb. }
  split; [exact E|]. rewrite E. split.
  - intros r. apply groupby_forall.
  - intros r Hr. apply groupby_forall in Hr. destruct Hr as [Hr H].
    apply andb_prop. now apply H.
Qed.

Lemma call_filter_commute (n_voxels : option Z) (f g : df_filter_t)
    (df : list Row) :
  call_filter voxel amplitude_estimate_normed eccen sigma n_voxels f
    (call_filter voxel amplitude_estimate_normed eccen sigma n_voxels g df)
  = call_filter voxel amplitude_estimate_normed eccen sigma n_voxels g
      (call_filter voxel amplitude_estimate_normed eccen sigma n_voxels f df).
Proof.
  rewrite !call_is_groupby, !groupby_twice, !groupby_unfold.
  apply filter_ext. intros r. apply andb_comm.
Qed.

(** X27.  For one value of the variable [n_voxels], the collected filters
    commute: applying two of them in either order gives the same table, and
    so does applying the functions of a list in any order. *)
Theorem chained_filters_commute (n_voxels : option Z) (f g : df_filter_t)
    (fs gs : list df_filter_t) (df : list Row) :
  Permutation fs gs ->
  call_filter voxel amplitude_estimate_normed eccen sigma n_voxels f
    (call_filter voxel amplitude_estimate_normed eccen sigma n_voxels g df)
  = call_filter voxel amplitude_estimate_normed eccen sigma n_voxels g
      (call_filter voxel amplitude_estimate_normed eccen sigma n_voxels f df)
  /\ fold_left (fun o func =>
                  call_filter voxel amplitude_estimate_normed eccen sigma n_voxels
                    func o) fs df
     = fold_left (fun o func =>
                    call_filter voxel amplitude_estimate_normed eccen sigma n_voxels
                      func o) gs df.
Proof.
  intros Hperm. split; [apply call_filter_commute|].
  revert df. induction Hperm as [|x l l' _ IH | x y l | l l' l'' _ IH1 _ IH2];
    intros df; cbn [fold_left].
  - reflexivity.
  - apply IH.
  - now rewrite call_filter_commute.
  - now rewrite IH1.
Qed.

(** ** [construct_df_filter] *)

Variable int : string -> option Z.

Lemma split_nonempty sep s : split sep s <> [].
Proof.
  destruct s as [|c s]; cbn [split]; [discriminate|].
  destruct (Ascii.eqb c sep); [discriminate|]. destruct (split sep s); discriminate.
Qed.

Lemma bound_entry_tests f :
  String.prefix "reduce_num_voxels:" f = true ->
  String.eqb f "drop_voxels_with_negative_amplitudes" = false
  /\ String.eqb f "drop_voxels_near_border" = false
  /\ String.eqb f "None" || String.eqb f "none" = false.
Proof.
  destruct f as [|c f]; [discriminate|]. cbn [String.prefix].
  destruct (ascii_dec "r" c) as [<- | _]; [|discriminate]. intros _.
  repeat split; reflexivity.
Qed.

(** One turn of the loop on an entry that names a filter. *)
Lemma collect_step f pieces df_filters n_voxels :
  names_filter int f ->
  exists func n',
    collect int (f :: pieces) df_filters n_voxels
    = collect int pieces (df_filters ++ [func]) n'
    /\ (bounds_voxels int f ->
        func = reduce_lambda /\ int (last (split ":" f) EmptyString) = n'
        /\ n' <> None).
Proof.
  intros [-> | [-> | [P (n & E)]]].
  - exists negative_amplitudes_filter, n_voxels. split; [reflexivity|].
    intros [C _]. discriminate.
  - exists near_border_filter, n_voxels. split; [reflexivity|].
    intros [C _]. discriminate.
  - exists reduce_lambda, (Some n). destruct (bound_entry_tests f P) as (T1 & T2 & T3).
    cbn [collect]. rewrite T1, T2, T3, P, E. split; [reflexivity|].
    intros _. repeat split; auto. discriminate.
Qed.

Lemma collect_names pre rest :
  Forall (names_filter int) pre ->
  forall df_filters n_voxels,
  exists added n',
    collect int (pre ++ rest) df_filters n_voxels
    = collect int rest (df_filters ++ added) n'
    /\ length added = length pre.
Proof.
  induction 1 as [|f pre Hf _ IH]; intros fs n.
  - exists [], n. now rewrite app_nil_r.
  - destruct (collect_step f (pre ++ rest) fs n Hf) as (func & n1 & E & _).
    destruct (IH (fs ++ [func]) n1) as (added & n' & E' & L).
    exists (func :: added), n'. cbn [app]. rewrite E, E', <- app_assoc.
    split; [reflexivity|]. cbn [length]. now rewrite L.
Qed.

(** X28.  [construct_df_filter] reads the entries of the string from the
    left and stops at the first one that names no filter: at [None] or [none]
    it returns no filter, dropping the filters read so far and not looking at
    the entries that follow; at a [reduce_num_voxels:] whose number [int]
    refuses it raises a [ValueError]; at any other entry it raises "Don't
    know what to do with df_filter" with that entry. *)
Theorem construct_stops_at_first_non_filter (s : string) (pre post : list string)
    (f : string) :
  split "," s = pre ++ f :: post ->
  Forall (names_filter int) pre ->
  ((f = "None"%string \/ f = "none"%string) ->
   construct_df_filter voxel amplitude_estimate_normed eccen sigma int s = inl None)
  /\ (String.prefix "reduce_num_voxels:" f = true ->
      int (last (split ":" f) EmptyString) = None ->
      construct_df_filter voxel amplitude_estimate_normed eccen sigma int s
      = inr ValueError)
  /\ (unknown_entry f ->
      construct_df_filter voxel amplitude_estimate_normed eccen sigma int s
      = inr (Exception ("Don't know what to do with df_filter " ++ f))).
Proof.
  intros Hs Hpre. unfold construct_df_filter. rewrite Hs.
  destruct (collect_names pre (f :: post) Hpre [] None) as (added & n' & -> & _).
  cbn [collect app]. split; [|split].
  - intros [-> | ->]; reflexivity.
  - intros P E. destruct (bound_entry_tests f P) as (T1 & T2 & T3).
    now rewrite T1, T2, T3, P, E.
  - intros (U1 & U2 & U3 & U4 & U5).
    apply String.eqb_neq in U1, U2, U3, U4. now rewrite U1, U2, U3, U4, U5.
Qed.

Lemma collect_bounds pre rest :
  Forall (bounds_voxels int) pre ->
  forall df_filters n_voxels,
  exists n',
    collect int (pre ++ rest) df_filters n_voxels
    = collect int rest (df_filters ++ repeat reduce_lambda (length pre)) n'.
Proof.
  induction 1 as [|f pre Hf _ IH]; intros fs n.
  - exists n. cbn [length repeat app]. now rewrite app_nil_r.
  - assert (Hn : names_filter int f) by (right; right; exact Hf).
    destruct (collect_step f (pre ++ rest) fs n Hn) as (func & n1 & E & B).
    destruct (B Hf) as (-> & _). destruct (IH (fs ++ [reduce_lambda]) n1) as (n' & E').
    exists n'. cbn [app length repeat]. rewrite E, E', <- app_assoc. reflexivity.
Qed.

Lemma reduce_twice (df : list Row) n :
  reduce_num_voxels voxel (reduce_num_voxels voxel df n) n
  = reduce_num_voxels voxel df n.
Proof.
  unfold reduce_num_voxels. rewrite filter_filter. apply filter_ext. intros r.
  now destruct (Z.ltb (voxel r) n).
Qed.

Lemma reduce_many k (df : list Row) n :
  fold_left (fun o func =>
               call_filter voxel amplitude_estimate_normed eccen sigma (Some n) func o)
            (repeat reduce_lambda k) (reduce_num_voxels voxel df n)
  = reduce_num_voxels voxel df n.
Proof.
  induction k as [|k IH]; auto. cbn [repeat fold_left call_filter].
  now rewrite reduce_twice.
Qed.

(** X29.  The functions that [construct_df_filter] collects for the entries
    [reduce_num_voxels:n] all read the one variable [n_voxels] when they are
    called, after the loop has ended: a string made of several such entries
    gives the filter that keeps the voxels below the bound of the last entry,
    whatever the bounds of the entries before it. *)
Theorem chained_bounds_use_the_last_one (s : string) (pre : list string)
    (f : string) (b : Z) :
  split "," s = pre ++ [f] ->
  Forall (bounds_voxels int) pre ->
  String.prefix "reduce_num_voxels:" f = true ->
  int (last (split ":" f) EmptyString) = Some b ->
  exists df_filter,
    construct_df_filter voxel amplitude_estimate_normed eccen sigma int s
    = inl (Some df_filter)
    /\ forall df, df_filter df = reduce_num_voxels voxel df b.
Proof.
  intros Hs Hpre P E. unfold construct_df_filter. rewrite Hs.
  destruct (collect_bounds pre [f] Hpre [] None) as (n' & ->).
  destruct (bound_entry_tests f P) as (T1 & T2 & T3).
  cbn [collect app]. rewrite T1, T2, T3, P, E, <- repeat_cons.
  destruct (length pre) as [|k]; cbn [repeat length Nat.ltb Nat.leb].
  - eexists. split; reflexivity.
  - eexists. split; [reflexivity|]. intros df. cbn [fold_left call_filter].
    apply (reduce_many (S k)).
Qed.

(** X30.  What the reading of the command line can raise:
    [construct_df_filter] never fails for want of a collected filter, on any
    string; the reading of [--stimulus_class] raises a [TypeError] when the
    option is absent, and otherwise returns the integers that [int] reads,
    or [None] as soon as one entry is no integer. *)
Theorem command_line_exceptions :
  (forall s, construct_df_filter voxel amplitude_estimate_normed eccen sigma int s
             <> inr IndexError)
  /\ parse_stimulus_class int None = inr TypeError
  /\ (forall l, exists r,
         parse_stimulus_class int (Some l) = inl r
         /\ match r with
            | Some ns => Forall2 (fun i n => int i = Some n) l ns
            | None => exists i, In i l /\ int i = None
            end).
Proof.
  split; [|split].
  - intros s. unfold construct_df_filter.
    assert (G : forall pieces fs n fs' n',
               collect int pieces fs n = inl (Some (fs', n')) ->
               length fs' = (length fs + length pieces)%nat).
    { induction pieces as [|f pieces IH]; intros fs n fs' n' H; cbn [collect] in H.
      - injection H as <- <-. cbn [length]. lia.
      - repeat match type of H with
          | (if ?c then _ else _) = _ => destruct c
          | match ?c with _ => _ end = _ => destruct c
          end; try discriminate;
          apply IH in H; rewrite H, length_app; cbn [length]; lia. }
    destruct (collect int (split "," s) [] None) as [[[fs n]|]|e] eqn:E;
      try discriminate.
    + apply G in E. pose proof (split_nonempty "," s) as N.
      destruct (split "," s); [congruence|]. destruct fs as [|func fs];
        [cbn [length] in E; lia|].
      destruct (Nat.ltb 1 (length (func :: fs))); discriminate.
    + intros H. injection H as ->. revert E.
      generalize (@nil df_filter_t) (@None Z).
      induction (split "," s) as [|f pieces IH]; intros fs n H; cbn [collect] in H;
        [discriminate|].
      repeat match type of H with
        | (if ?c then _ else _) = _ => destruct c
        | match ?c with _ => _ end = _ => destruct c
        end; try discriminate; eauto.
  - reflexivity.
  - intros l. exists (ints int l). split; [reflexivity|].
    induction l as [|i l IH]; cbn [ints]; [constructor|].
    destruct (int i) as [n|] eqn:E.
    + destruct (ints int l) as [ns|].
      * now constructor.
      * destruct IH as (j & Hj & Ej). exists j. split; [now right | exact Ej].
    + exists i. split; [now left | exact E].
Qed.

End Table.

Lemma chained_filters_commute_witness :
  let df : list prf_row :=
    [(1%Z, Fin 1, Fin 2, Fin 1); (7%Z, Fin (-1), Fin 2, Fin 1);
     (3%Z, Fin 1, Fin 11.5, Fin 1)] in
  let call := call_filter prf_voxel prf_amplitude prf_eccen prf_sigma (Some 5%Z) in
  Permutation [reduce_lambda; near_border_filter; negative_amplitudes_filter]
              [negative_amplitudes_filter; reduce_lambda; near_border_filter]
  /\ call near_border_filter (call reduce_lambda df)
     = call reduce_lambda (call near_border_filter df)
  /\ fold_left (fun o func => call func o)
       [reduce_lambda; near_border_filter; negative_amplitudes_filter] df
     = fold_left (fun o func => call func o)
         [negative_amplitudes_filter; reduce_lambda; near_border_filter] df.
Proof.
  intros df call.
  assert (P : Permutation
                [reduce_lambda; near_border_filter; negative_amplitudes_filter]
                [negative_amplitudes_filter; reduce_lambda; near_border_filter]).
  { apply Permutation_sym. apply (Permutation_cons_append [_; _]). }
  split; [exact P|].
  exact (chained_filters_commute prf_row prf_voxel prf_amplitude prf_eccen prf_sigma
           (Some 5%Z) near_border_filter reduce_lambda _ _ df P).
Defined.

Lemma construct_stops_witness :
  construct_df_filter prf_voxel prf_amplitude prf_eccen prf_sigma decimal
    "drop_voxels_near_border,None,no_such_filter" = inl None
  /\ construct_df_filter prf_voxel prf_amplitude prf_eccen prf_sigma decimal
       "drop_voxels_near_border,reduce_num_voxels:many" = inr ValueError
  /\ construct_df_filter prf_voxel prf_amplitude prf_eccen prf_sigma decimal
       "drop_voxels_near_border,no_such_filter,None"
     = inr (Exception "Don't know what to do with df_filter no_such_filter").
Proof.
  assert (N : Forall (names_filter decimal) ["drop_voxels_near_border"%string])
    by (constructor; [right; left; reflexivity | constructor]).
  split; [|split].
  - apply (construct_stops_at_first_non_filter prf_row prf_voxel prf_amplitude
             prf_eccen prf_sigma decimal
             "drop_voxels_near_border,None,no_such_filter"
             ["drop_voxels_near_border"%string]
             ["no_such_filter"%string] "None" eq_refl N).
    now left.
  - apply (construct_stops_at_first_non_filter prf_row prf_voxel prf_amplitude
             prf_eccen prf_sigma decimal
             "drop_voxels_near_border,reduce_num_voxels:many"
             ["drop_voxels_near_border"%string]
             [] "reduce_num_voxels:many" eq_refl N); reflexivity.
  - apply (construct_stops_at_first_non_filter prf_row prf_voxel prf_amplitude
             prf_eccen prf_sigma decimal
             "drop_voxels_near_border,no_such_filter,None"
             ["drop_voxels_near_border"%string]
             ["None"%string] "no_such_filter" eq_refl N).
    unfold unknown_entry. repeat split; try discriminate.
Defined.

Lemma chained_bounds_witness :
  exists df_filter,
    construct_df_filter prf_voxel prf_amplitude prf_eccen prf_sigma decimal
      "reduce_num_voxels:10,reduce_num_voxels:500" = inl (Some df_filter)
    /\ forall df, df_filter df = reduce_num_voxels prf_voxel df 500.
Proof.
  apply (chained_bounds_use_the_last_one prf_row prf_voxel prf_amplitude prf_eccen
           prf_sigma decimal "reduce_num_voxels:10,reduce_num_voxels:500"
           ["reduce_num_voxels:10"%string]
           "reduce_num_voxels:500" 500 eq_refl).
  - constructor; [|constructor]. split; [reflexivity|]. exists 10%Z. reflexivity.
  - reflexivity.
  - reflexivity.
Defined.

End FilterFacts.

(* ================================================================= *)
(** * The loss with rounding: sign, identity and symmetry *)

Module RoundedFacts.
Import Loss LossTerms LossFacts ModelTerms ModelFacts TrainingFacts.
Import LoopTerms LoopFacts Rounded RoundedTerms.

(** ** Without rounding, the loss is that of the module [Loss] *)

Lemma round_exact a : round exact a = a.
Proof. now destruct a. Qed.

Lemma rsum_exact v : rsum exact v = fsum v.
Proof.
  unfold rsum, fsum. induction v as [|a v IH]; cbn [fold_right]; auto.
  rewrite IH. apply round_exact.
Qed.

Lemma rmean_exact v : rmean exact v = fmean v.
Proof. unfold rmean, fmean, rdiv. now rewrite round_exact, rsum_exact. Qed.

Lemma rnorm_exact v : rnorm exact v = fnorm v.
Proof.
  unfold rnorm, fnorm, rsqrt. rewrite round_exact, rsum_exact. do 2 f_equal.
  apply map_ext. intros a. apply round_exact.
Qed.

Lemma norm_last_exact t : Rounded.norm_last exact t = Torch.norm_last t.
Proof.
  destruct t; cbn [Rounded.norm_last Torch.norm_last]; rewrite ?rnorm_exact; auto.
  f_equal. apply map_ext. intros row. now rewrite rnorm_exact.
Qed.

Lemma mean_last_exact t : Rounded.mean_last exact t = Torch.mean_last t.
Proof.
  destruct t; cbn [Rounded.mean_last Torch.mean_last]; rewrite ?rmean_exact; auto.
  f_equal. apply map_ext. intros row. now rewrite rmean_exact.
Qed.

Lemma tbin_ext f g a b : (forall x y, f x y = g x y) -> tbin f a b = tbin g a b.
Proof.
  intros H. assert (E : f = g).
  { apply functional_extensionality. intros x.
    apply functional_extensionality. intros y. apply H. }
  now rewrite E.
Qed.

Lemma loss_exact P T W pn tn :
  Rounded.weighted_normed_loss exact P T W pn tn
  = Loss.weighted_normed_loss P T W pn tn.
Proof.
  unfold Rounded.weighted_normed_loss, Loss.weighted_normed_loss.
  rewrite norm_last_exact.
  assert (B : forall (f : fp -> fp -> fp) a b,
             rbin (fun x y => round exact (f x y)) a b = rbin f a b).
  { intros f [a|e] [b|e']; cbn [rbin bind]; auto. apply tbin_ext.
    intros x y. apply round_exact. }
  assert (M : forall a, rmap (rsquare exact) a = rmap fsquare a).
  { intros [a|e]; cbn [rmap bind]; auto. f_equal. unfold rsquare, rmul.
    destruct a; cbn [tmap]; f_equal.
    - apply round_exact.
    - apply map_ext. intros x. apply round_exact.
    - apply map_ext. intros row. apply map_ext. intros x. apply round_exact. }
  change (rbin (rmul exact)) with (rbin (fun x y => round exact (fmul x y))).
  change (rbin (rdiv exact)) with (rbin (fun x y => round exact (fdiv x y))).
  change (rbin (rsub exact)) with (rbin (fun x y => round exact (fsub x y))).
  unfold num. change (exact 1e100) with (Fin 1e100).
  destruct (contains_zero (Torch.norm_last P)); rewrite ?B; cbn [bind].
  - destruct (rbin fmul (Ok P) (Ok (T0 (Fin 1e100)))) as [P'|e]; cbn [bind]; auto.
    destruct pn as [pn|], tn as [tn|]; cbn [bind]; rewrite ?B, ?norm_last_exact; auto;
      repeat match goal with
        | |- bind ?r _ = bind ?r _ => destruct r; cbn [bind]; auto
        end;
      rewrite ?B, ?M, ?mean_last_exact;
      repeat match goal with
        | |- bind ?r _ = bind ?r _ => destruct r; cbn [bind]; auto
        end; unfold Rounded.mean_all, Torch.mean_all; now rewrite rmean_exact.
  - destruct pn as [pn|], tn as [tn|]; cbn [bind]; rewrite ?B, ?norm_last_exact; auto;
      repeat match goal with
        | |- bind ?r _ = bind ?r _ => destruct r; cbn [bind]; auto
        end;
      rewrite ?B, ?M, ?mean_last_exact;
      repeat match goal with
        | |- bind ?r _ = bind ?r _ => destruct r; cbn [bind]; auto
        end; unfold Rounded.mean_all, Torch.mean_all; now rewrite rmean_exact.
Qed.


(** ** The loss of a batch when the guard does not fire *)

Section Rounding.
Variable rnd : R -> fp.

Lemma loss_default_r P T W :
  contains_zero (Rounded.norm_last rnd P) = false ->
  Rounded.weighted_normed_loss rnd P T W None None
  = Rounded.weighted_normed_loss rnd P T W (Some P) (Some T).
Proof. intros H. unfold Rounded.weighted_normed_loss. rewrite H. reflexivity. Qed.

(** A single voxel's vectors give the loss of the batch made of that voxel. *)
Lemma loss_vector_as_batch_r (p t w : list fp) :
  Rounded.weighted_normed_loss rnd (T1 p) (T1 t) (T1 w) None None
  = Rounded.weighted_normed_loss rnd (T2 [p]) (T2 [t]) (T2 [w]) None None.
Proof.
  unfold Rounded.weighted_normed_loss.
  change (contains_zero (Rounded.norm_last rnd (T2 [p])))
    with (contains_zero (Rounded.norm_last rnd (T1 p))).
  destruct (contains_zero (Rounded.norm_last rnd (T1 p))); unfold rbin, rmap;
    repeat first
      [ progress cbn [bind Rounded.norm_last Rounded.mean_last tmap map tbin]
      | rewrite broadcast2_single
      | match goal with
        | |- context [broadcast1 ?f ?x ?y] => destruct (broadcast1 f x y) eqn:?
        end ];
    try reflexivity;
    unfold Rounded.mean_all, elements; cbn [concat]; now rewrite ?app_nil_r.
Qed.

Lemma loss_of_rows (c : nat) (b : list voxel) :
  Forall (fun v => length (v_predictions v) = c /\ length (v_target v) = c) b ->
  some_norm_is_zero rnd (map v_predictions b) = false ->
  Rounded.weighted_normed_loss rnd (tensor_of v_predictions b) (tensor_of v_target b)
    (tensor_of v_precision b) (Some (tensor_of v_predictions_for_norm b))
    (Some (tensor_of v_target_for_norm b))
  = Ok (loss_of_voxels rnd b).
Proof.
  intros Hshape Hguard. unfold Rounded.weighted_normed_loss, tensor_of.
  unfold some_norm_is_zero in Hguard. rewrite Hguard. cbn [bind].
  rewrite Forall_forall in Hshape.
  unfold rbin, Rounded.norm_last. cbn [bind tbin]. rewrite !map_map.
  unfold broadcast2.
  rewrite (broadcast_map (broadcast1 (rdiv rnd)) _ _
             (fun v => map (fun x => rdiv rnd x (rnorm rnd (v_predictions_for_norm v)))
                           (v_predictions v)))
    by (intros v _; apply broadcast1_right).
  cbn [bind].
  rewrite (broadcast_map (broadcast1 (rdiv rnd)) _ _
             (fun v => map (fun x => rdiv rnd x (rnorm rnd (v_target_for_norm v)))
                           (v_target v)))
    by (intros v _; apply broadcast1_right).
  cbn [bind]. unfold rmap. cbn [bind tbin]. unfold broadcast2.
  rewrite (broadcast_map (broadcast1 (rsub rnd)) _ _
             (fun v => map (fun xy =>
                              rsub rnd
                                (rdiv rnd (fst xy) (rnorm rnd (v_predictions_for_norm v)))
                                (rdiv rnd (snd xy) (rnorm rnd (v_target_for_norm v))))
                           (combine (v_predictions v) (v_target v)))).
  2:{ intros v Hv. rewrite broadcast1_same
        by (rewrite !length_map; destruct (Hshape v Hv) as [-> ->]; reflexivity).
      f_equal. rewrite combine_map, map_map. reflexivity. }
  cbn [bind tmap]. rewrite map_map.
  unfold Rounded.mean_last. rewrite map_map. cbn [tbin]. unfold broadcast2.
  rewrite (broadcast_map (broadcast1 (rmul rnd)) _ _ (squared_errors rnd)).
  2:{ intros v _. rewrite broadcast1_left. f_equal.
      unfold squared_errors. rewrite !map_map. reflexivity. }
  cbn [bind]. reflexivity.
Qed.

End Rounding.


(** ** Predictions equal to the target *)

Section Identity.
Variable rnd : R -> fp.
Hypothesis rnd_zero : rounds_zero rnd.

Lemma rsub_same q : rsub rnd (Fin q) (Fin q) = Fin 0.
Proof.
  unfold rsub. cbn [fsub fneg fadd round]. rewrite Rplus_opp_r. exact rnd_zero.
Qed.

Lemma rsquare_zero : rsquare rnd (Fin 0) = Fin 0.
Proof.
  unfold rsquare, rmul. cbn [fmul round]. rewrite Rmult_0_l. exact rnd_zero.
Qed.

Lemma rmul_zero_r m : rmul rnd (Fin m) (Fin 0) = Fin 0.
Proof. unfold rmul. cbn [fmul round]. rewrite Rmult_0_r. exact rnd_zero. Qed.

Lemma rsum_zeros l : Forall (fun x => x = Fin 0) l -> rsum rnd l = Fin 0.
Proof.
  unfold rsum. induction 1 as [|x l -> _ IH]; cbn [fold_right]; auto.
  rewrite IH. unfold radd. cbn [fadd round]. rewrite Rplus_0_l. exact rnd_zero.
Qed.

Lemma rmean_zeros l :
  l <> [] -> Forall (fun x => x = Fin 0) l -> rmean rnd l = Fin 0.
Proof.
  intros Hne H. unfold rmean. rewrite rsum_zeros by assumption.
  unfold rdiv. rewrite fdiv_finite.
  - cbn [round]. unfold Rdiv. rewrite Rmult_0_l. exact rnd_zero.
  - apply not_0_INR. destruct l; [congruence | discriminate].
Qed.

(** The norm of the empty vector is computed as 0. *)
Lemma rnorm_nil : rnorm rnd [] = Fin 0.
Proof.
  unfold rnorm, rsqrt. cbn [map rsum fold_right]. rewrite fsqrt_fin by lra.
  cbn [round]. rewrite sqrt_0. exact rnd_zero.
Qed.

Lemma guard_of_row rows row :
  some_norm_is_zero rnd rows = false -> In row rows ->
  is_zero (rnorm rnd row) = false.
Proof.
  unfold some_norm_is_zero, contains_zero, Rounded.norm_last, elements.
  induction rows as [|r rows IH]; [contradiction|].
  cbn [map concat app existsb]. intros H [-> | Hin].
  - now apply orb_false_elim in H.
  - apply IH; [|exact Hin]. now apply orb_false_elim in H.
Qed.

Lemma guard_of_vector rows row :
  some_norm_is_zero rnd rows = false -> In row rows ->
  some_norm_is_zero rnd [row] = false.
Proof.
  intros H Hin. unfold some_norm_is_zero, contains_zero.
  cbn [Rounded.norm_last map elements concat app existsb].
  now rewrite (guard_of_row rows row H Hin).
Qed.

Lemma row_not_empty rows row :
  some_norm_is_zero rnd rows = false -> In row rows -> row <> [].
Proof.
  intros H Hin ->. pose proof (guard_of_row _ _ H Hin) as G.
  rewrite rnorm_nil in G. now rewrite is_zero_true in G.
Qed.

Lemma squared_errors_same p w :
  normalizes rnd p -> finite (rmean rnd w) ->
  Forall (fun x => x = Fin 0) (squared_errors rnd (by_itself (p, p, w))).
Proof.
  intros Hp (m & Hm). unfold squared_errors, by_itself.
  cbn [v_predictions v_target v_precision v_predictions_for_norm
       v_target_for_norm fst snd].
  rewrite Hm. apply Forall_map. unfold normalizes in Hp.
  generalize (rnorm rnd p) Hp. clear Hp. intros n Hp.
  induction Hp as [|x l (q & Hq) _ IH]; cbn [combine]; constructor; auto.
  cbn [fst snd]. rewrite Hq, rsub_same, rsquare_zero. apply rmul_zero_r.
Qed.

Lemma same_rows_loss (c : nat) (l : list (list fp * list fp)) :
  l <> [] ->
  Forall (fun pw => length (fst pw) = c /\ normalizes rnd (fst pw)
                    /\ finite (rmean rnd (snd pw))) l ->
  some_norm_is_zero rnd (map fst l) = false ->
  Rounded.weighted_normed_loss rnd (T2 (map fst l)) (T2 (map fst l))
    (T2 (map snd l)) None None = Ok (Fin 0).
Proof.
  intros Hne Hall Hguard.
  set (b := map (fun pw => by_itself (fst pw, fst pw, snd pw)) l).
  assert (E1 : T2 (map fst l) = tensor_of v_predictions b)
    by (unfold b, tensor_of; now rewrite map_map).
  assert (E2 : T2 (map fst l) = tensor_of v_target b)
    by (unfold b, tensor_of; now rewrite map_map).
  assert (E3 : T2 (map snd l) = tensor_of v_precision b)
    by (unfold b, tensor_of; now rewrite map_map).
  assert (E4 : tensor_of v_predictions_for_norm b = tensor_of v_predictions b)
    by (unfold b, tensor_of; now rewrite !map_map).
  assert (E5 : tensor_of v_target_for_norm b = tensor_of v_target b)
    by (unfold b, tensor_of; now rewrite !map_map).
  assert (G : some_norm_is_zero rnd (map v_predictions b) = false)
    by (unfold b; rewrite map_map; exact Hguard).
  rewrite loss_default_r by exact Hguard.
  pose proof (loss_of_rows rnd c b) as L.
  rewrite E4, E5, <- E3, <- E1, <- E2 in L.
  rewrite L; [| |exact G].
  - f_equal. unfold loss_of_voxels. apply rmean_zeros.
    + destruct l as [|pw l]; [congruence|]. unfold b. cbn [map concat].
      inversion Hall as [|? ? (Hc & Hn & Hw) _]; subst.
      assert (Hrow : fst pw <> []).
      { apply (row_not_empty (map fst (pw :: l))); [exact Hguard | now left]. }
      unfold squared_errors, by_itself.
      cbn [v_predictions v_target fst snd].
      destruct (fst pw); [congruence | discriminate].
    + apply Forall_concat, Forall_map. unfold b. apply Forall_map.
      eapply Forall_impl; [|exact Hall]. intros pw (_ & Hn & Hw).
      cbn [fst snd]. now apply squared_errors_same.
  - unfold b. apply Forall_map. eapply Forall_impl; [|exact Hall].
    intros pw (Hc & _). cbn. auto.
Qed.

(** C9, as amended.  For a batch of prediction vectors of one length in
    which no vector has a norm that is computed as 0 and every prediction
    divided by the norm of its vector is a finite number, and for precisions
    whose mean over each vector is a finite number, the loss of the
    predictions against themselves is 0; so is the loss of each of these
    vectors taken alone.  This holds whatever the rounding of the operations
    is, provided that it rounds 0 to 0; a norm that underflows to 0 is
    excluded like the norm of the all-zero vector. *)
Theorem identity_loss_is_zero (c : nat) (l : list (list fp * list fp)) :
  l <> [] ->
  Forall (fun pw => length (fst pw) = c /\ normalizes rnd (fst pw)
                    /\ finite (rmean rnd (snd pw))) l ->
  some_norm_is_zero rnd (map fst l) = false ->
  Rounded.weighted_normed_loss rnd (T2 (map fst l)) (T2 (map fst l))
    (T2 (map snd l)) None None = Ok (Fin 0)
  /\ forall pw, In pw l ->
       Rounded.weighted_normed_loss rnd (T1 (fst pw)) (T1 (fst pw)) (T1 (snd pw))
         None None = Ok (Fin 0).
Proof.
  intros Hne Hall Hguard. split; [now apply (same_rows_loss c)|].
  intros pw Hin. rewrite loss_vector_as_batch_r.
  apply (same_rows_loss (length (fst pw)) [pw]).
  - discriminate.
  - rewrite Forall_forall in Hall. destruct (Hall pw Hin) as (_ & Hn & Hw).
    constructor; [|constructor]. auto.
  - apply (guard_of_vector (map fst l)); [exact Hguard | now apply in_map].
Qed.

End Identity.


(** ** The sign of the loss *)

Section Elements.
Context {A B C : Type}.
Variable h : A -> B -> result C.
Variable PA : A -> Prop.
Variable PB : B -> Prop.
Variable PC : C -> Prop.
Hypothesis h_keeps : forall x y c, PA x -> PB y -> h x y = Ok c -> PC c.

Lemma zip_with_Forall xs ys cs :
  zip_with h xs ys = Ok cs -> Forall PA xs -> Forall PB ys -> Forall PC cs.
Proof.
  revert ys cs. induction xs as [|x xs IH]; intros [|y ys] cs H Hx Hy;
    cbn [zip_with] in H; try discriminate.
  - injection H as <-. constructor.
  - destruct (h x y) as [c|] eqn:E; [|discriminate]. cbn [bind] in H.
    destruct (zip_with h xs ys) as [cs'|] eqn:E'; [|discriminate].
    cbn [bind] in H. injection H as <-.
    inversion Hx; subst. inversion Hy; subst. constructor; eauto.
Qed.

Lemma map_left_Forall x ys cs :
  map_left h x ys = Ok cs -> PA x -> Forall PB ys -> Forall PC cs.
Proof.
  revert cs. induction ys as [|y ys IH]; intros cs H Hx Hy; cbn [map_left] in H.
  - injection H as <-. constructor.
  - destruct (h x y) as [c|] eqn:E; [|discriminate]. cbn [bind] in H.
    destruct (map_left h x ys) as [cs'|] eqn:E'; [|discriminate].
    cbn [bind] in H. injection H as <-.
    inversion Hy; subst. constructor; eauto.
Qed.

Lemma map_right_Forall xs y cs :
  map_right h xs y = Ok cs -> Forall PA xs -> PB y -> Forall PC cs.
Proof.
  revert cs. induction xs as [|x xs IH]; intros cs H Hx Hy; cbn [map_right] in H.
  - injection H as <-. constructor.
  - destruct (h x y) as [c|] eqn:E; [|discriminate]. cbn [bind] in H.
    destruct (map_right h xs y) as [cs'|] eqn:E'; [|discriminate].
    cbn [bind] in H. injection H as <-.
    inversion Hx; subst. constructor; eauto.
Qed.

Lemma broadcast_Forall xs ys cs :
  broadcast h xs ys = Ok cs -> Forall PA xs -> Forall PB ys -> Forall PC cs.
Proof.
  unfold broadcast. destruct (Nat.eqb (length xs) (length ys)).
  - apply zip_with_Forall.
  - destruct xs as [|x [|x' xs]]; destruct ys as [|y [|y' ys]]; try discriminate;
      intros H Hx Hy;
      try (eapply map_left_Forall; [exact H | now inversion Hx | exact Hy]);
      try (eapply map_right_Forall; [exact H | exact Hx | now inversion Hy]).
Qed.
End Elements.

Lemma broadcast1_Forall f (Qa Qb Qc : fp -> Prop) u v r :
  (forall x y, Qa x -> Qb y -> Qc (f x y)) ->
  broadcast1 f u v = Ok r -> Forall Qa u -> Forall Qb v -> Forall Qc r.
Proof.
  intros Hf. apply broadcast_Forall. intros x y c Hx Hy H.
  injection H as <-. now apply Hf.
Qed.

Lemma broadcast2_Forall f (Qa Qb Qc : fp -> Prop) m n r :
  (forall x y, Qa x -> Qb y -> Qc (f x y)) ->
  broadcast2 f m n = Ok r ->
  Forall Qa (concat m) -> Forall Qb (concat n) -> Forall Qc (concat r).
Proof.
  intros Hf H Hm Hn. apply Forall_concat. apply Forall_concat in Hm, Hn.
  revert H Hm Hn. apply broadcast_Forall. intros u v w Hu Hv H.
  now apply (broadcast1_Forall f Qa Qb Qc u v).
Qed.

(** What holds of the elements of the operands of an elementwise operation
    holds, through the operation, of the elements of its result. *)
Lemma tbin_Forall f (Qa Qb Qc : fp -> Prop) a b c :
  (forall x y, Qa x -> Qb y -> Qc (f x y)) ->
  tbin f a b = Ok c ->
  Forall Qa (elements a) -> Forall Qb (elements b) -> Forall Qc (elements c).
Proof.
  intros Hf H Ha Hb.
  destruct a as [x | u | m], b as [y | v | n]; cbn [tbin elements] in *.
  - injection H as <-. cbn [elements]. inversion Ha; inversion Hb; subst. auto.
  - injection H as <-. cbn [elements]. inversion Ha; subst.
    apply Forall_map. eapply Forall_impl; [|exact Hb]. auto.
  - injection H as <-. cbn [elements]. apply Forall_concat, Forall_map.
    apply Forall_concat in Hb. inversion Ha; subst.
    eapply Forall_impl; [|exact Hb]. intros row Hrow.
    apply Forall_map. eapply Forall_impl; [|exact Hrow]. auto.
  - injection H as <-. cbn [elements]. inversion Hb; subst.
    apply Forall_map. eapply Forall_impl; [|exact Ha]. auto.
  - destruct (broadcast1 f u v) as [r|] eqn:E; [|discriminate]. cbn [bind] in H.
    injection H as <-. cbn [elements]. now apply (broadcast1_Forall f Qa Qb Qc u v).
  - destruct (broadcast2 f [u] n) as [r|] eqn:E; [|discriminate]. cbn [bind] in H.
    injection H as <-. cbn [elements].
    apply (broadcast2_Forall f Qa Qb Qc [u] n); auto.
    cbn [concat]. now rewrite app_nil_r.
  - injection H as <-. cbn [elements]. apply Forall_concat, Forall_map.
    apply Forall_concat in Ha. inversion Hb; subst.
    eapply Forall_impl; [|exact Ha]. intros row Hrow.
    apply Forall_map. eapply Forall_impl; [|exact Hrow]. auto.
  - destruct (broadcast2 f m [v]) as [r|] eqn:E; [|discriminate]. cbn [bind] in H.
    injection H as <-. cbn [elements].
    apply (broadcast2_Forall f Qa Qb Qc m [v]); auto.
    cbn [concat]. now rewrite app_nil_r.
  - destruct (broadcast2 f m n) as [r|] eqn:E; [|discriminate]. cbn [bind] in H.
    injection H as <-. cbn [elements].
    now apply (broadcast2_Forall f Qa Qb Qc m n).
Qed.

Lemma fmul_not_negative a b :
  not_negative a -> not_negative b -> not_negative (fmul a b).
Proof.
  destruct a as [x | | |], b as [y | | |]; cbn [not_negative fmul];
    try tauto; intros Ha Hb.
  - now apply Rmult_le_pos.
  - unfold sign_case. destruct (total_order_T x 0) as [[H|H]|H]; cbn; auto. lra.
  - unfold sign_case. destruct (total_order_T y 0) as [[H|H]|H]; cbn; auto. lra.
Qed.

Lemma fsquare_not_negative a : not_negative (fmul a a).
Proof.
  destruct a as [x | | |]; cbn [not_negative fmul]; auto.
  pose proof (Rle_0_sqr x) as H. exact H.
Qed.

Lemma fadd_not_negative a b :
  not_negative a -> not_negative b -> not_negative (fadd a b).
Proof.
  destruct a as [x | | |], b as [y | | |]; cbn [not_negative fadd];
    try tauto; intros Ha Hb. lra.
Qed.

Lemma fdiv_count_not_negative a n :
  not_negative a -> not_negative (fdiv a (Fin (INR n))).
Proof.
  pose proof (pos_INR n) as Hn.
  destruct a as [x | | |]; cbn [not_negative fdiv]; try tauto; intros Ha.
  - destruct (Req_dec_T (INR n) 0) as [E|E].
    + unfold sign_case. destruct (total_order_T x 0) as [[H|H]|H]; cbn; auto. lra.
    + cbn. unfold Rdiv. apply Rmult_le_pos; [exact Ha|].
      left. apply Rinv_0_lt_compat. lra.
  - destruct (Rlt_dec (INR n) 0); cbn; auto. lra.
Qed.

Section Sign.
Variable rnd : R -> fp.
Hypothesis rnd_sign : keeps_sign rnd.

Lemma round_not_negative a : not_negative a -> not_negative (round rnd a).
Proof. destruct a; cbn [round not_negative]; auto. Qed.

Lemma rsum_not_negative l : Forall not_negative l -> not_negative (rsum rnd l).
Proof.
  unfold rsum. induction 1 as [|a l Ha _ IH]; cbn [fold_right].
  - cbn. lra.
  - apply round_not_negative. now apply fadd_not_negative.
Qed.

Lemma rmean_not_negative l : Forall not_negative l -> not_negative (rmean rnd l).
Proof.
  intros H. unfold rmean, rdiv. apply round_not_negative.
  apply fdiv_count_not_negative. now apply rsum_not_negative.
Qed.

Lemma mean_last_not_negative W :
  Forall not_negative (elements W) ->
  Forall not_negative (elements (Rounded.mean_last rnd W)).
Proof.
  destruct W as [x | v | m]; cbn [Rounded.mean_last elements]; intros H.
  - constructor; [|constructor]. now apply rmean_not_negative.
  - constructor; [|constructor]. now apply rmean_not_negative.
  - apply Forall_concat in H. apply Forall_concat, Forall_map.
    eapply Forall_impl; [|exact H]. intros row Hrow.
    constructor; [|constructor]. now apply rmean_not_negative.
Qed.

Lemma squares_not_negative D :
  Forall not_negative (elements (tmap (rsquare rnd) D)).
Proof.
  assert (S : forall x, not_negative (rsquare rnd x)).
  { intros x. unfold rsquare, rmul. apply round_not_negative.
    apply fsquare_not_negative. }
  destruct D as [x | v | m]; cbn [tmap elements].
  - constructor; [apply S | constructor].
  - apply Forall_map, Forall_forall. intros x _. apply S.
  - apply Forall_concat, Forall_map, Forall_forall. intros row _.
    apply Forall_map, Forall_forall. intros x _. apply S.
Qed.

Lemma weighted_squares_not_negative W X se :
  Forall not_negative (elements W) ->
  rbin (rmul rnd) (Ok (Rounded.mean_last rnd W)) (rmap (rsquare rnd) X) = Ok se ->
  Forall not_negative (elements se).
Proof.
  intros HW. destruct X as [D|e]; cbn [rmap rbin bind]; [|discriminate].
  intros E.
  apply (tbin_Forall (rmul rnd) not_negative not_negative not_negative _ _ _
           (fun x y Hx Hy => round_not_negative _ (fmul_not_negative x y Hx Hy)) E).
  - now apply mean_last_not_negative.
  - apply squares_not_negative.
Qed.

(** When no precision is negative, neither is the loss, whatever the other
    arguments are. *)
Lemma loss_not_negative P T W pn tn loss :
  Forall not_negative (elements W) ->
  Rounded.weighted_normed_loss rnd P T W pn tn = Ok loss -> not_negative loss.
Proof.
  intros HW. unfold Rounded.weighted_normed_loss.
  repeat match goal with
    | |- bind ?r _ = _ -> _ =>
        let E := fresh "E" in destruct r eqn:E; cbn [bind]; [|discriminate]
    | |- (let '(_, _) := ?p in _) = _ -> _ => destruct p
    end.
  intros H. injection H as <-. unfold Rounded.mean_all.
  apply rmean_not_negative.
  match goal with
  | E : rbin (rmul rnd) _ _ = Ok _ |- _ =>
      exact (weighted_squares_not_negative W _ _ HW E)
  end.
Qed.

End Sign.


(** ** The loss is returned *)

Lemma rows_divided r c (f : fp -> fp -> fp) (g : list fp -> fp) m :
  length m = r -> Forall (fun row => length row = c) m ->
  length (map (fun row => map (fun x => f x (g row)) row) m) = r
  /\ Forall (fun row => length row = c)
            (map (fun row => map (fun x => f x (g row)) row) m).
Proof.
  intros L F. split; [now rewrite length_map|].
  apply Forall_map. eapply Forall_impl; [|exact F].
  intros row H. now rewrite length_map.
Qed.

Lemma loss_total_r rnd r c c' P T W :
  matrix r c P -> matrix r c T -> matrix r c' W ->
  exists loss, Rounded.weighted_normed_loss rnd P T W None None = Ok loss.
Proof.
  intros (p & -> & Lp & Fp) (t & -> & Lt & Ft) (w & -> & Lw & _).
  unfold Rounded.weighted_normed_loss.
  assert (G : exists p',
             (if contains_zero (Rounded.norm_last rnd (T2 p))
              then rbin (rmul rnd) (Ok (T2 p)) (Ok (T0 (rnd 1e100)))
              else Ok (T2 p)) = Ok (T2 p')
             /\ length p' = r /\ Forall (fun row => length row = c) p').
  { destruct (contains_zero (Rounded.norm_last rnd (T2 p))).
    - eexists. split; [reflexivity|]. split; [now rewrite length_map|].
      now apply Forall_map_length.
    - exists p. auto. }
  destruct G as (p' & -> & Lp' & Fp'). cbn [bind]. unfold rbin, rmap.
  cbn [bind Rounded.norm_last Rounded.mean_last tbin].
  rewrite !rows_over_column. cbn [bind tbin].
  destruct (rows_divided r c (rdiv rnd) (rnorm rnd) p' Lp' Fp') as [L1 F1].
  destruct (rows_divided r c (rdiv rnd) (rnorm rnd) t Lt Ft) as [L2 F2].
  rewrite (broadcast2_same (rsub rnd) c) by (auto; congruence). cbn [bind tmap tbin].
  rewrite column_over_rows.
  - cbn [bind]. eexists. reflexivity.
  - rewrite length_map.
    destruct (zip_rows_fits (rsub rnd) c _ _ (eq_trans L1 (eq_sym L2)) F1 F2) as [Z _].
    rewrite Z, L1. exact Lw.
Qed.

Lemma loss_returns rnd P T W :
  one_shape P T W ->
  exists loss, Rounded.weighted_normed_loss rnd P T W None None = Ok loss.
Proof.
  intros [(r & c & c' & HP & HT & HW) | (p & t & w & -> & -> & -> & L)].
  - now apply (loss_total_r rnd r c c').
  - rewrite loss_vector_as_batch_r. apply (loss_total_r rnd 1 (length p) (length w)).
    + exists [p]. repeat split; auto.
    + exists [t]. repeat split; auto.
    + exists [w]. repeat split; auto.
Qed.

(** ** What the conditions are when nothing is rounded *)

Lemma exact_rounds_zero : rounds_zero exact.
Proof. reflexivity. Qed.

Lemma exact_keeps_sign : keeps_sign exact.
Proof. intros x H. exact H. Qed.

Lemma exact_symmetric : symmetric exact.
Proof. intros x. reflexivity. Qed.

Lemma exact_normalizes p : sumsq p <> 0 -> normalizes exact (lift p).
Proof.
  intros H. unfold normalizes. rewrite rnorm_exact, fnorm_lift.
  apply Forall_map, Forall_forall. intros x _. unfold rdiv. rewrite round_exact.
  rewrite fdiv_fin by now apply Rnorm_nonzero. eexists. reflexivity.
Qed.

Lemma exact_mean_finite w : w <> [] -> finite (rmean exact (lift w)).
Proof. intros H. rewrite rmean_exact, fmean_lift by assumption. eexists. reflexivity. Qed.

Lemma exact_guard ps :
  Forall (fun p => sumsq p <> 0) ps ->
  some_norm_is_zero exact (map lift ps) = false.
Proof.
  unfold some_norm_is_zero, contains_zero, Rounded.norm_last, elements.
  rewrite map_map. induction 1 as [|p ps Hp _ IH]; cbn [map concat app existsb]; auto.
  rewrite IH, orb_false_r, rnorm_exact, fnorm_lift.
  apply is_zero_false. now apply Rnorm_nonzero.
Qed.

Lemma sumsq_three_four : sumsq [3; 4] <> 0.
Proof. unfold sumsq, Rsum. simpl. lra. Qed.

(** ** Rescaling the predictions *)

(** C2, as amended.  (i) When no precision is negative, the loss is not
    negative: for tensors of one shape it is returned, and it is a
    non-negative number, [+inf] or NaN.  This holds whatever the rounding of
    the operations is, provided that it rounds no non-negative number to a
    negative one.  (ii) When nothing is rounded, the loss of [k * predictions]
    equals the loss of [predictions], a finite number, for a positive scalar
    [k], finite vectors of predictions and targets of the same length and of
    non-zero norm, and a non-empty finite precision vector. *)
Theorem loss_sign_and_rescaling (rnd : R -> fp) (P T W : tensor)
    (k : R) (p t w : list R) :
  keeps_sign rnd -> one_shape P T W -> Forall not_negative (elements W) ->
  0 < k -> length p = length t -> w <> [] -> sumsq p <> 0 -> sumsq t <> 0 ->
  (exists loss,
     Rounded.weighted_normed_loss rnd P T W None None = Ok loss
     /\ not_negative loss)
  /\ (exists scaled loss,
        (num k * Ok (T1 (lift p)))%torch = Ok scaled
        /\ Rounded.weighted_normed_loss exact scaled (T1 (lift t)) (T1 (lift w))
             None None = Ok (Fin loss)
        /\ Rounded.weighted_normed_loss exact (T1 (lift p)) (T1 (lift t))
             (T1 (lift w)) None None = Ok (Fin loss)).
Proof.
  intros Hsign Hshape HW Hk Hlen Hw Hp Ht. split.
  - destruct (loss_returns rnd P T W Hshape) as (loss & E).
    exists loss. split; [exact E|].
    exact (loss_not_negative rnd Hsign P T W None None loss HW E).
  - destruct (scale_invariance_exact k p t w Hk Hlen Hw Hp Ht)
      as (scaled & loss & E1 & E2 & E3).
    exists scaled, loss. rewrite !loss_exact. auto.
Qed.

Lemma loss_sign_and_rescaling_witness :
  (exists loss,
     Rounded.weighted_normed_loss exact (T2 [three_four]) (T2 [[Fin 1; Fin 0]])
       (T2 [ones]) None None = Ok loss
     /\ not_negative loss)
  /\ (exists scaled loss,
        (num 2 * Ok (T1 (lift [3; 4])))%torch = Ok scaled
        /\ Rounded.weighted_normed_loss exact scaled (T1 (lift [1; 0]))
             (T1 (lift [1; 1])) None None = Ok (Fin loss)
        /\ Rounded.weighted_normed_loss exact (T1 (lift [3; 4])) (T1 (lift [1; 0]))
             (T1 (lift [1; 1])) None None = Ok (Fin loss)).
Proof.
  apply (loss_sign_and_rescaling exact (T2 [three_four]) (T2 [[Fin 1; Fin 0]])
           (T2 [ones]) 2 [3; 4] [1; 0] [1; 1]).
  - exact exact_keeps_sign.
  - left. exists 1%nat, 2%nat, 2%nat.
    repeat split; eexists; (split; [reflexivity|]); split; auto.
  - repeat constructor; cbn; lra.
  - lra.
  - reflexivity.
  - discriminate.
  - exact sumsq_three_four.
  - unfold sumsq, Rsum. simpl. lra.
Defined.

(** C2 as stated fails: the loss of an all-zero prediction vector is NaN, which
    is not a non-negative number, and a negative precision gives a negative
    loss.  The values are 0, 1 and -1, which no rounding changes. *)
Lemma loss_not_always_nonnegative :
  Rounded.weighted_normed_loss exact (T1 [Fin 0]) (T1 [Fin 1]) (T1 [Fin 1])
    None None = Ok NaN
  /\ Rounded.weighted_normed_loss exact (T1 [Fin 1; Fin 0]) (T1 [Fin 0; Fin 1])
       (T1 [Fin (-1); Fin (-1)]) None None = Ok (Fin (-1))
  /\ -1 < 0.
Proof.
  rewrite !loss_exact. split; [exact zero_predictions_nan|].
  split; [exact negative_precision_negative_loss | lra].
Qed.

(** ** Predictions equal to the target: examples *)

Lemma identity_loss_is_zero_witness :
  Rounded.weighted_normed_loss exact (T2 (map fst [(three_four, ones)]))
    (T2 (map fst [(three_four, ones)])) (T2 (map snd [(three_four, ones)]))
    None None = Ok (Fin 0)
  /\ forall pw, In pw [(three_four, ones)] ->
       Rounded.weighted_normed_loss exact (T1 (fst pw)) (T1 (fst pw)) (T1 (snd pw))
         None None = Ok (Fin 0).
Proof.
  apply (identity_loss_is_zero exact exact_rounds_zero 2 [(three_four, ones)]).
  - discriminate.
  - constructor; [|constructor]. cbn [fst snd]. split; [reflexivity|]. split.
    + exact (exact_normalizes [3; 4] sumsq_three_four).
    + apply (exact_mean_finite [1; 1]). discriminate.
  - apply (exact_guard [[3; 4]]). constructor; [exact sumsq_three_four | constructor].
Defined.

(** C9 as stated fails: for the all-zero vector the loss of the predictions
    against themselves is NaN, not 0. *)
Lemma zero_vector_identity_is_nan :
  Rounded.weighted_normed_loss exact (T1 [Fin 0]) (T1 [Fin 0]) (T1 [Fin 1])
    None None = Ok NaN.
Proof. rewrite loss_exact. exact zero_vector_identity_nan. Qed.


(** ** Exchanging predictions and targets *)

Lemma fsub_swap a b : fsub b a = fneg (fsub a b).
Proof.
  destruct a as [x | | |], b as [y | | |]; cbn [fsub fneg fadd]; auto.
  f_equal. ring.
Qed.

Lemma fsquare_fneg a : fmul (fneg a) (fneg a) = fmul a a.
Proof. destruct a as [x | | |]; cbn [fneg fmul]; auto. f_equal. ring. Qed.

Section Symmetry.
Variable rnd : R -> fp.
Hypothesis rnd_symmetric : symmetric rnd.

Lemma round_fneg a : round rnd (fneg a) = fneg (round rnd a).
Proof. destruct a; cbn [round fneg]; auto. Qed.

Lemma rsquare_rsub_swap a b :
  rsquare rnd (rsub rnd b a) = rsquare rnd (rsub rnd a b).
Proof.
  unfold rsquare, rmul, rsub. now rewrite (fsub_swap a b), round_fneg, fsquare_fneg.
Qed.

Lemma squared_errors_swap p t w :
  squared_errors rnd (by_itself (t, p, w)) = squared_errors rnd (by_itself (p, t, w)).
Proof.
  unfold squared_errors, by_itself.
  cbn [v_predictions v_target v_precision v_predictions_for_norm
       v_target_for_norm fst snd].
  generalize (rnorm rnd p) (rnorm rnd t) (rmean rnd w). intros np nt m.
  revert t. induction p as [|a p IH]; intros [|b t]; cbn [combine map]; auto.
  rewrite IH. f_equal. cbn [fst snd]. now rewrite rsquare_rsub_swap.
Qed.

Lemma loss_of_own_rows (c : nat) (l : list (list fp * list fp * list fp)) :
  Forall (fun x => length (fst (fst x)) = c /\ length (snd (fst x)) = c) l ->
  some_norm_is_zero rnd (map (fun x => fst (fst x)) l) = false ->
  Rounded.weighted_normed_loss rnd (T2 (map (fun x => fst (fst x)) l))
    (T2 (map (fun x => snd (fst x)) l)) (T2 (map snd l)) None None
  = Ok (loss_of_voxels rnd (map by_itself l)).
Proof.
  intros Hall Hguard. rewrite loss_default_r by exact Hguard.
  pose proof (loss_of_rows rnd c (map by_itself l)) as L.
  unfold tensor_of in L. rewrite !map_map in L. apply L.
  - apply Forall_map. exact Hall.
  - exact Hguard.
Qed.

(** X10.  The loss does not distinguish predictions from targets: for a
    batch of voxels with one number of classes in which no vector of
    predictions and no vector of targets has a norm that is computed as 0,
    exchanging the predictions and the targets leaves the loss unchanged.
    This holds whatever the rounding of the operations is, provided that
    opposite numbers are rounded to opposite numbers. *)
Theorem loss_is_symmetric (c : nat) (l : list (list fp * list fp * list fp)) :
  Forall (fun x => length (fst (fst x)) = c /\ length (snd (fst x)) = c) l ->
  some_norm_is_zero rnd (map (fun x => fst (fst x)) l) = false ->
  some_norm_is_zero rnd (map (fun x => snd (fst x)) l) = false ->
  Rounded.weighted_normed_loss rnd (T2 (map (fun x => fst (fst x)) l))
    (T2 (map (fun x => snd (fst x)) l)) (T2 (map snd l)) None None
  = Rounded.weighted_normed_loss rnd (T2 (map (fun x => snd (fst x)) l))
      (T2 (map (fun x => fst (fst x)) l)) (T2 (map snd l)) None None.
Proof.
  intros Hall Gp Gt. rewrite (loss_of_own_rows c l Hall Gp).
  set (swap := fun x : list fp * list fp * list fp => (snd (fst x), fst (fst x), snd x)).
  pose proof (loss_of_own_rows c (map swap l)) as L.
  rewrite !map_map in L. cbn [swap fst snd] in L.
  transitivity (Ok (loss_of_voxels rnd (map (fun x => by_itself (swap x)) l))).
  - f_equal. unfold loss_of_voxels. rewrite !map_map. do 2 f_equal.
    apply map_ext. intros [[p t] w]. cbn [swap fst snd].
    symmetry. apply squared_errors_swap.
  - symmetry. apply L.
    + apply Forall_map. eapply Forall_impl; [|exact Hall].
      intros x [H1 H2]. cbn [swap fst snd]. auto.
    + exact Gt.
Qed.
End Symmetry.

Lemma loss_is_symmetric_witness :
  Rounded.weighted_normed_loss exact
    (T2 (map (fun x => fst (fst x)) [(three_four, [Fin 1; Fin 0], ones)]))
    (T2 (map (fun x => snd (fst x)) [(three_four, [Fin 1; Fin 0], ones)]))
    (T2 (map snd [(three_four, [Fin 1; Fin 0], ones)])) None None
  = Rounded.weighted_normed_loss exact
      (T2 (map (fun x => snd (fst x)) [(three_four, [Fin 1; Fin 0], ones)]))
      (T2 (map (fun x => fst (fst x)) [(three_four, [Fin 1; Fin 0], ones)]))
      (T2 (map snd [(three_four, [Fin 1; Fin 0], ones)])) None None.
Proof.
  apply (loss_is_symmetric exact exact_symmetric 2
           [(three_four, [Fin 1; Fin 0], ones)]).
  - constructor; [|constructor]. split; reflexivity.
  - apply (exact_guard [[3; 4]]). constructor; [exact sumsq_three_four | constructor].
  - apply (exact_guard [[1; 0]]). constructor; [|constructor].
    unfold sumsq, Rsum. simpl. lra.
Defined.

End RoundedFacts.

(* ================================================================= *)
(** * The guard of the loss in cross-validation *)

Module GuardFacts.
Import LogGaussianDonut ModelTerms ModelFacts TuningTerms TuningFacts.
Import Loss LossTerms LossFacts Dataset Training TrainingTerms TrainingFacts.
Import GuardTerms.

(** ** The predictions of the flat model *)

Lemma flat_model_holds : holds flat_model flat_parameters.
Proof. unfold holds. repeat split; reflexivity. Qed.

Lemma flat_model_constructed :
  LogGaussianDonut.init "full" "full" true (Fin 1) (Fin 0) (Fin 1) (Fin 0) (Fin 0)
    (Fin 0) (Fin 0)
    (Fin 0) (Fin 0) (Fin 0) (Fin 0) = Ok (flat_model, []).
Proof. reflexivity. Qed.

Lemma flog2_zero : flog2 (Fin 0) = NInf.
Proof.
  unfold flog2, sign_case.
  destruct (total_order_T 0 0) as [[H|H]|H]; try lra. reflexivity.
Qed.

(** To the spatial frequency 0 a model with finite parameters responds
    with 0. *)
Lemma response_at_zero_sf self rp a e v :
  holds self rp -> response_at self (Fin 0) (Fin a) (Fin e) (Fin v) = Fin 0.
Proof.
  intros H. unfold response_at, pdf_at.
  rewrite (amplitude_at_finite self rp), (preferred_period_at_finite self rp)
    by assumption.
  destruct H as (Hs & _). rewrite Hs, flog2_zero.
  rewrite flog2_pos by apply preferred_period_real_pos.
  cbn [fadd fsquare fmul fneg fdiv].
  destruct (Rlt_dec (2 * (r_sigma rp * r_sigma rp)) 0) as [N|N].
  - exfalso. pose proof (Rle_0_sqr (r_sigma rp)) as Q. unfold Rsqr in Q. lra.
  - cbn [fexp fmul]. f_equal. ring.
Qed.

Lemma flat_period a e v : preferred_period_real flat_parameters a e v = 1.
Proof.
  unfold preferred_period_real, flat_parameters. cbn.
  match goal with |- Rmax ?x _ = _ => replace x with 1 by ring end.
  apply Rmax_left. lra.
Qed.

Lemma flat_amplitude a v : amplitude_real flat_parameters a v = 1.
Proof.
  unfold amplitude_real, flat_parameters. cbn.
  match goal with |- Rmax ?x _ = _ => replace x with 1 by ring end.
  apply Rmax_left. lra.
Qed.

(** To the spatial frequency 1 the flat model responds with 1. *)
Lemma flat_response_at_one a e v :
  response_at flat_model (Fin 1) (Fin a) (Fin e) (Fin v) = Fin 1.
Proof.
  rewrite (response_at_finite flat_model flat_parameters)
    by (try apply flat_model_holds; cbn; lra).
  f_equal. unfold response_real, pdf_real. rewrite flat_amplitude, flat_period.
  unfold log2. rewrite ln_1. cbn [r_sigma flat_parameters].
  replace (- ((0 / ln 2 + 0 / ln 2) * (0 / ln 2 + 0 / ln 2)) / (2 * (1 * 1)))
    with 0 by (unfold Rdiv; ring).
  rewrite exp_0. ring.
Qed.

Lemma column_fits a b : fits (Matrix 2 1) (column a b).
Proof. cbn. repeat constructor. Qed.

Lemma flat_forward (m m' : R) (out : R * R) :
  response_at flat_model (Fin m) (Fin 0) (Fin 1) (Fin 0) = Fin (fst out) ->
  response_at flat_model (Fin m') (Fin 0) (Fin 1) (Fin 0) = Fin (snd out) ->
  LogGaussianDonut.forward flat_model (column m m') (column 0 0) (column 1 1)
    (column 0 0) = Ok (column (fst out) (snd out)).
Proof.
  intros H0 H1. unfold LogGaussianDonut.forward.
  destruct (evaluate_pointwise (Matrix 2 1) flat_model (column m m') (column 0 0)
              (column 1 1) (column 0 0) (column_fits _ _) (column_fits _ _)
              (column_fits _ _) (column_fits _ _))
    as (r & E & Fr & Sr & Hr).
  rewrite E. f_equal. apply (tensor_ext (Matrix 2 1)); auto using column_fits.
  intros i j [Hi Hj]. rewrite Hr by (split; assumption).
    assert (j = 0%nat) by lia. subst j.
    destruct i as [|[|i]]; [exact H0 | exact H1 | lia].
Qed.

Lemma guarded_train_predictions :
  call LogGaussianDonut.forward flat_model guarded_train_stuff = Ok (column 0 1).
Proof.
  apply (flat_forward 0 1 (0, 1)).
  - apply (response_at_zero_sf flat_model flat_parameters), flat_model_holds.
  - apply flat_response_at_one.
Qed.

Lemma guarded_test_predictions :
  call LogGaussianDonut.forward flat_model guarded_test_stuff = Ok (column 1 0).
Proof.
  apply (flat_forward 1 0 (1, 0)).
  - apply flat_response_at_one.
  - apply (response_at_zero_sf flat_model flat_parameters), flat_model_holds.
Qed.


(** ** The loss once the guard has fired *)

(** The part of [weighted_normed_loss] that follows the guard. *)
Lemma normalized_loss (c : nat) (b : list responses) :
  (0 < c)%nat -> b <> [] -> Forall (normable c) b ->
  (normed_predictions <-
     Ok (rows preds b) / Ok (norm_last (rows preds_for_norm b)) ;;
   normed_target <- Ok (rows targ b) / Ok (norm_last (rows targ_for_norm b)) ;;
   squared_error <-
     Ok (mean_last (rows prec b))
     * rmap fsquare (Ok normed_predictions - Ok normed_target) ;;
   Ok (mean_all squared_error))%torch
  = Ok (Fin (batch_loss b)).
Proof.
  intros Hc Hne Hreg. rewrite Forall_forall in Hreg.
  unfold rbin, rows, norm_last. cbn [bind tbin]. rewrite !map_map.
  unfold broadcast2.
  rewrite (broadcast_map (broadcast1 fdiv) _ _
             (fun v => lift (normed (preds v) (preds_for_norm v))))
    by (intros v Hv; apply divide_by_norm; destruct (Hreg v Hv) as (_ & _ & _ & H & _);
        exact H).
  cbn [bind].
  rewrite (broadcast_map (broadcast1 fdiv) _ _
             (fun v => lift (normed (targ v) (targ_for_norm v))))
    by (intros v Hv; apply divide_by_norm; destruct (Hreg v Hv) as (_ & _ & _ & _ & H);
        exact H).
  cbn [bind]. unfold rmap. cbn [bind tbin]. unfold broadcast2.
  rewrite (broadcast_map (broadcast1 fsub) _ _
             (fun v => lift (map (fun p => fst p - snd p)
                               (combine (normed (preds v) (preds_for_norm v))
                                        (normed (targ v) (targ_for_norm v))))))
    by (intros v Hv; apply broadcast1_lift; [reflexivity|];
        unfold normed; rewrite !length_map;
        destruct (Hreg v Hv) as (-> & -> & _); reflexivity).
  cbn [bind tmap]. rewrite map_map.
  unfold mean_last. rewrite map_map. cbn [tbin]. unfold broadcast2.
  rewrite (broadcast_map (broadcast1 fmul) _ _
             (fun v => lift (squared_error v))).
  2:{ intros v Hv. destruct (Hreg v Hv) as (_ & _ & Hw & _).
      rewrite fmean_lift by assumption. rewrite broadcast1_left. f_equal.
      unfold squared_error, lift. rewrite !map_map. apply map_ext.
      intros [x y]. reflexivity. }
  cbn [bind]. unfold mean_all, elements. rewrite concat_lift.
  rewrite fmean_lift; [reflexivity|].
  destruct b as [|v b]; [congruence|]. cbn [map concat].
  destruct (Hreg v (or_introl eq_refl)) as (Lp & Lt & _).
  assert (L : length (squared_error v) = c).
  { unfold squared_error, normed.
    rewrite length_map, length_combine, !length_map. lia. }
  destruct (squared_error v); [simpl in L; lia | discriminate].
Qed.

Lemma inflated_rows b :
  (Ok (rows preds b) * num 1e100)%torch = Ok (rows preds (map inflated b)).
Proof.
  unfold rbin, num, rows. cbn [bind tbin]. do 2 f_equal. rewrite !map_map.
  apply map_ext. intros v. unfold lift, inflated. cbn [preds].
  rewrite !map_map. reflexivity.
Qed.

Lemma inflated_normable c v : normable c v -> normable c (inflated v).
Proof.
  unfold normable, inflated. cbn [preds targ prec preds_for_norm targ_for_norm].
  rewrite length_map. tauto.
Qed.

(** With the [for_norm] arguments given, the loss of a batch in which the
    guard fires is that of the batch whose predictions are [1e100] times
    larger: the norms by which they are divided are not rescaled. *)
Lemma loss_after_guard (c : nat) (b : list responses) :
  (0 < c)%nat -> b <> [] -> Forall (normable c) b ->
  weighted_normed_loss (rows preds b) (rows targ b) (rows prec b)
    (Some (rows preds_for_norm b)) (Some (rows targ_for_norm b))
  = Ok (Fin (batch_loss (if contains_zero (norm_last (rows preds b))
                         then map inflated b else b))).
Proof.
  intros Hc Hne Hreg. unfold weighted_normed_loss.
  destruct (contains_zero (norm_last (rows preds b))).
  - rewrite inflated_rows. cbn [bind].
    pose proof (normalized_loss c (map inflated b) Hc) as L.
    unfold rows in L at 2 3 4 5. rewrite !map_map in L.
    cbn [inflated preds targ prec preds_for_norm targ_for_norm] in L.
    apply L.
    + destruct b; [congruence | discriminate].
    + apply Forall_map. eapply Forall_impl; [|exact Hreg]. apply inflated_normable.
  - cbn [bind]. now apply (normalized_loss c).
Qed.

Lemma zero_norm_fires b :
  Exists (fun v => sumsq (preds v) = 0) b ->
  contains_zero (norm_last (rows preds b)) = true.
Proof.
  unfold contains_zero, rows, norm_last, elements. rewrite map_map.
  induction 1 as [v b Hv | v b _ IH]; cbn [map concat app existsb].
  - rewrite fnorm_lift. unfold Rnorm. rewrite Hv, sqrt_0.
    now rewrite is_zero_true.
  - rewrite IH. apply orb_true_r.
Qed.


(** ** A cross-validation step in which the guard fires *)

Lemma guarded_normable : Forall (normable 1) (map pooled guarded_voxels).
Proof.
  unfold guarded_voxels. cbn [map]. repeat constructor; try discriminate;
    cbn [pooled preds_for_norm targ_for_norm test_preds train_preds test_targ
         train_targ app]; unfold sumsq, Rsum; simpl; lra.
Qed.

Lemma guarded_loss :
  traintest_loss LogGaussianDonut.forward guarded_train_stuff guarded_test_stuff
    flat_model
  = Ok (Fin (batch_loss (map inflated (map pooled guarded_voxels)))).
Proof.
  unfold traintest_loss.
  rewrite guarded_train_predictions, guarded_test_predictions. cbn [bind].
  pose proof (loss_after_guard 1 (map pooled guarded_voxels)) as L.
  rewrite zero_norm_fires in L.
  - apply L; [lia | discriminate | exact guarded_normable].
  - left. unfold sumsq, Rsum. simpl. lra.
Qed.

Lemma claimed_loss : cv_loss guarded_voxels = 1 / 2.
Proof.
  unfold cv_loss, guarded_voxels. cbn [map concat app cv_squared_error
    train_preds train_targ train_prec test_preds test_targ combine fst snd].
  unfold Rmean, sumsq, Rsum. cbn [map fold_right length INR].
  replace (1 * 1 + 0 + (0 * 0 + 0)) with 1 by ring.
  replace (0 * 0 + 0 + (1 * 1 + 0)) with 1 by ring.
  rewrite sqrt_1. field.
Qed.

Lemma inflated_loss :
  batch_loss (map inflated (map pooled guarded_voxels))
  = (1 + (1e100 - 1) * (1e100 - 1)) / 2.
Proof.
  unfold batch_loss, guarded_voxels. cbn [map concat app pooled inflated
    squared_error normed preds targ prec preds_for_norm targ_for_norm
    train_preds train_targ train_prec test_preds test_targ combine fst snd].
  unfold Rmean, Rnorm, sumsq, Rsum. cbn [map fold_right length INR].
  replace (1 * 1 + (0 * 0 + 0)) with 1 by ring.
  replace (0 * 0 + (1 * 1 + 0)) with 1 by ring.
  rewrite sqrt_1. field.
Qed.

(** C3, at an input where the code departs from it.  The model is built by
    the constructor; a batch of two voxels [A] and [B] is taken from the train
    loader and the matching batch from the test loader.  The model predicts 0
    for the train class of [A] and 1 for that of [B], and the other way round
    for the held-out class.  With each side divided by the norm of its
    held-out and train values taken together, as the claim has it, the loss
    over the train class is 1/2.  The code returns more than [1e199]: the
    norm of the train predictions of [A] is 0, so the guard multiplies the
    train predictions of the whole batch by [1e100], and they are then divided
    by the norms of the predictions as they were.  The loss is finite, so the
    optimizer takes its step with it. *)
Theorem guard_inflates_the_cross_validation_loss :
  LogGaussianDonut.init "full" "full" true (Fin 1) (Fin 0) (Fin 1) (Fin 0) (Fin 0)
    (Fin 0) (Fin 0) (Fin 0) (Fin 0) (Fin 0) (Fin 0) = Ok (flat_model, [])
  /\ call LogGaussianDonut.forward flat_model guarded_train_stuff
     = Ok (cv_rows train_preds guarded_voxels)
  /\ call LogGaussianDonut.forward flat_model guarded_test_stuff
     = Ok (cv_rows test_preds guarded_voxels)
  /\ b_target guarded_train_stuff = cv_rows train_targ guarded_voxels
  /\ b_target guarded_test_stuff = cv_rows test_targ guarded_voxels
  /\ b_precision guarded_train_stuff = cv_rows train_prec guarded_voxels
  /\ cv_loss guarded_voxels = 1 / 2
  /\ exists loss,
       traintest_loss LogGaussianDonut.forward guarded_train_stuff
         guarded_test_stuff flat_model = Ok (Fin loss)
       /\ 1e199 < loss
       /\ forall (optimizer : Type)
                 (adam_step : optimizer -> t -> (t -> result fp) -> optimizer * t)
                 (opt : optimizer) (losses : list fp),
            batch_body adam_step
              (traintest_loss LogGaussianDonut.forward guarded_train_stuff
                 guarded_test_stuff) (opt, flat_model, losses)
            = Ok (adam_step opt flat_model
                    (traintest_loss LogGaussianDonut.forward guarded_train_stuff
                       guarded_test_stuff),
                  losses ++ [Fin loss]).
Proof.
  split; [exact flat_model_constructed|].
  split; [exact guarded_train_predictions|].
  split; [exact guarded_test_predictions|].
  do 3 (split; [reflexivity|]).
  split; [exact claimed_loss|].
  exists ((1 + (1e100 - 1) * (1e100 - 1)) / 2).
  assert (E : traintest_loss LogGaussianDonut.forward guarded_train_stuff
                guarded_test_stuff flat_model
              = Ok (Fin ((1 + (1e100 - 1) * (1e100 - 1)) / 2)))
    by (rewrite guarded_loss, inflated_loss; reflexivity).
  split; [exact E|]. split; [lra|].
  intros optimizer adam_step opt losses. unfold batch_body.
  rewrite E. cbn [bind isnan isinf orb].
  destruct (adam_step opt flat_model _). reflexivity.
Qed.


End GuardFacts.

(* ================================================================= *)
(** * The stopping rule of [train_model] *)

Module StoppingFacts.
Import Loss Dataset Training TrainingTerms TrainingFacts LoopFacts StoppingTerms.





Section Loop.
Context {model_t optimizer : Type}.
Variable forward : model_t -> tensor -> tensor -> tensor -> tensor -> result tensor.
Variable adam_step :
  optimizer -> model_t -> (model_t -> result fp) -> optimizer * model_t.


End Loop.




End StoppingFacts.

